(** * Extraction-and-reconciliation pipeline: a shallow embedding

    The Python sources embedded here are
      - [src/artifact_merger.py]     (ArtifactMerger)
      - [src/content_extractor.py]   (split_by_tomb)
      - [src/automated_extractor.py] (repair_truncated_json,
                                      extract_json_from_response)
      - [src/template_analyzer.py]   (TemplateAnalyzer.to_db_field_name)
      - [src/image_manager.py], [src/image_linker.py] (ImageLinker)
      - [src/workflow.py]            (ExtractionWorkflow)

    Python values are modelled as they are at run time: a [str] is a
    sequence of Unicode code points, a [dict] keeps its insertion
    order, a [float] is an IEEE binary64 number, an exception is an
    explicit error result, the database and the disk are a state that
    is passed along.  What the program does not contain is taken as
    given: the interpreter's tables ([Interp]), the language model
    ([LLM]), the operator, the disk and the clock ([Environment]).

    Main results, by property:
      - C1  [Workflow.cancellation_ends_in_failed]
      - C2  [Workflow.parse_failure_is_recorded]
      - C3  [TemplateAnalyzer.fallback_name_depends_on_the_process]
      - C4  [ArtifactMerger.merge_conflict_scenario]
      - C5  [ContentExtractor.concatenation_reproduces_text]
      - C6  [SplitLargeText.overlap_after_every_cut]
      - C7  [GenerateTriples.one_triple_per_truthy_mapped_field]
      - C8  [ExpandRanges.rejected_range_is_left_to_the_model]
      - C9  [ImageLinker.five_keywords_exceed_one]
      - C10 [ImageLinker.no_code_no_images]

    Each module goes on with what else the code guarantees: what the
    merger keeps and which value wins, the invariants of the tomb
    dictionary, the coverage and the size of the chunks, the repair
    and the recovery of JSON, what the expansion of code ranges keeps,
    the names, the order and the confidence of the linked images, the
    shape of a storage key, and the state in which a run ends. *)

From Stdlib Require Import ZArith NArith List Bool Ascii String Lia.
From Stdlib Require Import Floats Uint63 Permutation.
Import ListNotations.

Set Warnings "-register-all,-inexact-float".

(* ================================================================== *)
(** * Python strings and values                                        *)
(* ================================================================== *)

Module Py.

(** A Python [str]: its code points, in order. *)
Definition char := N.
Definition str := list char.

(** String literals of this file are UTF-8 encoded; [u] decodes one
    into its code points. *)
Fixpoint utf8_decode (bs : list N) : str :=
  match bs with
  | [] => []
  | b0 :: r0 =>
      if (b0 <? 128)%N then b0 :: utf8_decode r0
      else if (b0 <? 224)%N then
        match r0 with
        | b1 :: r1 => ((b0 - 192) * 64 + (b1 - 128))%N :: utf8_decode r1
        | _ => []
        end
      else if (b0 <? 240)%N then
        match r0 with
        | b1 :: b2 :: r2 =>
            ((b0 - 224) * 4096 + (b1 - 128) * 64 + (b2 - 128))%N
              :: utf8_decode r2
        | _ => []
        end
      else
        match r0 with
        | b1 :: b2 :: b3 :: r3 =>
            ((b0 - 240) * 262144 + (b1 - 128) * 4096
             + (b2 - 128) * 64 + (b3 - 128))%N :: utf8_decode r3
        | _ => []
        end
  end.

Definition u (s : string) : str :=
  utf8_decode (map N_of_ascii (list_ascii_of_string s)).

Arguments u s%_string.

Definition chr (a : ascii) : char := N_of_ascii a.
Arguments chr a%_char.

Definition NL : char := 10%N.          (* '\n' *)

Fixpoint str_eqb (a b : str) : bool :=
  match a, b with
  | [], [] => true
  | x :: a', y :: b' => (x =? y)%N && str_eqb a' b'
  | _, _ => false
  end.

Lemma str_eqb_spec a b : reflect (a = b) (str_eqb a b).
Proof.
  revert b; induction a as [|x a IH]; intros [|y b]; simpl;
    try (constructor; congruence).
  destruct (N.eqb_spec x y) as [->|Hn]; simpl.
  - destruct (IH b) as [->|Hn]; constructor; congruence.
  - constructor; congruence.
Qed.

Lemma str_eqb_refl a : str_eqb a a = true.
Proof. destruct (str_eqb_spec a a); congruence. Qed.

Definition str_eq_dec (a b : str) : {a = b} + {a <> b} :=
  list_eq_dec N.eq_dec a b.

(** [len(s)] *)
Definition len (s : str) : Z := Z.of_nat (List.length s).

(** [s.startswith(p)] *)
Fixpoint startswith (p s : str) : bool :=
  match p, s with
  | [], _ => true
  | x :: p', y :: s' => (x =? y)%N && startswith p' s'
  | _ :: _, [] => false
  end.

(** [sub in s] *)
Fixpoint contains (sub s : str) : bool :=
  startswith sub s ||
  match s with
  | [] => false
  | _ :: t => contains sub t
  end.

(** [s.find(sub)], [None] standing for -1. *)
Fixpoint find_from (sub s : str) (i : nat) : option nat :=
  if startswith sub s then Some i
  else match s with
       | [] => None
       | _ :: t => find_from sub t (S i)
       end.

Definition find (sub s : str) : option nat := find_from sub s 0.

(** [s.count(c)] for a one-character [c]. *)
Definition count (c : char) (s : str) : nat :=
  List.length (filter (N.eqb c) s).

(** [s.replace(old, new)] for one-character [old] and [new]. *)
Definition replace1 (old new : char) (s : str) : str :=
  map (fun c => if (c =? old)%N then new else c) s.

(** [sep.join(l)] *)
Fixpoint join (sep : str) (l : list str) : str :=
  match l with
  | [] => []
  | [x] => x
  | x :: l' => x ++ sep ++ join sep l'
  end.

(** [s.split(sep)] for a non-empty [sep]: the pieces between the
    non-overlapping occurrences of [sep], scanning from the left.
    [skip] counts the characters of a separator still to be passed. *)
Fixpoint split_go (sep s : str) (cur : str) (skip : nat) : list str :=
  match s with
  | [] => [rev cur]
  | c :: t =>
      match skip with
      | S k => split_go sep t cur k
      | O =>
          if startswith sep s
          then rev cur :: split_go sep t [] (List.length sep - 1)
          else split_go sep t (c :: cur) 0
      end
  end.

Definition split (sep s : str) : list str := split_go sep s [] 0.

(** [Py_UNICODE_ISSPACE]: the code points [str.strip], [str.isspace]
    and the regular expression class [\s] treat as white space. *)
Definition isspace (c : char) : bool :=
  ((9 <=? c) && (c <=? 13) || (28 <=? c) && (c <=? 32)
   || (c =? 133) || (c =? 160) || (c =? 5760)
   || (8192 <=? c) && (c <=? 8202)
   || (c =? 8232) || (c =? 8233) || (c =? 8239) || (c =? 8287)
   || (c =? 12288))%N.

Fixpoint lstrip (s : str) : str :=
  match s with
  | [] => []
  | c :: t => if isspace c then lstrip t else s
  end.

Definition rstrip (s : str) : str := rev (lstrip (rev s)).

(** [s.strip()] *)
Definition strip (s : str) : str := rstrip (lstrip s).

(** [str(n)] for a natural number. *)
Definition digit_char (d : nat) : char := (48 + N.of_nat d)%N.

Fixpoint digits_fuel (fuel n : nat) (acc : str) : str :=
  match fuel with
  | O => acc
  | S f =>
      let acc' := digit_char (n mod 10) :: acc in
      if (n / 10 =? 0)%nat then acc' else digits_fuel f (n / 10) acc'
  end.

Definition str_of_nat (n : nat) : str := digits_fuel (S n) n [].

Definition str_of_Z (z : Z) : str :=
  if (z <? 0)%Z then chr "-" :: str_of_nat (Z.to_nat (- z))
  else str_of_nat (Z.to_nat z).

(** ** Values

    What [json.loads] produces and the records carry: [None], booleans,
    integers, floats, strings, lists and string-keyed dictionaries
    (in insertion order). *)
Inductive value :=
| VNone
| VBool (b : bool)
| VInt (z : Z)
| VFloat (f : float)
| VStr (s : str)
| VList (l : list value)
| VDict (d : list (str * value)).

Definition dict := list (str * value).

(** What the interpreter brings with it: the Unicode character
    database for the code points above ASCII (the ASCII range is
    written out below), and [repr] of floats and containers.  These
    tables are the interpreter's and are taken as given. *)
Class Interp := {
  uni_decimal : char -> option N;   (* Py_UNICODE_TODECIMAL *)
  uni_isdigit : char -> bool;       (* Py_UNICODE_ISDIGIT *)
  uni_isalnum : char -> bool;       (* Py_UNICODE_ISALNUM *)
  uni_lower   : str -> str;         (* str.lower() *)
  py_repr     : value -> str;       (* repr() of a float, list or dict *)
  (* json.loads: the parsed value, or [None] for a JSONDecodeError *)
  json_loads  : str -> option value;
  (* sys.get_int_max_str_digits(): the longest digit string [int()]
     converts, if the interpreter sets a limit *)
  int_max_str_digits : option nat;
  (* the order in which a [set] of strings, filled in the given
     order, is iterated: some enumeration of its distinct elements *)
  set_iter    : list str -> list str;
  set_iter_perm : forall l, Permutation (set_iter l) (nodup str_eq_dec l)
}.

Definition is_ascii (c : char) : bool := (c <? 128)%N.

Section WithInterp.
Context {I : Interp}.

(** The decimal value of a character of category Nd: what [\d]
    matches and [int()] reads. *)
Definition decimal (c : char) : option N :=
  if is_ascii c
  then if ((48 <=? c) && (c <=? 57))%N then Some (c - 48)%N else None
  else uni_decimal c.

Definition isdecimal (c : char) : bool :=
  match decimal c with Some _ => true | None => false end.

Definition isdigit_char (c : char) : bool :=
  if is_ascii c then ((48 <=? c) && (c <=? 57))%N else uni_isdigit c.

(** [s.isdigit()] *)
Definition isdigit (s : str) : bool :=
  match s with [] => false | _ => forallb isdigit_char s end.

Definition isalnum (c : char) : bool :=
  if is_ascii c
  then ((48 <=? c) && (c <=? 57) || (65 <=? c) && (c <=? 90)
        || (97 <=? c) && (c <=? 122))%N
  else uni_isalnum c.

(** The regular expression class [\w]. *)
Definition isword (c : char) : bool := isalnum c || (c =? 95)%N.

Definition lower_ascii (c : char) : char :=
  if ((65 <=? c) && (c <=? 90))%N then (c + 32)%N else c.

(** [s.lower()] *)
Definition lower (s : str) : str :=
  if forallb is_ascii s then map lower_ascii s else uni_lower s.

(** The number a string of decimal digits writes. *)
Definition int_of_digits (s : str) : N :=
  fold_left (fun acc c =>
               match decimal c with
               | Some d => (acc * 10 + d)%N
               | None => acc
               end) s 0%N.

(** [int(s)] on a non-empty string of decimal digits: [None] stands
    for the ValueError of a string longer than the interpreter's
    limit. *)
Definition py_int (s : str) : option N :=
  match int_max_str_digits with
  | Some limit =>
      if (limit <? List.length s)%nat then None else Some (int_of_digits s)
  | None => Some (int_of_digits s)
  end.


(** ** Truth value, numbers, equality, [str()] *)

(** [bool(v)] *)
Definition truthy (v : value) : bool :=
  match v with
  | VNone => false
  | VBool b => b
  | VInt z => negb (z =? 0)%Z
  | VFloat f => negb (PrimFloat.eqb f 0%float)
  | VStr s => match s with [] => false | _ => true end
  | VList l => match l with [] => false | _ => true end
  | VDict d => match d with [] => false | _ => true end
  end.

Definition is_none (v : value) : bool :=
  match v with VNone => true | _ => false end.

(** [isinstance(v, (int, float))]; [bool] is a subclass of [int]. *)
Definition is_number (v : value) : bool :=
  match v with VBool _ | VInt _ | VFloat _ => true | _ => false end.

(** [isinstance(v, str)] *)
Definition is_str (v : value) : bool :=
  match v with VStr _ => true | _ => false end.

Inductive number := NInt (z : Z) | NFloat (f : float).

Definition as_number (v : value) : option number :=
  match v with
  | VBool b => Some (NInt (if b then 1 else 0))
  | VInt z => Some (NInt z)
  | VFloat f => Some (NFloat f)
  | _ => None
  end.

(** Integers and floats are compared by value, exactly; a NaN is
    unordered ([None]). *)
Definition cmp_int_float (z : Z) (f : float) : option comparison :=
  match Prim2SF f with
  | S754_nan => None
  | S754_infinity neg => Some (if neg then Gt else Lt)
  | S754_zero _ => Some (z ?= 0)%Z
  | S754_finite neg m e =>
      let v := if neg then Zneg m else Zpos m in
      Some (if (0 <=? e)%Z then (z ?= v * 2 ^ e)%Z
            else (z * 2 ^ (- e) ?= v)%Z)
  end.

Definition num_cmp (a b : number) : option comparison :=
  match a, b with
  | NInt x, NInt y => Some (x ?= y)%Z
  | NInt x, NFloat g => cmp_int_float x g
  | NFloat f, NInt y => option_map CompOpp (cmp_int_float y f)
  | NFloat f, NFloat g =>
      match PrimFloat.compare f g with
      | FEq => Some Eq
      | FLt => Some Lt
      | FGt => Some Gt
      | FNotComparable => None
      end
  end.

(** [a > b] on numbers *)
Definition num_gt (a b : number) : bool :=
  match num_cmp a b with Some Gt => true | _ => false end.

(** [d.get(k)]: [None] when the key is absent. *)
Fixpoint get {V : Type} (d : list (str * V)) (k : str) : option V :=
  match d with
  | [] => None
  | (k', v) :: d' => if str_eqb k' k then Some v else get d' k
  end.

(** [a == b] *)
Fixpoint py_eq (a b : value) : bool :=
  match a, b with
  | VNone, VNone => true
  | VStr s, VStr t => str_eqb s t
  | VList l, VList m =>
      (fix go (l m : list value) : bool :=
         match l, m with
         | [], [] => true
         | x :: l', y :: m' => py_eq x y && go l' m'
         | _, _ => false
         end) l m
  | VDict d, VDict e =>
      (List.length d =? List.length e)%nat &&
      (fix all (d : list (str * value)) : bool :=
         match d with
         | [] => true
         | (k, v) :: d' =>
             match get e k with
             | Some w => py_eq v w
             | None => false
             end && all d'
         end) d
  | _, _ =>
      match as_number a, as_number b with
      | Some x, Some y =>
          match num_cmp x y with Some Eq => true | _ => false end
      | _, _ => false
      end
  end.

(** [str(v)] *)
Definition py_str (v : value) : str :=
  match v with
  | VNone => u "None"
  | VBool true => u "True"
  | VBool false => u "False"
  | VInt z => str_of_Z z
  | VStr s => s
  | _ => py_repr v
  end.

(** ** Dictionaries *)

(** [k in d] *)
Definition has_key {V : Type} (d : list (str * V)) (k : str) : bool :=
  match get d k with Some _ => true | None => false end.

(** [d.get(k, default)] *)
Definition get_default (d : dict) (k : str) (default : value) : value :=
  match get d k with Some v => v | None => default end.

(** [d[k] = v]: an existing key keeps its place. *)
Fixpoint set {V : Type} (d : list (str * V)) (k : str) (v : V)
  : list (str * V) :=
  match d with
  | [] => [(k, v)]
  | (k', v') :: d' =>
      if str_eqb k' k then (k', v) :: d' else (k', v') :: set d' k v
  end.

(** [d.keys()] *)
Definition keys {V : Type} (d : list (str * V)) : list str := map fst d.

(** [s[:n]] and [s[n:]] around the longest prefix of characters
    satisfying [p]. *)
Fixpoint span (p : char -> bool) (s : str) : str * str :=
  match s with
  | [] => ([], [])
  | c :: t =>
      if p c then let (a, b) := span p t in (c :: a, b) else ([], s)
  end.

(** A slice bound [i] of a sequence of length [n], as the interpreter
    adjusts it: counted from the end when negative, then clipped. *)
Definition adjust (n i : Z) : Z :=
  let i := if (i <? 0)%Z then (i + n)%Z else i in
  if (i <? 0)%Z then 0%Z else if (n <? i)%Z then n else i.

(** [s[a:b]] *)
Definition slice (s : str) (a b : Z) : str :=
  let a' := adjust (len s) a in
  let b' := adjust (len s) b in
  firstn (Z.to_nat (b' - a')) (skipn (Z.to_nat a') s).

(** [s[a:]] *)
Definition slice_from (s : str) (a : Z) : str :=
  skipn (Z.to_nat (adjust (len s) a)) s.

(** [s.rfind(c, start, end)] for a one-character [c]: the highest
    index in the adjusted range at which [c] stands, or -1. *)
Fixpoint rfind_go (c : char) (s : str) (i b e found : Z) : Z :=
  match s with
  | [] => found
  | x :: t =>
      rfind_go c t (i + 1)%Z b e
        (if ((b <=? i)%Z && (i <? e)%Z && (x =? c)%N)%bool
         then i else found)
  end.

Definition rfind (c : char) (s : str) (start end_ : Z) : Z :=
  let n := len s in
  let e := if (n <? end_)%Z then n
           else if (end_ <? 0)%Z then Z.max 0 (end_ + n) else end_ in
  let b := if (start <? 0)%Z then Z.max 0 (start + n) else start in
  rfind_go c s 0 b e (-1).

(** The first result of [f] along [l]. *)
Fixpoint first_some {A B : Type} (f : A -> option B) (l : list A)
  : option B :=
  match l with
  | [] => None
  | x :: l' =>
      match f x with Some y => Some y | None => first_some f l' end
  end.

(** [NL.join(lines)] *)
Definition unlines (lines : list str) : str := join [NL] lines.

End WithInterp.

(** A table for the examples of this file: outside ASCII it knows the
    CJK unified ideographs U+4E00..U+9FFF (letters, neither digits nor
    cased) and treats every other code point as punctuation.  The
    examples print no float or container and, unless they say so,
    parse no JSON. *)
Definition cjk (c : char) : bool := ((19968 <=? c) && (c <=? 40959))%N.

#[export] Instance example_interp : Interp := {|
  uni_decimal := fun _ => None;
  uni_isdigit := fun _ => false;
  uni_isalnum := cjk;
  uni_lower := map lower_ascii;
  py_repr := fun _ => [];
  json_loads := fun _ => None;
  int_max_str_digits := Some 4300%nat;
  set_iter := nodup str_eq_dec;
  set_iter_perm := fun l => Permutation_refl _
|}.

(** The same tables with a JSON parser put in: the examples below give
    the parse of the few JSON texts they use. *)
Definition with_json (I : Interp) (loads : str -> option value) : Interp := {|
  uni_decimal := @uni_decimal I;
  uni_isdigit := @uni_isdigit I;
  uni_isalnum := @uni_isalnum I;
  uni_lower := @uni_lower I;
  py_repr := @py_repr I;
  json_loads := loads;
  int_max_str_digits := @int_max_str_digits I;
  set_iter := @set_iter I;
  set_iter_perm := @set_iter_perm I
|}.

(** ** Exceptions *)

Inductive exn :=
| TypeError (msg : str)
| ValueError (msg : str)
| OtherError (msg : str).

(** [str(e)] *)
Definition exn_str (e : exn) : str :=
  match e with TypeError m | ValueError m | OtherError m => m end.

Inductive result (A : Type) :=
| Ok (a : A)
| Raise (e : exn).
Arguments Ok {A} a.
Arguments Raise {A} e.

Definition bind {A B} (c : result A) (k : A -> result B) : result B :=
  match c with
  | Ok a => k a
  | Raise e => Raise e
  end.

End Py.

Import Py.
Notation "x <- c ;; k" := (bind c (fun x => k))
  (at level 61, c at next level, right associativity).

(** Facts on dictionaries. *)
Module DictFacts.

Lemma set_fresh {V : Type} (d : list (str * V)) (k : str) (v : V) :
  ~ In k (keys d) -> set d k v = d ++ [(k, v)].
Proof.
  induction d as [|[k' v'] d IH]; simpl; intros Hk; [reflexivity|].
  destruct (str_eqb_spec k' k) as [->|Hne].
  - exfalso; apply Hk; now left.
  - rewrite IH; [reflexivity|]. intros Hin; apply Hk; now right.
Qed.

Lemma get_set {V : Type} (d : list (str * V)) k v k' :
  get (set d k v) k' = if str_eqb k k' then Some v else get d k'.
Proof.
  induction d as [|[k0 v0] d IH]; simpl.
  - reflexivity.
  - destruct (str_eqb_spec k0 k) as [->|Hne]; simpl.
    + destruct (str_eqb k k'); reflexivity.
    + rewrite IH. destruct (str_eqb_spec k0 k') as [->|Hne'].
      * destruct (str_eqb_spec k k') as [->|]; [congruence|reflexivity].
      * reflexivity.
Qed.

(** Assigning to a key the value it has changes nothing, and only
    then. *)
Lemma set_same {V : Type} (d : list (str * V)) k v :
  set d k v = d <-> get d k = Some v.
Proof.
  split.
  - intros H. rewrite <- H, get_set. now rewrite str_eqb_refl.
  - induction d as [|[k0 v0] d IH]; simpl; [discriminate|].
    destruct (str_eqb_spec k0 k) as [->|Hne].
    + now intros [= ->].
    + intros H. now rewrite IH.
Qed.

End DictFacts.
Import DictFacts.

(** Facts on [strip], [split] and [in]. *)
Module StrFacts.

Lemma lstrip_app_nonspace a c r :
  isspace c = false -> lstrip (a ++ c :: r) = lstrip a ++ c :: r.
Proof.
  intros Hc. induction a as [|x a IH]; simpl.
  - now rewrite Hc.
  - destruct (isspace x); [exact IH|reflexivity].
Qed.

Lemma lstrip_idem s : lstrip (lstrip s) = lstrip s.
Proof.
  induction s as [|c s IH]; [reflexivity|]. simpl.
  destruct (isspace c) eqn:Hc; [exact IH|]. simpl. now rewrite Hc.
Qed.

Lemma lstrip_head s c t : lstrip s = c :: t -> isspace c = false.
Proof.
  induction s as [|x s IH]; simpl; [discriminate|].
  destruct (isspace x) eqn:Hx; [exact IH|]. now intros [= <- <-].
Qed.

Lemma lstrip_incl s c : In c (lstrip s) -> In c s.
Proof.
  induction s as [|x s IH]; simpl; [tauto|].
  destruct (isspace x); [|tauto]. intros H; right; now apply IH.
Qed.

Lemma rstrip_app_nonspace a c r :
  isspace c = false -> rstrip (a ++ c :: r) = a ++ c :: rstrip r.
Proof.
  intros Hc. unfold rstrip. rewrite rev_app_distr. simpl rev.
  rewrite <- app_assoc. simpl app.
  rewrite (lstrip_app_nonspace (rev r) c (rev a) Hc).
  rewrite rev_app_distr. simpl rev. rewrite rev_involutive.
  now rewrite <- app_assoc.
Qed.

Lemma rstrip_idem s : rstrip (rstrip s) = rstrip s.
Proof. unfold rstrip. now rewrite rev_involutive, lstrip_idem. Qed.

Lemma rstrip_last s t c : rstrip s = t ++ [c] -> isspace c = false.
Proof.
  unfold rstrip. intros H. apply (f_equal (@rev char)) in H.
  rewrite rev_involutive, rev_app_distr in H. simpl in H.
  exact (lstrip_head _ _ _ H).
Qed.

Lemma rstrip_incl s c : In c (rstrip s) -> In c s.
Proof.
  unfold rstrip. intros H. apply in_rev in H. apply lstrip_incl in H.
  now apply in_rev.
Qed.

Lemma lstrip_rstrip s : lstrip (rstrip (lstrip s)) = rstrip (lstrip s).
Proof.
  destruct (lstrip s) as [|c t] eqn:Hs; [reflexivity|].
  pose proof (lstrip_head _ _ _ Hs) as Hc.
  change (c :: t) with ([] ++ c :: t).
  rewrite (rstrip_app_nonspace [] c t Hc). simpl. now rewrite Hc.
Qed.

(** [strip] is idempotent. *)
Lemma strip_idem s : strip (strip s) = strip s.
Proof. unfold strip. now rewrite lstrip_rstrip, rstrip_idem. Qed.

Lemma strip_incl s c : In c (strip s) -> In c s.
Proof. unfold strip. intros H. now apply lstrip_incl, rstrip_incl. Qed.

(** A string without white space at either end. *)
Definition stripped (s : str) : Prop :=
  (forall c t, s = c :: t -> isspace c = false)
  /\ (forall c t, s = t ++ [c] -> isspace c = false).

Lemma stripped_strip s : stripped (strip s).
Proof.
  split; intros c t H.
  - pose proof (lstrip_rstrip s) as Hl. fold (strip s) in Hl.
    rewrite H in Hl. simpl in Hl.
    destruct (isspace c) eqn:Hc; [|reflexivity].
    rewrite <- Hc. exact (lstrip_head _ _ _ Hl).
  - exact (rstrip_last _ _ _ H).
Qed.

Lemma strip_fixed s : stripped s -> strip s = s.
Proof.
  intros [Hhead Hlast]. unfold strip.
  assert (Hl : lstrip s = s).
  { destruct s as [|c t]; [reflexivity|]. simpl.
    now rewrite (Hhead c t eq_refl). }
  rewrite Hl. unfold rstrip.
  destruct (rev s) as [|c t] eqn:Hr.
  - apply (f_equal (@rev char)) in Hr. rewrite rev_involutive in Hr.
    now rewrite Hr.
  - assert (Hs : s = rev t ++ [c]).
    { rewrite <- (rev_involutive s), Hr. reflexivity. }
    simpl. rewrite (Hlast c (rev t) Hs). simpl. now rewrite Hs.
Qed.

Lemma stripped_app a b :
  stripped a -> Forall (fun c => isspace c = false) b -> stripped (a ++ b).
Proof.
  intros [Hhead Hlast] Hb. split; intros c t H.
  - destruct a as [|x a].
    + simpl in H. subst b. now inversion Hb.
    + injection H as -> _. exact (Hhead c a eq_refl).
  - destruct b as [|y b0].
    + rewrite app_nil_r in H. exact (Hlast c t H).
    + destruct (@exists_last _ (y :: b0)) as (b' & z & Hb'); [discriminate|].
      rewrite Hb' in *. rewrite app_assoc in H. apply app_inj_tail in H as [_ ->].
      rewrite Forall_forall in Hb. apply Hb, in_or_app. right; now left.
Qed.

Lemma startswith_app p r : startswith p (p ++ r) = true.
Proof.
  induction p as [|x p IH]; [reflexivity|]. simpl.
  now rewrite N.eqb_refl, IH.
Qed.

Lemma contains_app p a r : contains p (a ++ p ++ r) = true.
Proof.
  induction a as [|x a IH]; simpl.
  - destruct (p ++ r) eqn:Hpr; simpl; rewrite <- ?Hpr, startswith_app;
      reflexivity.
  - rewrite IH. apply orb_true_r.
Qed.

Lemma in_contains_single c s : In c s -> contains [c] s = true.
Proof.
  induction s as [|x s IH]; simpl; [tauto|].
  intros [->|Hin].
  - now rewrite N.eqb_refl.
  - rewrite (IH Hin). apply orb_true_r.
Qed.

Lemma span_fst_all (f : char -> bool) s :
  Forall (fun c => f c = true) (fst (span f s)).
Proof.
  induction s as [|c s IH]; simpl; [constructor|].
  destruct (f c) eqn:Hc; [|constructor].
  destruct (span f s) as [a b]. simpl in *. now constructor.
Qed.

Lemma span_app (f : char -> bool) s :
  fst (span f s) ++ snd (span f s) = s.
Proof.
  induction s as [|c s IH]; simpl; [reflexivity|].
  destruct (f c); [|reflexivity].
  destruct (span f s) as [a b]. simpl in *. now rewrite IH.
Qed.

Lemma first_some_In {A B} (f : A -> option B) l y :
  first_some f l = Some y -> exists x, In x l /\ f x = Some y.
Proof.
  induction l as [|x l IH]; simpl; [discriminate|].
  destruct (f x) as [z|] eqn:Hx.
  - intros [= <-]. exists x. split; [now left|exact Hx].
  - intros H. destruct (IH H) as (x' & Hin & Hx').
    exists x'. split; [now right|exact Hx'].
Qed.

End StrFacts.
Import StrFacts.


(* ================================================================== *)
(** * [src/artifact_merger.py]: ArtifactMerger                         *)
(* ================================================================== *)

Module ArtifactMerger.
Section Merger.
Context {I : Interp}.

(** [grouped = defaultdict(list)]: the groups in the order their keys
    were first seen.  A key is looked up by [==]. *)
Definition groups := list (value * list dict).

Fixpoint group_append (g : groups) (key : value) (a : dict) : groups :=
  match g with
  | [] => [(key, [a])]
  | (k, grp) :: g' =>
      if py_eq k key then (k, grp ++ [a]) :: g'
      else (k, grp) :: group_append g' key a
  end.

(** Lists and dictionaries are unhashable: indexing [grouped] with one
    raises [TypeError]. *)
Definition hashable (v : value) : bool :=
  match v with VList _ | VDict _ => false | _ => true end.

(** The grouping loop shared by [merge_artifacts],
    [merge_with_confidence] and [detect_conflicts]:
      [key = artifact.get(key_field); if key: grouped[key].append(artifact)] *)
Fixpoint group_by (key_field : str) (l : list dict) (g : groups)
  : result groups :=
  match l with
  | [] => Ok g
  | artifact :: l' =>
      match get artifact key_field with
      | Some key =>
          if truthy key then
            if hashable key
            then group_by key_field l' (group_append g key artifact)
            else Raise (TypeError (u "unhashable type"))
          else group_by key_field l' g
      | None => group_by key_field l' g
      end
  end.

(** [all_fields = set(); for artifact in group:
     all_fields.update(artifact.keys())], as it is iterated. *)
Definition all_fields (group : list dict) : list str :=
  set_iter (List.concat (map keys group)).

(** [[artifact.get(field) for artifact in group
      if artifact.get(field) is not None]] *)
Definition field_values (field : str) (group : list dict) : list value :=
  List.concat (map (fun artifact =>
                 match get artifact field with
                 | Some v => if is_none v then [] else [v]
                 | None => []
                 end) group).

(** [unique_values]: the values in order, without those [==] to an
    earlier one.  (A NaN is unequal to every value; that the
    interpreter finds an object in a list by identity first is not
    modelled.) *)
Fixpoint dedup_go (seen : list value) (l : list value) : list value :=
  match l with
  | [] => seen
  | v :: l' =>
      if existsb (fun w => py_eq w v) seen then dedup_go seen l'
      else dedup_go (seen ++ [v]) l'
  end.

Definition dedup (l : list value) : list value := dedup_go [] l.

(** [max(l)] on numbers: the first of the greatest. *)
Definition max_number (first : value) (rest : list value) : value :=
  fold_left (fun m x =>
               match as_number x, as_number m with
               | Some nx, Some nm => if num_gt nx nm then x else m
               | _, _ => m
               end) rest first.

(** [max(l, key=len)] on strings: the first of the longest. *)
Definition max_by_len (first : str) (rest : list str) : str :=
  fold_left (fun m x =>
               if (List.length m <? List.length x)%nat then x else m)
            rest first.

Definition descriptive_keywords : list str :=
  [u "description"; u "features"; u "characteristics";
   u "特征"; u "描述"; u "说明"].

Definition separator : str := u " | ".

Definition as_str (v : value) : str :=
  match v with VStr s => s | _ => [] end.

(** [_merge_field_values(field_name, values)] *)
Definition _merge_field_values (field_name : str) (values : list value)
  : value :=
  let unique_values := dedup values in
  match unique_values with
  | [] => VNone                       (* not reached: [values] is non-empty *)
  | [v] => v
  | v :: rest =>
      if forallb is_number unique_values then max_number v rest
      else if forallb is_str unique_values then
        if existsb (fun keyword => contains keyword (lower field_name))
                   descriptive_keywords
        then VStr (join separator (map as_str unique_values))
        else VStr (max_by_len (as_str v) (map as_str rest))
      else VStr (join separator (map py_str unique_values))
  end.

(** [_merge_group(group, key_field)] *)
Definition _merge_group (group : list dict) (key_field : str) : dict :=
  fold_left (fun merged field =>
               let values := field_values field group in
               match values with
               | [] => set merged field VNone
               | [v] => set merged field v
               | _ => set merged field (_merge_field_values field values)
               end)
            (all_fields group) [].

(** [merge_artifacts(artifact_list, key_field)] *)
Definition merge_artifacts (artifact_list : list dict) (key_field : str)
  : result (list dict) :=
  match artifact_list with
  | [] => Ok []
  | _ =>
      grouped <- group_by key_field artifact_list [] ;;
      Ok (map (fun kg : value * list dict =>
                 match snd kg with
                 | [a] => a
                 | group => _merge_group group key_field
                 end) grouped)
  end.

(** One entry of a conflict report:
    [{'field': field, 'values': values, 'count': len(values)}] *)
Record field_conflict := {
  field : str;
  values : list value;
  count : nat
}.

(** [{'artifact_code': key, 'conflicts': group_conflicts}] *)
Record conflict_report := {
  artifact_code : value;
  conflicts : list field_conflict
}.

(** [_detect_group_conflicts(key, group)] *)
Definition _detect_group_conflicts (key : value) (group : list dict)
  : list field_conflict :=
  List.concat (map (fun f =>
                 let vs := field_values f group in
                 if (1 <? List.length vs)%nat then
                   let unique_values := nodup str_eq_dec (map py_str vs) in
                   if (1 <? List.length unique_values)%nat
                   then [{| field := f; values := vs;
                            count := List.length vs |}]
                   else []
                 else [])
              (all_fields group)).

(** [detect_conflicts(artifact_list, key_field)] *)
Definition detect_conflicts (artifact_list : list dict) (key_field : str)
  : result (list conflict_report) :=
  grouped <- group_by key_field artifact_list [] ;;
  Ok (List.concat (map (fun kg : value * list dict =>
                     let (key, group) := kg in
                     if (1 <? List.length group)%nat then
                       match _detect_group_conflicts key group with
                       | [] => []
                       | gc => [{| artifact_code := key; conflicts := gc |}]
                       end
                     else [])
                  grouped)).

End Merger.

(** The two partial records of the scenario. *)
Definition scenario : list dict :=
  [ [(u "artifact_code", VStr (u "M12:1")); (u "color", VStr (u "红"))];
    [(u "artifact_code", VStr (u "M12:1")); (u "color", VStr (u "红褐"))] ].

Lemma perm_pair_inv (a b : str) (l : list str) :
  Permutation l [a; b] -> l = [a; b] \/ l = [b; a].
Proof.
  intros Hp. apply Permutation_sym in Hp.
  now apply Permutation_length_2_inv in Hp.
Qed.

(** Whatever the iteration order of the set of field names, the two
    fields of the scenario are visited once each. *)
Lemma scenario_fields {I : Interp} :
  all_fields scenario = [u "artifact_code"; u "color"] \/
  all_fields scenario = [u "color"; u "artifact_code"].
Proof.
  unfold all_fields. apply perm_pair_inv.
  etransitivity; [apply set_iter_perm|].
  vm_compute. apply Permutation_refl.
Qed.

Section OneGroup.
Context {I : Interp}.
Variables (l : list dict) (key_field : str) (k : value) (g : list dict).
Hypothesis grouped : group_by key_field l [] = Ok [(k, g)].
Hypothesis several : (1 <? List.length g)%nat = true.

Lemma detect_conflicts_one_group c cs :
  _detect_group_conflicts k g = c :: cs ->
  detect_conflicts l key_field
  = Ok [ {| artifact_code := k; conflicts := c :: cs |} ].
Proof.
  intros Hc. unfold detect_conflicts. rewrite grouped. simpl.
  now rewrite several, Hc.
Qed.

Lemma merge_artifacts_one_group :
  merge_artifacts l key_field = Ok [_merge_group g key_field].
Proof.
  unfold merge_artifacts. destruct l as [|a l'] eqn:El.
  - discriminate grouped.
  - rewrite grouped. simpl.
    destruct g as [|x [|y g']]; try discriminate several. reflexivity.
Qed.

End OneGroup.

Lemma scenario_grouped {I : Interp} :
  group_by (u "artifact_code") scenario []
  = Ok [(VStr (u "M12:1"), scenario)].
Proof. reflexivity. Qed.

(** C4. On the two records for M12:1 with colours 红 and 红褐,
    [detect_conflicts] reports exactly one conflict, on the field
    [color], with the 2 values; [merge_artifacts] returns a single
    record, whose [color] is the longer string 红褐 (and whose
    [artifact_code] is M12:1). *)
Theorem merge_conflict_scenario {I : Interp} :
  detect_conflicts scenario (u "artifact_code")
  = Ok [ {| artifact_code := VStr (u "M12:1");
            conflicts := [ {| field := u "color";
                              values := [VStr (u "红"); VStr (u "红褐")];
                              count := 2 |} ] |} ]
  /\ exists r : dict,
       merge_artifacts scenario (u "artifact_code") = Ok [r]
       /\ get r (u "color") = Some (VStr (u "红褐"))
       /\ get r (u "artifact_code") = Some (VStr (u "M12:1"))
       /\ List.length r = 2%nat.
Proof.
  split.
  - apply (detect_conflicts_one_group _ _ _ _ scenario_grouped eq_refl).
    unfold _detect_group_conflicts.
    destruct scenario_fields as [-> | ->]; reflexivity.
  - rewrite (merge_artifacts_one_group _ _ _ _ scenario_grouped eq_refl).
    eexists; split; [reflexivity|].
    unfold _merge_group.
    destruct scenario_fields as [-> | ->]; repeat split; reflexivity.
Qed.

(** ** Further properties of the merger *)

Section MergerProperties.
Context {I : Interp}.

(** [if key:] of the grouping loop. *)
Definition keyed (key_field : str) (artifact : dict) : bool :=
  match get artifact key_field with
  | Some key => truthy key
  | None => false
  end.

Lemma group_by_keyed key_field l : forall g,
  group_by key_field l g = group_by key_field (filter (keyed key_field) l) g.
Proof.
  induction l as [|a l IH]; intros g; [reflexivity|].
  simpl. unfold keyed at 1.
  destruct (get a key_field) as [key|] eqn:Hget; [|apply IH].
  destruct (truthy key) eqn:Ht; [|apply IH].
  simpl. rewrite Hget, Ht. destruct (hashable key); [apply IH|reflexivity].
Qed.

(** A record without a usable key takes no part in the merge: it is in
    no group and in no output record. *)
Theorem unkeyed_records_are_dropped l key_field :
  merge_artifacts l key_field
  = merge_artifacts (filter (keyed key_field) l) key_field.
Proof.
  unfold merge_artifacts. destruct l as [|a l]; [reflexivity|].
  rewrite (group_by_keyed key_field (a :: l) []).
  destruct (filter (keyed key_field) (a :: l)); reflexivity.
Qed.

Lemma group_append_fresh (g : groups) s a :
  Forall (fun kg => exists t, fst kg = VStr t /\ t <> s) g ->
  group_append g (VStr s) a = g ++ [(VStr s, [a])].
Proof.
  induction 1 as [|[k grp] g (t & Hk & Hne) _ IH]; [reflexivity|].
  simpl in *. subst k. simpl.
  destruct (str_eqb_spec t s) as [->|_]; [congruence|]. now rewrite IH.
Qed.

Lemma group_by_distinct key_field : forall l ks (g : groups) gs,
  Forall2 (fun a s => get a key_field = Some (VStr s) /\ s <> []) l ks ->
  NoDup (gs ++ ks) ->
  Forall (fun kg => exists t, fst kg = VStr t /\ In t gs) g ->
  group_by key_field l g
  = Ok (g ++ map (fun p => (VStr (fst p), [snd p])) (combine ks l)).
Proof.
  induction l as [|a l IH]; intros ks g gs Hl Hnd Hg;
    inversion Hl as [|? s ? ks' [Hget Hne] Hl']; subst; simpl.
  - now rewrite app_nil_r.
  - rewrite Hget. destruct s as [|c s]; [congruence|]. simpl.
    rewrite group_append_fresh.
    + rewrite (IH ks' _ (gs ++ [c :: s])).
      * now rewrite <- app_assoc.
      * exact Hl'.
      * now rewrite <- app_assoc.
      * apply Forall_app; split.
        -- eapply Forall_impl; [|exact Hg].
           intros kg (t & Hk & Hin). exists t. split; [exact Hk|].
           apply in_or_app; now left.
        -- constructor; [|constructor]. exists (c :: s). split; [reflexivity|].
           apply in_or_app; right; now left.
    + eapply Forall_impl; [|exact Hg].
      intros kg (t & Hk & Hin). exists t. split; [exact Hk|].
      intros ->. apply NoDup_remove_2 in Hnd. apply Hnd.
      apply in_or_app; now left.
Qed.

(** Records whose codes are non-empty strings, no two the same, come
    out of the merge as they went in, in the same order. *)
Theorem distinct_codes_pass_unchanged l key_field ks :
  Forall2 (fun a s => get a key_field = Some (VStr s) /\ s <> []) l ks ->
  NoDup ks ->
  merge_artifacts l key_field = Ok l.
Proof.
  intros Hl Hnd. unfold merge_artifacts. destruct l as [|a l]; [reflexivity|].
  rewrite (group_by_distinct key_field (a :: l) ks [] []);
    [|exact Hl|exact Hnd|constructor].
  simpl app. unfold bind. f_equal. rewrite map_map.
  clear Hnd. revert Hl. generalize (a :: l) as l0. clear a l.
  intros l0; revert ks; induction l0 as [|a l IH]; intros ks Hl;
    inversion Hl; subst; simpl; [reflexivity|].
  f_equal. now apply IH.
Qed.

(** The value [_merge_group] gives a field. *)
Definition merged_value (field : str) (group : list dict) : value :=
  match field_values field group with
  | [] => VNone
  | [v] => v
  | vs => _merge_field_values field vs
  end.

Lemma has_key_keys {V} (d : list (str * V)) f :
  has_key d f = true <-> In f (keys d).
Proof.
  unfold has_key. induction d as [|[k v] d IH]; simpl.
  - split; [discriminate|tauto].
  - destruct (str_eqb_spec k f) as [->|Hne].
    + split; [now left|reflexivity].
    + rewrite IH. split; [now right|]. intros [H|H]; [congruence|exact H].
Qed.

Lemma fold_set_get {V} (h : str -> V) fs : forall (d : list (str * V)) f,
  get (fold_left (fun m x => set m x (h x)) fs d) f
  = if in_dec str_eq_dec f fs then Some (h f) else get d f.
Proof.
  induction fs as [|x fs IH]; intros d f; [reflexivity|].
  simpl fold_left. rewrite IH, get_set.
  destruct (in_dec str_eq_dec f fs) as [Hin|Hnin];
    destruct (in_dec str_eq_dec f (x :: fs)) as [Hin'|Hnin'];
    try reflexivity.
  - exfalso; apply Hnin'; now right.
  - destruct Hin' as [->|Hin']; [|contradiction].
    now rewrite str_eqb_refl.
  - destruct (str_eqb_spec x f) as [->|_]; [|reflexivity].
    exfalso; apply Hnin'; now left.
Qed.

Lemma in_all_fields group f :
  In f (all_fields group) <-> existsb (fun a => has_key a f) group = true.
Proof.
  unfold all_fields.
  rewrite (Permutation_in' (eq_refl f) (set_iter_perm _)), nodup_In.
  rewrite in_concat, existsb_exists. split.
  - intros (ks & Hks & Hf). apply in_map_iff in Hks as (a & <- & Ha).
    exists a. split; [exact Ha|]. now apply has_key_keys.
  - intros (a & Ha & Hf). exists (keys a). split.
    + now apply in_map.
    + now apply has_key_keys.
Qed.

Lemma fold_left_pointwise {A B} (f g : A -> B -> A) (l : list B) :
  (forall a b, f a b = g a b) ->
  forall a, fold_left f l a = fold_left g l a.
Proof.
  intros Hfg. induction l as [|b l IH]; intros a; [reflexivity|].
  simpl. now rewrite Hfg, IH.
Qed.

(** The merged record, field by field. *)
Lemma merge_group_get group key_field f :
  get (_merge_group group key_field) f
  = if existsb (fun a => has_key a f) group
    then Some (merged_value f group) else None.
Proof.
  unfold _merge_group.
  rewrite (fold_left_pointwise _ (fun m x => set m x (merged_value x group))).
  - rewrite fold_set_get.
    destruct (in_dec str_eq_dec f (all_fields group)) as [Hin|Hnin].
    + apply in_all_fields in Hin. now rewrite Hin.
    + destruct (existsb (fun a => has_key a f) group) eqn:He; [|reflexivity].
      exfalso; apply Hnin. now apply in_all_fields.
  - intros m x. unfold merged_value.
    destruct (field_values x group) as [|v [|w vs]]; reflexivity.
Qed.

(** The merged record of a group has the fields of its records, all
    of them and no other. *)
Theorem merged_record_has_every_field group key_field f :
  has_key (_merge_group group key_field) f
  = existsb (fun a => has_key a f) group.
Proof.
  unfold has_key at 1. rewrite merge_group_get.
  destruct (existsb (fun a => has_key a f) group); reflexivity.
Qed.

Lemma field_values_has_key f group v vs :
  field_values f group = v :: vs ->
  existsb (fun a => has_key a f) group = true.
Proof.
  unfold field_values. induction group as [|a group IH]; simpl; [discriminate|].
  unfold has_key at 1.
  destruct (get a f) as [w|]; [reflexivity|]. simpl. exact IH.
Qed.

Lemma dedup_go_agree v : forall vs seen,
  Forall (fun w => py_eq v w = true) vs ->
  dedup_go (v :: seen) vs = v :: seen.
Proof.
  induction vs as [|w vs IH]; intros seen Hvs; [reflexivity|].
  inversion Hvs as [|? ? Hw Hvs']; subst. simpl. rewrite Hw. simpl.
  now apply IH.
Qed.

(** A field for which the records of a group give one value, once or
    several times, has that value in the merged record, whatever the
    other fields hold. *)
Theorem agreed_value_survives group key_field f v vs :
  field_values f group = v :: vs ->
  Forall (fun w => py_eq v w = true) vs ->
  get (_merge_group group key_field) f = Some v.
Proof.
  intros Hvals Hagree. rewrite merge_group_get.
  rewrite (field_values_has_key f group v vs Hvals).
  unfold merged_value. rewrite Hvals.
  destruct vs as [|w vs]; [reflexivity|].
  unfold _merge_field_values.
  change (dedup (v :: w :: vs)) with (dedup_go [v] (w :: vs)).
  now rewrite (dedup_go_agree v (w :: vs) []).
Qed.

(** What [unique_values] holds: values of the list, and every value of
    the list when [==] is equality on them. *)
Lemma dedup_go_incl l : forall seen x,
  In x (dedup_go seen l) -> In x seen \/ In x l.
Proof.
  induction l as [|v l IH]; intros seen x Hx; simpl in *; [now left|].
  destruct (existsb _ seen).
  - destruct (IH _ _ Hx); [now left|right; now right].
  - destruct (IH _ _ Hx) as [H|H]; [|right; now right].
    apply in_app_or in H as [H|[<-|[]]]; [now left|right; now left].
Qed.

Lemma dedup_go_seen l : forall seen x, In x seen -> In x (dedup_go seen l).
Proof.
  induction l as [|v l IH]; intros seen x Hx; simpl; [exact Hx|].
  destruct (existsb _ seen); apply IH; [exact Hx|].
  apply in_or_app; now left.
Qed.

Lemma dedup_go_complete (P : value -> Prop) :
  (forall x y, P x -> P y -> py_eq y x = true -> y = x) ->
  forall l seen x,
    Forall P l -> Forall P seen -> In x l -> In x (dedup_go seen l).
Proof.
  intros HP. induction l as [|v l IH]; intros seen x Hl Hseen Hx;
    [destruct Hx|].
  inversion Hl as [|? ? Hv Hl']; subst. simpl.
  destruct (existsb (fun w => py_eq w v) seen) eqn:He.
  - destruct Hx as [<-|Hx]; [|now apply IH].
    apply existsb_exists in He as (y & Hy & Heq).
    rewrite Forall_forall in Hseen.
    rewrite <- (HP v y Hv (Hseen y Hy) Heq). now apply dedup_go_seen.
  - destruct Hx as [<-|Hx].
    + apply dedup_go_seen, in_or_app. right; now left.
    + apply IH; [exact Hl'| |exact Hx].
      apply Forall_app; split; [exact Hseen|now constructor].
Qed.

Lemma dedup_spec (P : value -> Prop) l :
  (forall x y, P x -> P y -> py_eq y x = true -> y = x) ->
  Forall P l -> forall x, In x (dedup l) <-> In x l.
Proof.
  intros HP Hl x. unfold dedup. split.
  - intros Hx. now destruct (dedup_go_incl _ _ _ Hx).
  - apply (dedup_go_complete P HP); [exact Hl|constructor].
Qed.

Lemma max_by_len_spec rest : forall first,
  In (max_by_len first rest) (first :: rest)
  /\ forall x, In x (first :: rest) ->
               (List.length x <= List.length (max_by_len first rest))%nat.
Proof.
  induction rest as [|y rest IH]; intros first.
  - split; [now left|]. intros x [<-|[]]. unfold max_by_len; simpl. lia.
  - change (max_by_len first (y :: rest))
      with (max_by_len (if (List.length first <? List.length y)%nat
                        then y else first) rest).
    destruct (IH (if (List.length first <? List.length y)%nat
                  then y else first)) as [Hin Hmax].
    clear IH.
    remember (max_by_len (if (List.length first <? List.length y)%nat
                          then y else first) rest) as m eqn:Hm.
    clear Hm. split.
    + destruct Hin as [Hin|Hin]; [|right; now right].
      rewrite <- Hin.
      destruct (List.length first <? List.length y)%nat;
        [right; now left|now left].
    + intros x [<-|[<-|Hx]].
      * etransitivity; [|apply Hmax; now left].
        destruct (Nat.ltb_spec (List.length first) (List.length y)); lia.
      * etransitivity; [|apply Hmax; now left].
        destruct (Nat.ltb_spec (List.length first) (List.length y)); lia.
      * apply Hmax. now right.
Qed.

Lemma py_eq_str x y :
  is_str x = true -> is_str y = true -> py_eq y x = true -> y = x.
Proof.
  intros Hx Hy. destruct x; try discriminate Hx.
  destruct y; try discriminate Hy. simpl. intros H.
  match type of H with
  | str_eqb ?a ?b = true =>
      destruct (str_eqb_spec a b) as [->|]; [reflexivity|discriminate]
  end.
Qed.

Lemma is_str_as_str v : is_str v = true -> v = VStr (as_str v).
Proof. destruct v; try discriminate. reflexivity. Qed.

(** Of several texts given for a field that is not a descriptive one,
    the merged value is one of them, and none of them is longer. *)
Theorem longest_text_wins field_name vs :
  vs <> [] ->
  Forall (fun v => is_str v = true) vs ->
  existsb (fun keyword => contains keyword (lower field_name))
          descriptive_keywords = false ->
  exists s, _merge_field_values field_name vs = VStr s
            /\ In (VStr s) vs
            /\ forall t, In (VStr t) vs -> (List.length t <= List.length s)%nat.
Proof.
  intros Hne Hstr Hplain.
  pose proof (dedup_spec _ vs py_eq_str Hstr) as Hd.
  assert (Hu : Forall (fun v => is_str v = true) (dedup vs)).
  { apply Forall_forall. intros x Hx. rewrite Forall_forall in Hstr.
    apply Hstr. now apply Hd. }
  unfold _merge_field_values.
  destruct (dedup vs) as [|v [|w rest]] eqn:Hu'.
  - destruct vs as [|x vs]; [congruence|].
    destruct (proj2 (Hd x) (or_introl eq_refl)).
  - inversion Hu as [|? ? Hv _]; subst. exists (as_str v).
    rewrite <- (is_str_as_str v Hv). split; [reflexivity|]. split.
    + apply Hd. now left.
    + intros t Ht. apply Hd in Ht. destruct Ht as [Ht|[]].
      rewrite Ht. simpl. lia.
  - inversion Hu as [|? ? Hv Hu2]; subst.
    assert (Hnum : forallb is_number (v :: w :: rest) = false).
    { simpl. destruct v; try discriminate. reflexivity. }
    assert (Hall : forallb is_str (v :: w :: rest) = true).
    { apply forallb_forall. now apply Forall_forall. }
    rewrite Hnum, Hall, Hplain.
    destruct (max_by_len_spec (map as_str (w :: rest)) (as_str v))
      as [Hin Hmax].
    eexists. split; [reflexivity|]. split.
    + change (as_str v :: map as_str (w :: rest))
        with (map as_str (v :: w :: rest)) in Hin.
      apply in_map_iff in Hin as (x & Hx & Hin).
      rewrite <- Hx. rewrite Forall_forall in Hu.
      rewrite <- (is_str_as_str x (Hu x Hin)). now apply Hd.
    + intros t Ht. apply Hd in Ht. apply Hmax.
      change (as_str v :: map as_str (w :: rest))
        with (map as_str (v :: w :: rest)).
      change t with (as_str (VStr t)). now apply in_map.
Qed.

Definition int_of (v : value) : Z :=
  match v with VInt z => z | _ => 0%Z end.

Lemma py_eq_int x y :
  (exists a, x = VInt a) -> (exists b, y = VInt b) ->
  py_eq y x = true -> y = x.
Proof.
  intros [a ->] [b ->]. simpl.
  destruct (Z.compare_spec b a) as [->| |]; [reflexivity|discriminate..].
Qed.

Lemma all_int_map l :
  Forall (fun v => exists z, v = VInt z) l -> l = map VInt (map int_of l).
Proof.
  induction 1 as [|v l [z ->] _ IH]; [reflexivity|].
  simpl. now rewrite <- IH.
Qed.

Lemma in_map_VInt z zs : In (VInt z) (map VInt zs) <-> In z zs.
Proof.
  rewrite in_map_iff. split.
  - now intros (z' & [= ->] & Hin).
  - intros Hin. now exists z.
Qed.

Lemma max_number_spec rest : forall first,
  exists m, max_number (VInt first) (map VInt rest) = VInt m
            /\ In m (first :: rest)
            /\ forall z, In z (first :: rest) -> (z <= m)%Z.
Proof.
  induction rest as [|y rest IH]; intros first.
  - exists first. split; [reflexivity|]. split; [now left|].
    intros z [<-|[]]. lia.
  - change (max_number (VInt first) (map VInt (y :: rest)))
      with (max_number (if num_gt (NInt y) (NInt first)
                        then VInt y else VInt first) (map VInt rest)).
    assert (Hstep : (if num_gt (NInt y) (NInt first)
                     then VInt y else VInt first)
                    = VInt (Z.max first y)).
    { unfold num_gt, num_cmp.
      destruct (Z.compare_spec y first); f_equal; lia. }
    rewrite Hstep. destruct (IH (Z.max first y)) as (m & Hm & Hin & Hmax).
    exists m. split; [exact Hm|]. split.
    + destruct Hin as [Hin|Hin]; [|right; now right].
      destruct (Z.max_spec first y) as [[_ Hy]|[_ Hy]]; rewrite Hy in Hin;
        [right; now left|now left].
    + intros z [<-|[<-|Hz]].
      * specialize (Hmax _ (or_introl eq_refl)). lia.
      * specialize (Hmax _ (or_introl eq_refl)). lia.
      * apply Hmax. now right.
Qed.

(** Of several integers given for a field, the merged value is the
    largest. *)
Theorem largest_number_wins field_name zs :
  zs <> [] ->
  exists m, _merge_field_values field_name (map VInt zs) = VInt m
            /\ In m zs
            /\ forall z, In z zs -> (z <= m)%Z.
Proof.
  intros Hne.
  assert (Hints : Forall (fun v => exists z, v = VInt z) (map VInt zs)).
  { apply Forall_forall. intros x Hx.
    apply in_map_iff in Hx as (z & <- & _). now exists z. }
  pose proof (dedup_spec _ (map VInt zs) py_eq_int Hints) as Hd.
  assert (Hu : Forall (fun v => exists z, v = VInt z) (dedup (map VInt zs))).
  { apply Forall_forall. intros x Hx. rewrite Forall_forall in Hints.
    apply Hints. now apply Hd. }
  unfold _merge_field_values. apply all_int_map in Hu.
  destruct (map int_of (dedup (map VInt zs))) as [|a [|b us]];
    rewrite Hu in *; clear Hu.
  - destruct zs as [|z zs]; [congruence|].
    destruct (proj2 (Hd (VInt z)) (or_introl eq_refl)).
  - exists a. split; [reflexivity|]. split.
    + apply in_map_VInt, Hd. now left.
    + intros z Hz. apply in_map_VInt, Hd in Hz.
      destruct Hz as [[= ->]|[]]. lia.
  - assert (Hnum : forallb is_number (map VInt (a :: b :: us)) = true).
    { apply forallb_forall. intros x Hx.
      apply in_map_iff in Hx as (z & <- & _). reflexivity. }
    rewrite Hnum.
    destruct (max_number_spec (b :: us) a) as (m & Hm & Hin & Hmax).
    exists m. split; [exact Hm|]. split.
    + apply in_map_VInt, Hd, in_map_VInt. exact Hin.
    + intros z Hz. apply in_map_VInt, Hd, in_map_VInt in Hz.
      now apply Hmax.
Qed.

End MergerProperties.

(** Two records with different codes, and two partial records of one
    artifact that agree on its colour. *)
Definition two_codes : list dict :=
  [ [(u "artifact_code", VStr (u "M1:1")); (u "color", VStr (u "红"))];
    [(u "artifact_code", VStr (u "M1:2"))] ].

Definition agreeing : list dict :=
  [ [(u "artifact_code", VStr (u "M12:1")); (u "color", VStr (u "红"))];
    [(u "artifact_code", VStr (u "M12:1")); (u "color", VStr (u "红"));
     (u "height", VInt 15)] ].

Lemma distinct_codes_pass_unchanged_witness :
  merge_artifacts two_codes (u "artifact_code") = Ok two_codes.
Proof.
  apply (distinct_codes_pass_unchanged two_codes (u "artifact_code")
           [u "M1:1"; u "M1:2"]).
  - repeat constructor; intros H; vm_compute in H; discriminate H.
  - repeat constructor; vm_compute; intuition discriminate.
Defined.

Lemma agreed_value_survives_witness :
  get (_merge_group agreeing (u "artifact_code")) (u "color")
  = Some (VStr (u "红")).
Proof.
  apply (agreed_value_survives agreeing (u "artifact_code") (u "color")
           (VStr (u "红")) [VStr (u "红")]).
  - reflexivity.
  - repeat constructor.
Defined.

Lemma longest_text_wins_witness :
  exists s, _merge_field_values (u "color") [VStr (u "红"); VStr (u "红褐")]
            = VStr s
            /\ In (VStr s) [VStr (u "红"); VStr (u "红褐")]
            /\ forall t, In (VStr t) [VStr (u "红"); VStr (u "红褐")] ->
                         (List.length t <= List.length s)%nat.
Proof.
  apply (longest_text_wins (u "color") [VStr (u "红"); VStr (u "红褐")]).
  - discriminate.
  - repeat constructor.
  - reflexivity.
Defined.

Lemma largest_number_wins_witness :
  exists m, _merge_field_values (u "height") (map VInt [15; 18; 15]%Z)
            = VInt m
            /\ In m [15; 18; 15]%Z
            /\ forall z, In z [15; 18; 15]%Z -> (z <= m)%Z.
Proof.
  apply (largest_number_wins (u "height") [15; 18; 15]%Z). discriminate.
Defined.

End ArtifactMerger.

(* ================================================================== *)
(** * [src/content_extractor.py]: split_by_tomb                        *)
(* ================================================================== *)

Module ContentExtractor.
Section Segmenter.
Context {I : Interp}.

(** The leading [#{1,3}] of the three heading patterns.  Each pattern
    continues with a character that is not [#], so the run of [#] at
    the start of the line is matched whole, and must be 1 to 3 long. *)
Definition hashes (line : str) : option str :=
  let (run, rest) := span (N.eqb (chr "#")) line in
  if ((1 <=? List.length run) && (List.length run <=? 3))%nat
  then Some rest else None.

(** The alternatives of [(一|二|三|四|五|六|七|八|九|十|十一|十二)], in
    the order the pattern tries them. *)
Definition numerals : list str :=
  [u "一"; u "二"; u "三"; u "四"; u "五"; u "六"; u "七"; u "八";
   u "九"; u "十"; u "十一"; u "十二"].

(** [(一|...|十二)号墓] at the start of [s]: group 1 of the first
    alternative after which [号墓] follows. *)
Definition numeral_tomb (s : str) : option str :=
  List.find (fun n => startswith (n ++ u "号墓") s) numerals.

(** The class [[一二三四五六七八九十]]. *)
Definition is_numeral_char (c : char) : bool :=
  existsb (N.eqb c) (u "一二三四五六七八九十").

(** [第[一二三四五六七八九十]+节\s+] at the start of [s]: what follows. *)
Definition section_prefix (s : str) : option str :=
  match s with
  | c :: s1 =>
      if (c =? 31532)%N then                        (* 第 *)
        let (run, s2) := span is_numeral_char s1 in
        match run, s2 with
        | _ :: _, c2 :: s3 =>
            if (c2 =? 33410)%N then                   (* 节 *)
              let (ws, s4) := span isspace s3 in
              match ws with
              | _ :: _ => Some s4
              | [] => None
              end
            else None
        | _, _ => None
        end
      else None
  | [] => None
  end.

(** [^#{1,3} (?:第[一二三四五六七八九十]+节\s+)?(一|...|十二)号墓] *)
Definition pattern1 (line : str) : option str :=
  match hashes line with
  | Some (c :: rest) =>
      if (c =? 32)%N then
        match section_prefix rest with
        | Some rest' =>
            match numeral_tomb rest' with
            | Some n => Some n
            | None => numeral_tomb rest
            end
        | None => numeral_tomb rest
        end
      else None
  | _ => None
  end.

(** [^#{1,3}\s*M(\d+)(?:\s*墓葬)?] *)
Definition pattern2 (line : str) : option str :=
  match hashes line with
  | Some rest =>
      match snd (span isspace rest) with
      | c :: rest' =>
          if (c =? 77)%N then                         (* M *)
            match fst (span isdecimal rest') with
            | [] => None
            | digits => Some digits
            end
          else None
      | [] => None
      end
  | None => None
  end.

(** [^#{1,3}\s*(一|...|十二)号墓] *)
Definition pattern3 (line : str) : option str :=
  match hashes line with
  | Some rest => numeral_tomb (snd (span isspace rest))
  | None => None
  end.

(** The tomb a heading line opens: the first pattern that matches
    decides; the pattern with an [M] in it names the tomb [M<digits>],
    the others [<numeral>号墓]. *)
Definition heading_name (line : str) : option str :=
  match pattern1 line with
  | Some n => Some (n ++ u "号墓")
  | None =>
      match pattern2 line with
      | Some digits => Some (chr "M" :: digits)
      | None =>
          match pattern3 line with
          | Some n => Some (n ++ u "号墓")
          | None => None
          end
      end
  end.

(** The variables of the loop. *)
Record state := {
  result : list (str * str);
  current_tomb : option str;
  current_content : list str
}.

Definition init : state :=
  {| result := []; current_tomb := None; current_content := [] |}.

(** One iteration of [for line in full_text.split(NL)]. *)
Definition step (st : state) (line : str) : state :=
  match heading_name line with
  | Some name =>
      match current_tomb st with
      | Some tomb =>
          {| result := set (result st) tomb
                           (strip (unlines (current_content st)));
             current_tomb := Some name;
             current_content := [] |}
      | None =>
          {| result := result st;
             current_tomb := Some name;
             current_content := current_content st |}
      end
  | None =>
      match current_tomb st with
      | Some _ =>
          {| result := result st;
             current_tomb := current_tomb st;
             current_content := current_content st ++ [line] |}
      | None => st
      end
  end.

(** [if current_tomb and current_content: result[current_tomb] = ...] *)
Definition finish (st : state) : list (str * str) :=
  match current_tomb st, current_content st with
  | Some tomb, _ :: _ =>
      set (result st) tomb (strip (unlines (current_content st)))
  | _, _ => result st
  end.

Definition run (st : state) (lines : list str) : list (str * str) :=
  finish (fold_left step lines st).

(** [split_by_tomb(full_text)]: the dictionary, in insertion order. *)
Definition split_by_tomb (full_text : str) : list (str * str) :=
  run init (split [NL] full_text).

(** ** The segments as the data model describes them

    A segment is everything from its heading (exclusive) to the next
    recognised heading (exclusive) or the end of the document. *)

Definition is_heading (line : str) : bool :=
  match heading_name line with Some _ => true | None => false end.

Fixpoint body (lines : list str) : list str :=
  match lines with
  | [] => []
  | l :: r => if is_heading l then [] else l :: body r
  end.

Fixpoint segments (lines : list str) : list (str * list str) :=
  match lines with
  | [] => []
  | l :: r =>
      match heading_name l with
      | Some name => (name, body r) :: segments r
      | None => segments r
      end
  end.

(** The text of a segment, white space around its boundaries apart. *)
Definition segment_text (lines : list str) : str := strip (unlines lines).

(** The segment texts of a report, concatenated in order of appearance. *)
Definition concatenated (full_text : str) : str :=
  List.concat (map snd (split_by_tomb full_text)).

(** The report without its preamble (and without the heading lines,
    which are boundaries), white space around the boundaries apart. *)
Definition without_preamble (full_text : str) : str :=
  List.concat (map (fun s => segment_text (snd s))
                   (segments (split [NL] full_text))).

End Segmenter.
(** ** Properties *)

Section SegmenterProperties.
Context {I : Interp}.

(** What the dictionary holds at the end, when no name repeats: the
    text of every segment, except that a last segment without any
    line is not stored. *)
Fixpoint stored (segs : list (str * list str)) : list (str * str) :=
  match segs with
  | [] => []
  | (name, lines) :: rest =>
      match rest, lines with
      | [], [] => []
      | _, _ => (name, segment_text lines) :: stored rest
      end
  end.

Lemma concat_stored segs :
  List.concat (map snd (stored segs))
  = List.concat (map (fun s => segment_text (snd s)) segs).
Proof.
  induction segs as [|[name lines] rest IH]; [reflexivity|].
  simpl. destruct rest as [|s rest'].
  - destruct lines; reflexivity.
  - destruct lines; simpl in *; now rewrite IH.
Qed.

(** The loop, from a state in which a tomb is open. *)
Lemma run_open lines : forall res tomb content,
  NoDup (keys res ++ tomb :: map fst (segments lines)) ->
  run {| result := res; current_tomb := Some tomb;
         current_content := content |} lines
  = res ++ stored ((tomb, content ++ body lines) :: segments lines).
Proof.
  induction lines as [|l r IH]; intros res tomb content Hnd.
  - unfold run, finish; simpl. rewrite app_nil_r.
    destruct content as [|c content'].
    + now rewrite app_nil_r.
    + rewrite set_fresh; [reflexivity|].
      apply NoDup_remove_2 in Hnd. intros Hin; apply Hnd.
      apply in_or_app; now left.
  - unfold run in *. simpl fold_left. unfold step, is_heading; simpl.
    unfold is_heading.
    simpl segments in Hnd.
    destruct (heading_name l) as [name|] eqn:Hh; simpl in *.
    + assert (Hfresh : ~ In tomb (keys res)).
      { apply NoDup_remove_2 in Hnd. intros Hin; apply Hnd.
        apply in_or_app; now left. }
      rewrite set_fresh by exact Hfresh.
      rewrite IH.
      * rewrite app_nil_r, <- app_assoc. simpl.
        destruct (segments r), (body r); reflexivity.
      * unfold keys in *. rewrite map_app, <- app_assoc. exact Hnd.
    + rewrite IH by exact Hnd. now rewrite <- app_assoc.
Qed.

(** The loop, from the start: the preamble is passed over. *)
Lemma run_init lines :
  NoDup (map fst (segments lines)) ->
  run init lines = stored (segments lines).
Proof.
  induction lines as [|l r IH]; intros Hnd; [reflexivity|].
  change (run init (l :: r)) with (run (step init l) r).
  unfold step. simpl in *.
  destruct (heading_name l) as [name|] eqn:Hh; simpl.
  - rewrite (run_open r [] name []) by exact Hnd. reflexivity.
  - apply IH, Hnd.
Qed.

(** The dictionary of a report whose headings name distinct tombs. *)
Lemma split_by_tomb_distinct full_text :
  NoDup (map fst (segments (split [NL] full_text))) ->
  split_by_tomb full_text = stored (segments (split [NL] full_text)).
Proof. apply run_init. Qed.

(** C5 (amended). When the recognised headings name pairwise distinct
    tombs, the segment texts, concatenated in order of appearance,
    reproduce the report without its preamble: the lines after each
    heading up to the next one, white space around the segment
    boundaries apart.  (Heading lines are boundaries and belong to no
    segment.) *)
Theorem concatenation_reproduces_text full_text :
  NoDup (map fst (segments (split [NL] full_text))) ->
  concatenated full_text = without_preamble full_text.
Proof.
  intros Hnd. unfold concatenated, without_preamble.
  rewrite split_by_tomb_distinct by exact Hnd. apply concat_stored.
Qed.

End SegmenterProperties.

Definition two_tombs : str :=
  unlines [u "preamble"; u "## M1 墓葬"; u " first "; u "# 第二节 二号墓";
           u "second"; u ""].

Lemma concatenation_reproduces_text_witness :
  NoDup (map fst (segments (split [NL] two_tombs)))
  /\ concatenated two_tombs = without_preamble two_tombs
  /\ concatenated two_tombs = u "firstsecond".
Proof.
  assert (Hnd : NoDup (map fst (segments (split [NL] two_tombs)))).
  { vm_compute. repeat constructor; simpl; intuition discriminate. }
  split; [exact Hnd|]. split.
  - exact (concatenation_reproduces_text two_tombs Hnd).
  - reflexivity.
Defined.

Definition repeated_tomb : str :=
  unlines [u "## M1"; u "A"; u "## M1"; u "B"].

(** C5 as stated fails when a tomb name repeats: the later segment
    overwrites the earlier one in the dictionary. *)
Lemma repeated_tomb_loses_text :
  existsb is_heading (split [NL] repeated_tomb) = true
  /\ split_by_tomb repeated_tomb = [(u "M1", u "B")]
  /\ concatenated repeated_tomb = u "B"
  /\ without_preamble repeated_tomb = u "AB".
Proof. repeat split; reflexivity. Qed.

(** ** What the dictionary always satisfies *)

Section SegmenterInvariants.
Context {I : Interp}.

Lemma keys_set_in {V} (d : list (str * V)) k v :
  In k (keys d) -> keys (set d k v) = keys d.
Proof.
  induction d as [|[k' v'] d IH]; simpl; [tauto|].
  destruct (str_eqb_spec k' k) as [->|Hne]; [reflexivity|].
  intros [H|H]; [congruence|]. simpl. now rewrite IH.
Qed.

Lemma NoDup_keys_set {V} (d : list (str * V)) k v :
  NoDup (keys d) -> NoDup (keys (set d k v)).
Proof.
  intros Hnd. destruct (in_dec str_eq_dec k (keys d)) as [Hin|Hnin].
  - now rewrite keys_set_in.
  - rewrite set_fresh by exact Hnin. unfold keys. rewrite map_app. simpl.
    apply NoDup_app; [exact Hnd|repeat constructor; tauto|].
    intros x Hx [<-|[]]. exact (Hnin Hx).
Qed.

Lemma in_set {V} (d : list (str * V)) k v kv :
  In kv (set d k v) -> In kv d \/ kv = (k, v).
Proof.
  induction d as [|[k' v'] d IH]; simpl.
  - intros [<-|[]]. now right.
  - destruct (str_eqb_spec k' k) as [->|Hne]; simpl.
    + intros [<-|H]; [now right|left; now right].
    + intros [<-|H]; [left; now left|].
      destruct (IH H); [left; now right|now right].
Qed.

(** A property of the loop's state that every iteration keeps holds
    at the end of the loop. *)
Lemma fold_step_inv (Q : state -> Prop) lines :
  (forall st l, In l lines -> Q st -> Q (step st l)) ->
  forall st, Q st -> Q (fold_left step lines st).
Proof.
  induction lines as [|l lines IH]; intros Hstep st Hst; [exact Hst|].
  simpl. apply IH.
  - intros st' l' Hl'. apply Hstep. now right.
  - apply Hstep; [now left|exact Hst].
Qed.

(** A text in which no line is a recognised heading gives the empty
    dictionary (the caller then treats the whole text as one block). *)
Theorem no_heading_no_tomb full_text :
  existsb is_heading (split [NL] full_text) = false ->
  split_by_tomb full_text = [].
Proof.
  intros Hnone. unfold split_by_tomb, run.
  assert (H : fold_left step (split [NL] full_text) init = init).
  { apply (fold_step_inv (fun st => st = init)); [|reflexivity].
    intros st l Hl ->. unfold step.
    assert (Hl' : is_heading l = false).
    { destruct (is_heading l) eqn:Hh; [|reflexivity].
      rewrite <- Hnone. symmetry. apply existsb_exists. now exists l. }
    unfold is_heading in Hl'. now destruct (heading_name l). }
  now rewrite H.
Qed.

(** No tomb name occurs twice among the keys. *)
Lemma tomb_names_are_distinct full_text :
  NoDup (keys (split_by_tomb full_text)).
Proof.
  unfold split_by_tomb, run.
  assert (H : NoDup (keys (result (fold_left step (split [NL] full_text)
                                             init)))).
  { apply (fold_step_inv (fun st => NoDup (keys (result st))));
      [|constructor].
    intros st l _ Hst. unfold step.
    destruct (heading_name l), (current_tomb st); simpl; try exact Hst.
    now apply NoDup_keys_set. }
  unfold finish.
  destruct (current_tomb _) as [tomb|]; [|exact H].
  destruct (current_content _); [exact H|]. now apply NoDup_keys_set.
Qed.

(** Every text of the dictionary is stripped of the white space at
    its ends. *)
Theorem segment_texts_are_stripped full_text :
  Forall (fun kv => strip (snd kv) = snd kv) (split_by_tomb full_text).
Proof.
  unfold split_by_tomb, run.
  assert (Hset : forall d k lines,
             Forall (fun kv : str * str => strip (snd kv) = snd kv) d ->
             Forall (fun kv : str * str => strip (snd kv) = snd kv)
                    (set d k (strip (unlines lines)))).
  { intros d k lines Hd. apply Forall_forall. intros kv Hkv.
    apply in_set in Hkv as [Hkv| ->].
    - rewrite Forall_forall in Hd. now apply Hd.
    - apply strip_idem. }
  assert (H : Forall (fun kv : str * str => strip (snd kv) = snd kv)
                     (result (fold_left step (split [NL] full_text) init))).
  { apply (fold_step_inv
             (fun st => Forall (fun kv : str * str => strip (snd kv) = snd kv)
                               (result st))); [|constructor].
    intros st l _ Hst. unfold step.
    destruct (heading_name l), (current_tomb st); simpl; try exact Hst.
    now apply Hset. }
  unfold finish.
  destruct (current_tomb _) as [tomb|]; [|exact H].
  destruct (current_content _); [exact H|]. now apply Hset.
Qed.

(** Every key is the name of a heading line of the text. *)
Theorem tomb_names_come_from_headings full_text name :
  In name (keys (split_by_tomb full_text)) ->
  exists line, In line (split [NL] full_text)
               /\ heading_name line = Some name.
Proof.
  unfold split_by_tomb, run.
  set (lines := split [NL] full_text).
  set (named := fun k => exists line, In line lines
                                      /\ heading_name line = Some k).
  assert (Hset : forall (d : list (str * str)) k v,
             (forall x, In x (keys d) -> named x) -> named k ->
             forall x, In x (keys (set d k v)) -> named x).
  { intros d k v Hd Hk x Hx. unfold keys in Hx.
    apply in_map_iff in Hx as (kv & <- & Hkv).
    apply in_set in Hkv as [Hkv| ->]; [|exact Hk].
    apply Hd. unfold keys. now apply in_map. }
  assert (H : (forall x, In x (keys (result (fold_left step lines init))) ->
                         named x)
              /\ (forall tomb, current_tomb (fold_left step lines init)
                               = Some tomb -> named tomb)).
  { apply (fold_step_inv
             (fun st => (forall x, In x (keys (result st)) -> named x)
                        /\ (forall tomb, current_tomb st = Some tomb ->
                                         named tomb))).
    - intros st l Hl [Hres Hcur]. unfold step.
      destruct (heading_name l) as [k|] eqn:Hh;
        destruct (current_tomb st) as [tomb|] eqn:Ht; simpl;
        try (split; [exact Hres|]).
      + split; [apply Hset; [exact Hres|now apply Hcur]|].
        intros ? [= <-]. now exists l.
      + intros ? [= <-]. now exists l.
      + exact Hcur.
      + rewrite Ht. discriminate.
    - split; [intros x []|discriminate]. }
  destruct H as [Hres Hcur]. unfold finish.
  destruct (current_tomb _) as [tomb|]; [|apply Hres].
  destruct (current_content _); [apply Hres|].
  apply Hset; [exact Hres|now apply Hcur].
Qed.

(** [result[name] = text] *)
Definition put (d : list (str * str)) (kv : str * str) : list (str * str) :=
  set d (fst kv) (snd kv).

(** The loop, from a state in which a tomb is open, whatever the
    names of the headings: the segments are stored one after the
    other, each under its name. *)
Lemma run_open_any lines : forall res tomb content,
  run {| result := res; current_tomb := Some tomb;
         current_content := content |} lines
  = fold_left put (stored ((tomb, content ++ body lines) :: segments lines))
              res.
Proof.
  induction lines as [|l r IH]; intros res tomb content.
  - unfold run, finish; simpl. rewrite app_nil_r.
    destruct content; reflexivity.
  - unfold run in *. simpl fold_left. unfold step, is_heading; simpl.
    unfold is_heading.
    destruct (heading_name l) as [name|] eqn:Hh; simpl.
    + rewrite IH. rewrite app_nil_r. simpl.
      destruct (segments r), (body r); reflexivity.
    + rewrite IH. now rewrite <- app_assoc.
Qed.

Lemma run_init_any lines :
  run init lines = fold_left put (stored (segments lines)) [].
Proof.
  induction lines as [|l r IH]; [reflexivity|].
  change (run init (l :: r)) with (run (step init l) r).
  unfold step. simpl.
  destruct (heading_name l) as [name|] eqn:Hh; simpl.
  - now rewrite (run_open_any r [] name []).
  - exact IH.
Qed.

Lemma get_app {V} (a b : list (str * V)) k :
  get (a ++ b) k = match get a k with Some v => Some v | None => get b k end.
Proof.
  induction a as [|[k0 v0] a IH]; simpl; [reflexivity|].
  destruct (str_eqb k0 k); [reflexivity|exact IH].
Qed.

Lemma get_fold_put l : forall d k,
  get (fold_left put l d) k
  = match get (rev l) k with Some v => Some v | None => get d k end.
Proof.
  induction l as [|[k0 v0] l IH]; intros d k; [reflexivity|].
  simpl fold_left. rewrite IH. simpl rev. rewrite get_app.
  destruct (get (rev l) k) as [v|]; [reflexivity|].
  unfold put. simpl. rewrite get_set.
  destruct (str_eqb k0 k); reflexivity.
Qed.

(** For every text, also one that names a tomb in several headings,
    the dictionary holds under a name the text of the last segment
    with that name, and nothing under a name without a segment: a
    later segment replaces an earlier one of the same name.  (The
    segments are those of [stored]: the last segment of the text
    counts only if it has a line.) *)
Theorem last_segment_of_a_name_wins full_text name :
  get (split_by_tomb full_text) name
  = get (rev (stored (segments (split [NL] full_text)))) name.
Proof.
  unfold split_by_tomb. rewrite run_init_any, get_fold_put.
  now destruct (get (rev (stored (segments (split [NL] full_text)))) name).
Qed.

End SegmenterInvariants.

(** A text that names M1 twice: the dictionary keeps the place of
    the first M1 and the text of the last. *)
Definition renamed_tomb : str :=
  unlines [u "## M1"; u "A"; u "## M2"; u "C"; u "## M1"; u "B"].

Lemma renamed_tomb_keeps_the_last :
  split_by_tomb renamed_tomb = [(u "M1", u "B"); (u "M2", u "C")]
  /\ stored (segments (split [NL] renamed_tomb))
     = [(u "M1", u "A"); (u "M2", u "C"); (u "M1", u "B")].
Proof. split; vm_compute; reflexivity. Qed.

Definition no_tomb_text : str :=
  unlines [u "# 第一章 概述"; u "遗址位于山顶。"; u "#### M1"].

Lemma no_heading_no_tomb_witness : split_by_tomb no_tomb_text = [].
Proof. apply (no_heading_no_tomb no_tomb_text). reflexivity. Defined.

Lemma tomb_names_come_from_headings_witness :
  exists line, In line (split [NL] two_tombs)
               /\ heading_name line = Some (u "二号墓").
Proof.
  apply (tomb_names_come_from_headings two_tombs (u "二号墓")).
  vm_compute. right; now left.
Defined.

End ContentExtractor.

(* ================================================================== *)
(** * [src/workflow.py]: ExtractionWorkflow._split_large_text          *)
(* ================================================================== *)

Module SplitLargeText.

Local Open Scope Z_scope.

(** How the end of a chunk was chosen. *)
Inductive cut_kind := AtNewline | AtPeriod | HardCut | ToTheEnd.

(** One chunk: where it starts, where it was cut ([text[start:stop]];
    the last chunk is [text[start:]]), and how. *)
Record chunk := {
  start : Z;
  stop : Z;
  kind : cut_kind
}.

Definition PERIOD : char := 12290%N.           (* '。' *)

(** The choice of [actual_end] for a chunk that starts at [start]. *)
Definition choose_cut (text : str) (overlap start end_ : Z) : Z * cut_kind :=
  let search_start := Z.max start (end_ - overlap) in
  let last_newline := rfind NL text search_start end_ in
  if negb (last_newline =? -1) then (last_newline + 1, AtNewline)
  else
    let last_period := rfind PERIOD text search_start end_ in
    if negb (last_period =? -1) then (last_period + 1, AtPeriod)
    else (end_, HardCut).

(** [while start < len(text): ...], one unit of fuel per iteration. *)
Fixpoint loop (fuel : nat) (text : str) (chunk_size overlap : Z)
         (start : Z) (chunks : list chunk) : option (list chunk) :=
  if start <? len text then
    match fuel with
    | O => None
    | S fuel' =>
        let end_ := start + chunk_size in
        if end_ >=? len text then
          Some (chunks ++ [{| start := start; stop := len text;
                              kind := ToTheEnd |}])
        else
          let (actual_end, k) := choose_cut text overlap start end_ in
          loop fuel' text chunk_size overlap
               (Z.max (start + 1) (actual_end - overlap))
               (chunks ++ [{| start := start; stop := actual_end;
                              kind := k |}])
    end
  else Some chunks.

(** The chunks of [text] with their boundaries.  The loop advances
    [start] by at least one character per iteration, so [len(text)]
    iterations are enough (see [cuts_total]). *)
Definition cuts (text : str) (chunk_size overlap : Z)
  : option (list chunk) :=
  if len text <=? chunk_size
  then Some [{| start := 0; stop := len text; kind := ToTheEnd |}]
  else loop (List.length text) text chunk_size overlap 0 [].

Definition chunk_text (text : str) (c : chunk) : str :=
  match kind c with
  | ToTheEnd => slice_from text (start c)
  | _ => slice text (start c) (stop c)
  end.

(** [_split_large_text(text, chunk_size, overlap)] *)
Definition _split_large_text (text : str) (chunk_size overlap : Z)
  : option (list str) :=
  option_map (map (chunk_text text)) (cuts text chunk_size overlap).

(** ** Properties *)

(** The loop returns: [start] grows by at least one per iteration. *)
Lemma loop_total fuel : forall text chunk_size overlap start chunks,
  len text - start <= Z.of_nat fuel ->
  exists l, loop fuel text chunk_size overlap start chunks = Some l.
Proof.
  induction fuel as [|fuel IH]; intros text cs ov st acc Hfuel; simpl.
  - destruct (Z.ltb_spec st (len text)); [lia|]. now exists acc.
  - destruct (Z.ltb_spec st (len text)); [|now exists acc].
    destruct (st + cs >=? len text); [eexists; reflexivity|].
    destruct (choose_cut text ov st (st + cs)) as [actual_end k].
    apply IH. lia.
Qed.

Lemma cuts_total text chunk_size overlap :
  exists l, cuts text chunk_size overlap = Some l.
Proof.
  unfold cuts. destruct (len text <=? chunk_size); [eexists; reflexivity|].
  apply loop_total. unfold len. lia.
Qed.

Lemma _split_large_text_total text chunk_size overlap :
  exists l, _split_large_text text chunk_size overlap = Some l.
Proof.
  unfold _split_large_text.
  destruct (cuts_total text chunk_size overlap) as [l ->].
  eexists; reflexivity.
Qed.

(** Where the chunk after [c] starts:
    [start = max(start + 1, actual_end - overlap)]. *)
Definition next_start (overlap : Z) (c : chunk) : Z :=
  Z.max (start c + 1) (stop c - overlap).

(** Every chunk but the first starts where [next_start] of the chunk
    before it says. *)
Inductive chained (overlap : Z) : list chunk -> Prop :=
| chained_nil : chained overlap []
| chained_one c : chained overlap [c]
| chained_cons c d l :
    start d = next_start overlap c ->
    chained overlap (d :: l) ->
    chained overlap (c :: d :: l).

Lemma chained_snoc overlap l d :
  chained overlap l ->
  (forall c, last l d = c -> l <> [] -> start d = next_start overlap c) ->
  chained overlap (l ++ [d]).
Proof.
  induction 1 as [|c|c e l Hs Hc IH]; intros Hlast; simpl.
  - constructor.
  - constructor; [|constructor]. apply Hlast; [reflexivity|discriminate].
  - constructor; [exact Hs|]. apply IH. intros c' Hc' _.
    apply Hlast; [|discriminate]. exact Hc'.
Qed.

Lemma last_snoc (l : list chunk) (c d : chunk) : last (l ++ [c]) d = c.
Proof. apply last_last. Qed.

Lemma loop_chained fuel : forall text chunk_size overlap st acc l,
  chained overlap acc ->
  (forall d, acc <> [] -> st = next_start overlap (last acc d)) ->
  loop fuel text chunk_size overlap st acc = Some l ->
  chained overlap l.
Proof.
  induction fuel as [|fuel IH]; intros text cs ov st acc l Hc Hst; simpl.
  - destruct (st <? len text); [discriminate|]. now intros [= <-].
  - destruct (st <? len text); [|now intros [= <-]].
    destruct (st + cs >=? len text).
    + intros [= <-]. apply chained_snoc; [exact Hc|].
      intros c <- Hne. simpl. now apply Hst.
    + destruct (choose_cut text ov st (st + cs)) as [actual_end k] eqn:Hcut.
      apply IH.
      * apply chained_snoc; [exact Hc|].
        intros c <- Hne. simpl. now apply Hst.
      * intros d _. now rewrite last_snoc.
Qed.

Lemma cuts_chained text chunk_size overlap l :
  cuts text chunk_size overlap = Some l -> chained overlap l.
Proof.
  unfold cuts. destruct (len text <=? chunk_size).
  - intros [= <-]. constructor.
  - apply loop_chained; [constructor|]. intros d Hne. now elim Hne.
Qed.

Lemma chained_nth overlap l : chained overlap l ->
  forall i c d, nth_error l i = Some c -> nth_error l (S i) = Some d ->
  start d = next_start overlap c.
Proof.
  induction 1 as [|c0|c0 d0 l Hs Hc IH]; intros i c d Hi HSi.
  - destruct i; discriminate.
  - destruct i; simpl in HSi; [discriminate|destruct i; discriminate].
  - destruct i as [|i]; simpl in Hi, HSi.
    + now injection Hi as <-; injection HSi as <-.
    + exact (IH i c d Hi HSi).
Qed.

(** C6 (amended). Overlap is retained after every cut, whatever its
    kind: the chunk that follows a chunk cut at [stop] starts at
    [max(start + 1, stop - overlap)].  So also after a clean newline
    or punctuation cut, with a positive overlap and a chunk of more
    than one character, the next chunk starts before the cut boundary
    and repeats the characters in between. *)
Theorem overlap_after_every_cut text chunk_size overlap l i c d :
  cuts text chunk_size overlap = Some l ->
  nth_error l i = Some c ->
  nth_error l (S i) = Some d ->
  start d = Z.max (start c + 1) (stop c - overlap)
  /\ (0 < overlap -> start c + 1 < stop c -> start d < stop c).
Proof.
  intros Hcuts Hi HSi.
  pose proof (chained_nth overlap l
                (cuts_chained text chunk_size overlap l Hcuts) i c d Hi HSi)
    as Hd.
  unfold next_start in Hd. split; [exact Hd|]. lia.
Qed.

(** A tomb text as [_extract_artifacts] chunks it (3000 characters,
    overlap 300): 2900 letters, a newline, 1000 letters. *)
Definition long_text : str :=
  repeat (chr "a") 2900 ++ [NL] ++ repeat (chr "b") 1000.

Definition long_text_cuts : list chunk :=
  [ {| start := 0; stop := 2901; kind := AtNewline |};
    {| start := 2601; stop := 3901; kind := ToTheEnd |} ].

Lemma long_text_cuts_eq : cuts long_text 3000 300 = Some long_text_cuts.
Proof. vm_compute. reflexivity. Qed.

Lemma overlap_after_every_cut_witness :
  start {| start := 2601; stop := 3901; kind := ToTheEnd |}
  = Z.max (0 + 1) (2901 - 300)
  /\ (0 < 300 -> 0 + 1 < 2901 -> 2601 < 2901).
Proof.
  exact (overlap_after_every_cut long_text 3000 300 long_text_cuts 0 _ _
           long_text_cuts_eq eq_refl eq_refl).
Defined.

(** C6 as stated fails: the first chunk is cut cleanly after the
    newline at index 2900, and the second chunk starts at 2601, not at
    the cut boundary 2901; it repeats the last 300 characters of the
    first. *)
Lemma newline_cut_keeps_overlap :
  cuts long_text 3000 300 = Some long_text_cuts
  /\ _split_large_text long_text 3000 300
     = Some [ repeat (chr "a") 2900 ++ [NL];
              repeat (chr "a") 299 ++ [NL] ++ repeat (chr "b") 1000 ].
Proof. split; vm_compute; reflexivity. Qed.

(** ** Where the chunks lie *)

Lemma rfind_go_range c s : forall i b e found,
  rfind_go c s i b e found = found
  \/ (b <= rfind_go c s i b e found < e /\ i <= rfind_go c s i b e found).
Proof.
  induction s as [|x s IH]; intros i b e found; simpl; [now left|].
  destruct (IH (i + 1) b e
              (if ((b <=? i) && (i <? e) && (x =? c)%N)%bool
               then i else found)) as [H|H].
  - rewrite H.
    destruct ((b <=? i) && (i <? e) && (x =? c)%N)%bool eqn:Hc; [|now left].
    right. apply andb_true_iff in Hc as [Hc _].
    apply andb_true_iff in Hc as [Hb He]. lia.
  - right. lia.
Qed.

Lemma rfind_range c s start_ end_ :
  0 <= start_ -> 0 <= end_ ->
  rfind c s start_ end_ = -1
  \/ start_ <= rfind c s start_ end_ < end_.
Proof.
  intros Hs He. unfold rfind.
  replace (if start_ <? 0 then Z.max 0 (start_ + len s) else start_)
    with start_ by (destruct (Z.ltb_spec start_ 0); lia).
  match goal with
  | |- context [rfind_go c s 0 start_ ?e (-1)] =>
      destruct (rfind_go_range c s 0 start_ e (-1)) as [H|H];
      [now left|right];
      assert (e <= end_)
        by (destruct (Z.ltb_spec (len s) end_);
            [lia|destruct (Z.ltb_spec end_ 0); lia])
  end.
  lia.
Qed.

Lemma choose_cut_range text overlap st chunk_size actual_end k :
  0 <= st -> 0 <= chunk_size ->
  choose_cut text overlap st (st + chunk_size) = (actual_end, k) ->
  st <= actual_end <= st + chunk_size
  /\ (1 <= chunk_size -> st < actual_end)
  /\ k <> ToTheEnd.
Proof.
  intros Hst Hcs. unfold choose_cut.
  set (search_start := Z.max st (st + chunk_size - overlap)).
  assert (Hss : 0 <= search_start) by (unfold search_start; lia).
  assert (Hse : 0 <= st + chunk_size) by lia.
  destruct (rfind_range NL text search_start (st + chunk_size) Hss Hse)
    as [Hn|Hn].
  - rewrite Hn. simpl.
    destruct (rfind_range PERIOD text search_start (st + chunk_size) Hss Hse)
      as [Hp|Hp].
    + rewrite Hp. simpl. intros [= <- <-].
      repeat split; try lia; discriminate.
    + destruct (Z.eqb_spec (rfind PERIOD text search_start (st + chunk_size))
                           (-1)); simpl; intros [= <- <-];
        repeat split; try (unfold search_start in *; lia); discriminate.
  - destruct (Z.eqb_spec (rfind NL text search_start (st + chunk_size)) (-1));
      [unfold search_start in *; lia|].
    simpl. intros [= <- <-].
    repeat split; try (unfold search_start in *; lia); discriminate.
Qed.

(** The part of the text the chunks of [acc] reach: every position
    below [hi] lies in one of them. *)
Definition covers (acc : list chunk) (hi : Z) : Prop :=
  forall i, 0 <= i < hi ->
            exists c, In c acc /\ 0 <= start c <= i /\ i < stop c.

Lemma loop_covers fuel : forall text chunk_size overlap st acc l hi,
  1 <= chunk_size -> 0 <= overlap -> 0 <= st <= hi ->
  covers acc hi ->
  loop fuel text chunk_size overlap st acc = Some l ->
  covers l (len text).
Proof.
  induction fuel as [|fuel IH]; intros text cs ov st acc l hi Hcs Hov Hst Hacc;
    simpl.
  - destruct (Z.ltb_spec st (len text)); [discriminate|].
    intros [= <-] i Hi. apply Hacc. lia.
  - destruct (Z.ltb_spec st (len text));
      [|intros [= <-] i Hi; apply Hacc; lia].
    destruct (st + cs >=? len text).
    + intros [= <-] i Hi. destruct (Z.lt_ge_cases i hi) as [Hlt|Hge].
      * destruct (Hacc i) as (c & Hc & Hr); [lia|].
        exists c. split; [apply in_or_app; now left|exact Hr].
      * eexists. split; [apply in_or_app; right; now left|]. simpl. lia.
    + destruct (choose_cut text ov st (st + cs)) as [actual_end k] eqn:Hcut.
      destruct (choose_cut_range text ov st cs actual_end k) as (Hr & Hlt & _);
        [lia|lia|exact Hcut|].
      specialize (Hlt Hcs).
      apply (IH text cs ov _ _ l (Z.max hi actual_end)); [exact Hcs|exact Hov|lia|].
      intros i Hi. destruct (Z.lt_ge_cases i hi) as [Hlt'|Hge].
      * destruct (Hacc i) as (c & Hc & Hr'); [lia|].
        exists c. split; [apply in_or_app; now left|exact Hr'].
      * eexists. split; [apply in_or_app; right; now left|]. simpl. lia.
Qed.

Lemma cuts_cover text chunk_size overlap l :
  1 <= chunk_size -> 0 <= overlap ->
  cuts text chunk_size overlap = Some l -> covers l (len text).
Proof.
  intros Hcs Hov. unfold cuts. destruct (len text <=? chunk_size).
  - intros [= <-] i Hi. eexists. split; [now left|]. simpl. lia.
  - apply (loop_covers _ text chunk_size overlap 0 [] l 0); try lia.
    intros i Hi. lia.
Qed.

Lemma adjust_id n a : 0 <= a <= n -> adjust n a = a.
Proof.
  intros Ha. unfold adjust.
  destruct (Z.ltb_spec a 0); [lia|].
  destruct (Z.ltb_spec a 0); [lia|].
  destruct (Z.ltb_spec n a); lia.
Qed.

Lemma adjust_le n b : 0 <= n -> 0 <= b -> adjust n b = Z.min b n.
Proof.
  intros Hn Hb. unfold adjust.
  destruct (Z.ltb_spec b 0); [lia|].
  destruct (Z.ltb_spec b 0); [lia|].
  destruct (Z.ltb_spec n b); lia.
Qed.

Lemma chunk_text_nth text c i :
  0 <= start c <= Z.of_nat i -> Z.of_nat i < stop c ->
  (i < List.length text)%nat ->
  nth_error (chunk_text text c) (i - Z.to_nat (start c))
  = nth_error text i.
Proof.
  intros Hs He Hi. unfold chunk_text, slice_from, slice.
  assert (Hn : 0 <= len text) by (unfold len; lia).
  assert (Ha : adjust (len text) (start c) = start c)
    by (apply adjust_id; unfold len; lia).
  rewrite Ha.
  assert (Hidx : (Z.to_nat (start c) + (i - Z.to_nat (start c)) = i)%nat)
    by lia.
  destruct (kind c).
  1-3: rewrite nth_error_firstn, nth_error_skipn, Hidx;
       rewrite (adjust_le (len text) (stop c)) by lia;
       destruct (Nat.ltb_spec (i - Z.to_nat (start c))
                              (Z.to_nat (Z.min (stop c) (len text) - start c)));
       [reflexivity|unfold len in *; lia].
  now rewrite nth_error_skipn, Hidx.
Qed.

(** No character is lost: with a chunk size of at least 1 and an
    overlap that is not negative, every character of the text lies in
    one of the chunks, at its place. *)
Theorem every_character_is_in_a_chunk text chunk_size overlap l i ch :
  1 <= chunk_size -> 0 <= overlap ->
  cuts text chunk_size overlap = Some l ->
  nth_error text i = Some ch ->
  exists c, In c l
            /\ start c <= Z.of_nat i < stop c
            /\ nth_error (chunk_text text c) (i - Z.to_nat (start c))
               = Some ch.
Proof.
  intros Hcs Hov Hcuts Hch.
  assert (Hi : (i < List.length text)%nat).
  { apply nth_error_Some. congruence. }
  destruct (cuts_cover text chunk_size overlap l Hcs Hov Hcuts (Z.of_nat i))
    as (c & Hc & Hs & He); [unfold len; lia|].
  exists c. split; [exact Hc|]. split; [lia|].
  rewrite chunk_text_nth by (try lia; exact Hi). exact Hch.
Qed.

(** What the loop gives a chunk: a start inside the text, and at most
    [chunk_size] characters; the last chunk ends with the text. *)
Definition chunk_ok (text : str) (chunk_size : Z) (c : chunk) : Prop :=
  0 <= start c <= len text
  /\ 0 <= stop c
  /\ stop c - start c <= chunk_size
  /\ (kind c = ToTheEnd -> stop c = len text).

Lemma loop_chunk_ok fuel : forall text chunk_size overlap st acc l,
  0 <= chunk_size -> 0 <= st ->
  Forall (chunk_ok text chunk_size) acc ->
  loop fuel text chunk_size overlap st acc = Some l ->
  Forall (chunk_ok text chunk_size) l.
Proof.
  induction fuel as [|fuel IH]; intros text cs ov st acc l Hcs Hst Hacc; simpl.
  - destruct (st <? len text); [discriminate|]. now intros [= <-].
  - destruct (Z.ltb_spec st (len text)); [|now intros [= <-]].
    destruct (Z.geb_spec (st + cs) (len text)).
    + intros [= <-]. apply Forall_app; split; [exact Hacc|].
      constructor; [|constructor]. unfold chunk_ok; simpl. lia.
    + destruct (choose_cut text ov st (st + cs)) as [actual_end k] eqn:Hcut.
      destruct (choose_cut_range text ov st cs actual_end k) as (Hr & _ & Hk);
        [lia|lia|exact Hcut|].
      apply IH; [exact Hcs|lia|].
      apply Forall_app; split; [exact Hacc|].
      constructor; [|constructor]. unfold chunk_ok; simpl.
      repeat split; try lia. intros ->. congruence.
Qed.

Lemma cuts_chunk_ok text chunk_size overlap l :
  0 <= chunk_size ->
  cuts text chunk_size overlap = Some l ->
  Forall (chunk_ok text chunk_size) l.
Proof.
  intros Hcs. unfold cuts. destruct (Z.leb_spec (len text) chunk_size).
  - intros [= <-]. constructor; [|constructor].
    unfold chunk_ok; simpl. unfold len in *. lia.
  - apply loop_chunk_ok; [exact Hcs|lia|constructor].
Qed.

(** No chunk is longer than the chunk size. *)
Theorem chunks_fit_the_size text chunk_size overlap pieces piece :
  0 <= chunk_size ->
  _split_large_text text chunk_size overlap = Some pieces ->
  In piece pieces ->
  len piece <= chunk_size.
Proof.
  intros Hcs. unfold _split_large_text.
  destruct (cuts text chunk_size overlap) as [l|] eqn:Hcuts; [|discriminate].
  intros [= <-] Hin. apply in_map_iff in Hin as (c & <- & Hc).
  pose proof (cuts_chunk_ok text chunk_size overlap l Hcs Hcuts) as Hok.
  rewrite Forall_forall in Hok.
  destruct (Hok c Hc) as (Hs & He & Hsize & Hend).
  assert (Hn : 0 <= len text) by (unfold len; lia).
  unfold chunk_text, slice_from, slice.
  rewrite (adjust_id (len text) (start c)) by lia.
  destruct (kind c) eqn:Hk.
  1-3: rewrite (adjust_le (len text) (stop c)) by lia; unfold len at 1;
       match goal with
       | |- Z.of_nat (List.length (firstn ?n ?x)) <= _ =>
           pose proof (firstn_le_length n x)
       end; lia.
  unfold len at 1. rewrite length_skipn. specialize (Hend eq_refl).
  unfold len in *. lia.
Qed.

Lemma every_character_is_in_a_chunk_witness :
  exists c, In c long_text_cuts
            /\ start c <= Z.of_nat 2950 < stop c
            /\ nth_error (chunk_text long_text c)
                         (2950 - Z.to_nat (start c))
               = Some (chr "b").
Proof.
  apply (every_character_is_in_a_chunk long_text 3000 300 long_text_cuts
           2950 (chr "b")).
  - lia.
  - lia.
  - exact long_text_cuts_eq.
  - vm_compute. reflexivity.
Defined.

Lemma chunks_fit_the_size_witness :
  len (repeat (chr "a") 2900 ++ [NL]) <= 3000.
Proof.
  apply (chunks_fit_the_size long_text 3000 300
           [ repeat (chr "a") 2900 ++ [NL];
             repeat (chr "a") 299 ++ [NL] ++ repeat (chr "b") 1000 ]).
  - lia.
  - vm_compute. reflexivity.
  - now left.
Defined.

End SplitLargeText.

(* ================================================================== *)
(** * [src/automated_extractor.py]: recovering JSON from a response    *)
(* ================================================================== *)

Module AutomatedExtractor.
Section Extractor.
Context {I : Interp}.

Definition QUOTE : char := 34%N.              (* the double quote *)
Definition BACKSLASH : char := 92%N.
Definition LBRACE : char := 123%N.
Definition RBRACE : char := 125%N.
Definition LBRACKET : char := 91%N.
Definition RBRACKET : char := 93%N.
Definition FENCE : str := [96; 96; 96]%N.      (* three backquotes *)

(** The stack of expected closers after reading [s]; its head is the
    top. *)
Definition closers (s : str) : list char :=
  fold_left (fun stack c =>
               if (c =? LBRACE)%N then RBRACE :: stack
               else if (c =? LBRACKET)%N then RBRACKET :: stack
               else if ((c =? RBRACE) || (c =? RBRACKET))%N then
                 match stack with
                 | top :: stack' => if (top =? c)%N then stack' else stack
                 | [] => stack
                 end
               else stack) s [].

(** [repair_truncated_json(json_str)] *)
Definition repair_truncated_json (json_str : str) : str :=
  let json_str := strip json_str in
  let json_str :=
    if Nat.odd (count QUOTE json_str) then json_str ++ [QUOTE]
    else json_str in
  json_str ++ closers json_str.

(** The elements of odd index: [blocks[i] for i in range(1, len, 2)]. *)
Fixpoint odd_blocks (blocks : list str) : list str :=
  match blocks with
  | _ :: b :: rest => b :: odd_blocks rest
  | _ => []
  end.

(** Strategy 1 on one fenced block. *)
Definition parse_block (block : str) : option value :=
  let block := strip block in
  let block := if startswith (u "json") block
               then strip (skipn 4 block) else block in
  match json_loads block with
  | Some v => Some v
  | None => json_loads (repair_truncated_json block)
  end.

(** The scan for the bracket that closes [text[start_idx]]: [rest] is
    what remains to be read, [seen] what was read, last character
    first.  Every time the balance returns to 0 the candidate
    [text[start_idx:i+1]] is parsed; the scan goes on when that fails.
    The result is the parsed value, or the balance at the end. *)
Fixpoint scan (start_char end_char : char) (rest seen : str)
         (balance : Z) (in_string escape : bool) : value + Z :=
  match rest with
  | [] => inr balance
  | c :: rest' =>
      let seen' := c :: seen in
      if escape then scan start_char end_char rest' seen' balance in_string false
      else if (c =? BACKSLASH)%N then
        scan start_char end_char rest' seen' balance in_string true
      else if (c =? QUOTE)%N then
        scan start_char end_char rest' seen' balance (negb in_string) false
      else if in_string then
        scan start_char end_char rest' seen' balance in_string false
      else if (c =? start_char)%N then
        scan start_char end_char rest' seen' (balance + 1) in_string false
      else if (c =? end_char)%N then
        let balance' := (balance - 1)%Z in
        if (balance' =? 0)%Z then
          match json_loads (rev seen') with
          | Some v => inl v
          | None =>
              scan start_char end_char rest' seen' balance' in_string false
          end
        else scan start_char end_char rest' seen' balance' in_string false
      else scan start_char end_char rest' seen' balance in_string false
  end.

(** Strategy 3 for one kind of bracket. *)
Definition balanced (text : str) (start_char : char) : option value :=
  let end_char := if (start_char =? LBRACKET)%N then RBRACKET else RBRACE in
  match find [start_char] text with
  | Some start_idx =>
      let tail := skipn start_idx text in
      match scan start_char end_char tail [] 0 false false with
      | inl v => Some v
      | inr balance =>
          if (0 <? balance)%Z
          then json_loads (repair_truncated_json tail)
          else None
      end
  | None => None
  end.

Definition no_bracket_msg : str :=
  u "无法从响应中提取有效的JSON。未找到 [ 或 {。".
Definition no_json_msg : str := u "无法从响应中提取有效的JSON。".

(** [extract_json_from_response(response_text)] *)
Definition extract_json_from_response (response_text : str)
  : result value :=
  let text := strip response_text in
  (* 1. fenced code blocks *)
  match (if contains FENCE text
         then first_some parse_block (odd_blocks (split FENCE text))
         else None) with
  | Some v => Ok v
  | None =>
  (* 2. the whole text, then the whole text repaired *)
  match json_loads text with
  | Some v => Ok v
  | None =>
  let repaired := repair_truncated_json text in
  match (if str_eqb repaired text then None else json_loads repaired) with
  | Some v => Ok v
  | None =>
  (* 3. the outermost bracketed part *)
  let first_bracket := find [LBRACKET] text in
  let first_brace := find [LBRACE] text in
  match first_bracket, first_brace with
  | None, None => Raise (ValueError no_bracket_msg)
  | _, _ =>
      let markers :=
        match first_bracket, first_brace with
        | Some _, None => [LBRACKET; LBRACE]
        | Some i, Some j =>
            if (i <? j)%nat then [LBRACKET; LBRACE] else [LBRACE; LBRACKET]
        | None, _ => [LBRACE; LBRACKET]
        end in
      match first_some (balanced text) markers with
      | Some v => Ok v
      | None => Raise (ValueError no_json_msg)
      end
  end end end end.

End Extractor.
(** ** Properties of the repair and of the recovery *)

Section ExtractorProperties.
Context {I : Interp}.

(** One step of the loop over the characters in [closers]. *)
Definition bracket_step (stack : list char) (c : char) : list char :=
  if (c =? LBRACE)%N then RBRACE :: stack
  else if (c =? LBRACKET)%N then RBRACKET :: stack
  else if ((c =? RBRACE) || (c =? RBRACKET))%N then
    match stack with
    | top :: stack' => if (top =? c)%N then stack' else stack
    | [] => stack
    end
  else stack.

Lemma closers_fold s : closers s = fold_left bracket_step s [].
Proof. reflexivity. Qed.

Definition is_closer (c : char) : Prop := c = RBRACE \/ c = RBRACKET.

Lemma bracket_step_closers stack c :
  Forall is_closer stack -> Forall is_closer (bracket_step stack c).
Proof.
  intros Hs. unfold bracket_step.
  destruct (c =? LBRACE)%N; [constructor; [now left|exact Hs]|].
  destruct (c =? LBRACKET)%N; [constructor; [now right|exact Hs]|].
  destruct ((c =? RBRACE) || (c =? RBRACKET))%N; [|exact Hs].
  destruct stack as [|top stack']; [exact Hs|].
  destruct (top =? c)%N; [now inversion Hs|exact Hs].
Qed.

Lemma fold_closers s : forall stack,
  Forall is_closer stack -> Forall is_closer (fold_left bracket_step s stack).
Proof.
  induction s as [|c s IH]; intros stack Hs; [exact Hs|].
  simpl. now apply IH, bracket_step_closers.
Qed.

Lemma closers_closers s : Forall is_closer (closers s).
Proof. rewrite closers_fold. apply fold_closers. constructor. Qed.

(** Reading the expected closers, top first, empties the stack. *)
Lemma fold_pop st : forall base,
  Forall is_closer st -> fold_left bracket_step st (st ++ base) = base.
Proof.
  induction st as [|c st IH]; intros base Hst; [reflexivity|].
  inversion Hst as [|? ? Hc Hst']; subst. simpl.
  replace (bracket_step (c :: st ++ base) c) with (st ++ base).
  - now apply IH.
  - unfold bracket_step. destruct Hc as [-> | ->]; simpl; reflexivity.
Qed.

Lemma closers_closed t : closers (t ++ closers t) = [].
Proof.
  rewrite closers_fold, fold_left_app, <- closers_fold.
  rewrite <- (app_nil_r (closers t)) at 2.
  apply fold_pop, closers_closers.
Qed.

Lemma count_app c a b : count c (a ++ b) = (count c a + count c b)%nat.
Proof. unfold count. now rewrite filter_app, length_app. Qed.

Lemma count_quote_closers st :
  Forall is_closer st -> count QUOTE st = 0%nat.
Proof.
  induction 1 as [|c st [-> | ->] _ IH]; [reflexivity|exact IH..].
Qed.

(** [json_str] after the first step of the repair. *)
Definition quote_closed (json_str : str) : str :=
  if Nat.odd (count QUOTE json_str) then json_str ++ [QUOTE] else json_str.

Lemma repair_unfold s :
  repair_truncated_json s
  = quote_closed (strip s) ++ closers (quote_closed (strip s)).
Proof. reflexivity. Qed.

Lemma quote_closed_even t : Nat.odd (count QUOTE (quote_closed t)) = false.
Proof.
  unfold quote_closed. destruct (Nat.odd (count QUOTE t)) eqn:Ho; [|exact Ho].
  rewrite count_app, Nat.odd_add, Ho. reflexivity.
Qed.

Lemma repaired_quotes_even s :
  Nat.odd (count QUOTE (repair_truncated_json s)) = false.
Proof.
  rewrite repair_unfold, count_app, Nat.odd_add, quote_closed_even.
  now rewrite (count_quote_closers _ (closers_closers _)).
Qed.

(** In the repaired text the double quotes are even in number, and no
    bracket the repair counts as open is left open. *)
Theorem repair_closes_what_is_open s :
  Nat.odd (count QUOTE (repair_truncated_json s)) = false
  /\ closers (repair_truncated_json s) = [].
Proof.
  split; [apply repaired_quotes_even|].
  rewrite repair_unfold. apply closers_closed.
Qed.

Lemma closer_nonspace c : is_closer c -> isspace c = false.
Proof. now intros [-> | ->]. Qed.

Lemma repair_stripped s : strip (repair_truncated_json s) = repair_truncated_json s.
Proof.
  apply strip_fixed. rewrite repair_unfold. unfold quote_closed.
  destruct (Nat.odd (count QUOTE (strip s))).
  - rewrite <- app_assoc. apply stripped_app; [apply stripped_strip|].
    constructor; [reflexivity|].
    eapply Forall_impl; [|apply closers_closers]. apply closer_nonspace.
  - apply stripped_app; [apply stripped_strip|].
    eapply Forall_impl; [|apply closers_closers]. apply closer_nonspace.
Qed.

(** Repairing a repaired text changes nothing. *)
Theorem repair_is_idempotent s :
  repair_truncated_json (repair_truncated_json s) = repair_truncated_json s.
Proof.
  rewrite (repair_unfold (repair_truncated_json s)), repair_stripped.
  unfold quote_closed. rewrite repaired_quotes_even.
  rewrite (repair_unfold s) at 2. rewrite closers_closed. apply app_nil_r.
Qed.

Definition BACKQUOTE : char := 96%N.

Lemma not_in_forallb (x : char) (s : str) :
  forallb (fun c => negb (c =? x)%N) s = true -> ~ In x s.
Proof.
  intros H Hin. rewrite forallb_forall in H. specialize (H x Hin).
  now rewrite N.eqb_refl in H.
Qed.

(** Splitting at the fences: a piece without backquote that a fence
    follows is the next piece. *)
Lemma split_go_fence s : forall cur r,
  ~ In BACKQUOTE s ->
  split_go FENCE (s ++ FENCE ++ r) cur 0
  = (rev cur ++ s) :: split_go FENCE r [] 0.
Proof.
  induction s as [|c s IH]; intros cur r Hs.
  - rewrite app_nil_r. reflexivity.
  - change ((c :: s) ++ FENCE ++ r) with (c :: (s ++ FENCE ++ r)).
    cbn [split_go].
    assert (Hsw : startswith FENCE (c :: s ++ FENCE ++ r) = false).
    { unfold FENCE at 1. cbn [startswith].
      destruct (N.eqb_spec 96 c) as [<-|_]; [|reflexivity].
      exfalso; apply Hs; now left. }
    rewrite Hsw, IH.
    + simpl rev. now rewrite <- app_assoc.
    + intros Hin. apply Hs. now right.
Qed.

Lemma strip_fenced before block after :
  strip (before ++ FENCE ++ block ++ FENCE ++ after)
  = lstrip before ++ FENCE ++ block ++ FENCE ++ rstrip after.
Proof.
  unfold strip, FENCE.
  change (before ++ [96; 96; 96] ++ block ++ [96; 96; 96] ++ after)%N
    with (before ++ 96%N :: ([96; 96]%N ++ block ++ [96; 96; 96]%N ++ after)).
  rewrite lstrip_app_nonspace by reflexivity.
  transitivity (rstrip ((lstrip before ++ [96; 96; 96]%N ++ block
                         ++ [96; 96]%N) ++ 96%N :: after)).
  - f_equal. repeat rewrite <- app_assoc. reflexivity.
  - rewrite rstrip_app_nonspace by reflexivity.
    repeat rewrite <- app_assoc. reflexivity.
Qed.

(** A fenced block that parses is what the recovery returns, whatever
    prose stands before the first fence and whatever follows the
    second: the block may carry the language tag, and may parse only
    after the repair. *)
Theorem fenced_json_is_recovered before block after v :
  ~ In BACKQUOTE before ->
  ~ In BACKQUOTE block ->
  parse_block block = Some v ->
  extract_json_from_response (before ++ FENCE ++ block ++ FENCE ++ after)
  = Ok v.
Proof.
  intros Hbefore Hblock Hparse. unfold extract_json_from_response.
  rewrite strip_fenced, contains_app. unfold split.
  rewrite split_go_fence
    by (intros Hin; apply Hbefore; now apply lstrip_incl).
  rewrite split_go_fence by exact Hblock.
  cbn [odd_blocks first_some rev app]. now rewrite Hparse.
Qed.

(** ** The bracket scan *)













End ExtractorProperties.

(** An answer with prose around a fenced block, and the parse of the
    block's text. *)
Definition fenced_interp : Interp :=
  with_json example_interp
    (fun s => if str_eqb s (u "[]") then Some (VList []) else None).

Lemma fenced_json_is_recovered_witness :
  @extract_json_from_response fenced_interp
    (u "Here is the list: " ++ FENCE ++ (u "json" ++ [NL] ++ u "[]" ++ [NL])
       ++ FENCE ++ u " Done.")
  = Ok (VList []).
Proof.
  apply (@fenced_json_is_recovered fenced_interp).
  - apply not_in_forallb. reflexivity.
  - apply not_in_forallb. reflexivity.
  - reflexivity.
Defined.




End AutomatedExtractor.

(** The language model behind [call_llm_api(prompt, config)]: what the
    [n]-th call of a run answers to a prompt, a text or an exception. *)
Class LLM := {
  call_llm_api : nat -> str -> result str
}.

(* ================================================================== *)
(** * [src/workflow.py]: expanding ranges of artifact codes            *)
(* ================================================================== *)

Module ExpandRanges.
Import AutomatedExtractor.
Section Expander.
Context {I : Interp} {L : LLM}.

Definition TILDE : char := 126%N.             (* '~' *)

Definition quoted (s : str) : str := [34%N] ++ s ++ [34%N].

(** The prompt of [_expand_code_with_llm]. *)
Definition expansion_prompt (code : str) : str :=
  unlines
    [ [];
      u "你是一个专业的考古数据处理助手。请将以下包含范围或列表的文物编号字符串，解析展开为标准的独立文物编号列表。";
      [];
      u "示例 1:";
      u "输入: " ++ quoted (u "M7:63-1~3");
      u "输出: [" ++ quoted (u "M7:63-1") ++ u ", " ++ quoted (u "M7:63-2")
        ++ u ", " ++ quoted (u "M7:63-3") ++ u "]";
      [];
      u "示例 2:";
      u "输入: " ++ quoted (u "M7:1、2、5");
      u "输出: [" ++ quoted (u "M7:1") ++ u ", " ++ quoted (u "M7:2")
        ++ u ", " ++ quoted (u "M7:5") ++ u "]";
      [];
      u "示例 3:";
      u "输入: " ++ quoted (u "M7:63-1~63-3");
      u "输出: [" ++ quoted (u "M7:63-1") ++ u ", " ++ quoted (u "M7:63-2")
        ++ u ", " ++ quoted (u "M7:63-3") ++ u "]";
      [];
      u "待处理输入: " ++ quoted code;
      [];
      u "请直接返回JSON字符串列表，不要包含Markdown标记（如 ```json）或其他解释性文字。";
      [] ].

(** [_expand_code_with_llm(code)], as the [calls]-th call of the
    model: any exception, and any answer that is not a list, gives
    the empty list. *)
Definition _expand_code_with_llm (calls : nat) (code : str) : list str :=
  match (response <- call_llm_api calls (expansion_prompt code) ;;
         extract_json_from_response response) with
  | Ok (VList items) => map py_str (filter truthy items)
  | _ => []
  end.

(** The longest run of decimal digits at the end of [s], and what
    stands before it. *)
Definition trailing_digits (s : str) : str * str :=
  let (digits, before) := span isdecimal (rev s) in
  (rev before, rev digits).

(** [re.search(r'^(.*?)(\d+)$', start_full)]: groups 1 and 2.  The
    lazy prefix stops at the first place from which only digits
    follow; [.] does not match a newline. *)
Definition start_match (start_full : str) : option (str * str) :=
  let (prefix, digits) := trailing_digits start_full in
  match digits with
  | [] => None
  | _ => if contains [NL] prefix then None else Some (prefix, digits)
  end.

(** [re.search(r'(\d+)$', end_full)]: group 1. *)
Definition end_match (end_full : str) : option str :=
  match snd (trailing_digits end_full) with
  | [] => None
  | digits => Some digits
  end.

(** The rule layer up to the test of the range: the prefix and the
    two numbers of a code of the form [<prefix><digits>~...<digits>].
    An [int()] that raises is caught like every exception there. *)
Definition parse_range (code : str) : option (str * Z * Z) :=
  if contains [TILDE] code then
    match split [TILDE] code with
    | [part0; part1] =>
        match start_match (strip part0) with
        | Some (prefix, start_digits) =>
            match py_int start_digits with
            | Some start_num =>
                match end_match (strip part1) with
                | Some end_digits =>
                    match py_int end_digits with
                    | Some end_num =>
                        Some (prefix, Z.of_N start_num, Z.of_N end_num)
                    | None => None
                    end
                | None => None
                end
            | None => None
            end
        | None => None
        end
    | _ => None
    end
  else None.

(** [range(start_num, end_num + 1)] *)
Definition range_incl (start_num end_num : Z) : list Z :=
  map (fun i => (start_num + Z.of_nat i)%Z)
      (seq 0 (Z.to_nat (end_num + 1 - start_num))).

(** The codes the rule layer expands [code] into, when it does. *)
Definition rule_codes (code : str) : option (list str) :=
  match parse_range code with
  | Some (prefix, start_num, end_num) =>
      if ((start_num <? end_num) && (end_num - start_num <? 100))%Z
      then Some (map (fun i => prefix ++ str_of_Z i)
                     (range_incl start_num end_num))
      else None
  | None => None
  end.

Definition complex_indicators : list str :=
  [u "、"; u ","; u "，"; u "和"; u "至"; u "&"].

Definition ARTIFACT_CODE : str := u "artifact_code".

(** [code = artifact.get('artifact_code')], normalised. *)
Definition code_of (artifact : dict) : str :=
  match get artifact ARTIFACT_CODE with
  | None | Some VNone => []
  | Some v => strip (py_str v)
  end.

(** [new_artifact = artifact.copy(); new_artifact['artifact_code'] = c] *)
Definition with_code (artifact : dict) (c : str) : dict :=
  set artifact ARTIFACT_CODE (VStr c).

(** The body of the loop for one record: what it appends to
    [expanded], and the number of calls of the model so far. *)
Definition expand_one (calls : nat) (artifact : dict) : list dict * nat :=
  let code := code_of artifact in
  match rule_codes code with
  | Some codes => (map (with_code artifact) codes, calls)
  | None =>
      if existsb (fun ind => contains ind code) complex_indicators
         || contains [TILDE] code
      then
        match _expand_code_with_llm calls code with
        | [] => ([artifact], S calls)
        | expanded_codes => (map (with_code artifact) expanded_codes, S calls)
        end
      else ([artifact], calls)
  end.

(** [_expand_artifact_ranges(artifacts)] *)
Fixpoint expand_from (calls : nat) (artifacts : list dict) : list dict :=
  match artifacts with
  | [] => []
  | artifact :: rest =>
      let (out, calls') := expand_one calls artifact in
      out ++ expand_from calls' rest
  end.

Definition _expand_artifact_ranges (artifacts : list dict) : list dict :=
  expand_from 0 artifacts.

(** ** Properties *)

Lemma parse_range_tilde code r :
  parse_range code = Some r -> contains [TILDE] code = true.
Proof.
  unfold parse_range. destruct (contains [TILDE] code); [reflexivity|].
  discriminate.
Qed.

(** C8 (amended). A record whose code parses as a two-part numeric
    range with end <= start or span >= 100 is not expanded by the
    rule layer; it is handed to the model.  When the model returns
    codes, the record is replaced by one copy per returned code; when
    the model returns no code (or fails), the output is the original
    record, unchanged and alone.  The output is the original record
    alone exactly in two cases: the model returns no code, or it
    returns one code, which is the string the record already has as
    its code. *)
Theorem rejected_range_is_left_to_the_model
        calls artifact prefix start_num end_num :
  parse_range (code_of artifact) = Some (prefix, start_num, end_num) ->
  (end_num <= start_num \/ 100 <= end_num - start_num)%Z ->
  expand_one calls artifact
  = (match _expand_code_with_llm calls (code_of artifact) with
     | [] => [artifact]
     | codes => map (with_code artifact) codes
     end, S calls)
  /\ (_expand_code_with_llm calls (code_of artifact) = [] ->
      expand_one calls artifact = ([artifact], S calls))
  /\ (fst (expand_one calls artifact) = [artifact] <->
      _expand_code_with_llm calls (code_of artifact) = []
      \/ exists c,
           _expand_code_with_llm calls (code_of artifact) = [c]
           /\ get artifact ARTIFACT_CODE = Some (VStr c)).
Proof.
  intros Hparse Hrange.
  assert (Hone : expand_one calls artifact
                 = (match _expand_code_with_llm calls (code_of artifact) with
                    | [] => [artifact]
                    | codes => map (with_code artifact) codes
                    end, S calls)).
  { unfold expand_one, rule_codes. rewrite Hparse.
    rewrite (parse_range_tilde _ _ Hparse), orb_true_r.
    replace ((start_num <? end_num) && (end_num - start_num <? 100))%Z
      with false.
    - destruct (_expand_code_with_llm calls (code_of artifact)); reflexivity.
    - symmetry. apply andb_false_iff.
      destruct Hrange; [left; apply Z.ltb_ge | right; apply Z.ltb_ge]; lia. }
  split; [exact Hone|]. split.
  - intros Hnone. now rewrite Hone, Hnone.
  - rewrite Hone. cbn [fst].
    destruct (_expand_code_with_llm calls (code_of artifact))
      as [|c [|c2 codes]].
    + split; [now left|reflexivity].
    + cbn [map]. unfold with_code. split.
      * intros [= Hset]. right. exists c. split; [reflexivity|].
        now apply set_same.
      * intros [Hnil|(c' & [= <-] & Hget)]; [discriminate|].
        f_equal. now apply set_same.
    + cbn [map]. split; [discriminate|].
      intros [Hnil|(c' & Hone' & _)]; discriminate.
Qed.

(** ** What the expansion keeps *)

Lemma get_with_code artifact c k :
  k <> ARTIFACT_CODE -> get (with_code artifact c) k = get artifact k.
Proof.
  intros Hk. unfold with_code. rewrite get_set.
  destruct (str_eqb_spec ARTIFACT_CODE k) as [<-|_]; [congruence|reflexivity].
Qed.

Lemma rule_codes_nonempty code codes :
  rule_codes code = Some codes -> codes <> [].
Proof.
  unfold rule_codes.
  destruct (parse_range code) as [[[prefix start_num] end_num]|];
    [|discriminate].
  destruct (Z.ltb_spec start_num end_num); [|discriminate].
  destruct (end_num - start_num <? 100)%Z; [|discriminate].
  intros [= <-]. unfold range_incl.
  destruct (Z.to_nat (end_num + 1 - start_num)) eqn:Hn; [lia|discriminate].
Qed.

(** The records one record expands into: the record itself, or copies
    of it under other codes, and at least one. *)
Lemma expand_one_variants calls artifact :
  fst (expand_one calls artifact) = [artifact]
  \/ exists c codes,
       fst (expand_one calls artifact) = map (with_code artifact) (c :: codes).
Proof.
  unfold expand_one.
  destruct (rule_codes (code_of artifact)) as [codes|] eqn:Hrule.
  - right. destruct codes as [|c codes].
    + now apply rule_codes_nonempty in Hrule.
    + now exists c, codes.
  - destruct (_ || _); [|now left].
    destruct (_expand_code_with_llm calls (code_of artifact)) as [|c codes];
      [now left|right; now exists c, codes].
Qed.

(** [r] has the fields of [artifact], the code apart. *)
Definition variant_of (artifact r : dict) : Prop :=
  forall k, k <> ARTIFACT_CODE -> get r k = get artifact k.

Lemma expand_one_sound calls artifact r :
  In r (fst (expand_one calls artifact)) -> variant_of artifact r.
Proof.
  destruct (expand_one_variants calls artifact) as [->|(c & codes & ->)].
  - intros [<-|[]] k _. reflexivity.
  - intros Hr k Hk. apply in_map_iff in Hr as (c' & <- & _).
    now apply get_with_code.
Qed.

Lemma expand_one_some calls artifact :
  exists r, In r (fst (expand_one calls artifact)).
Proof.
  destruct (expand_one_variants calls artifact) as [->|(c & codes & ->)];
    eexists; now left.
Qed.

Lemma expand_from_sound artifacts : forall calls r,
  In r (expand_from calls artifacts) ->
  exists artifact n, In artifact artifacts
                     /\ In r (fst (expand_one n artifact)).
Proof.
  induction artifacts as [|a l IH]; intros calls r; simpl; [tauto|].
  destruct (expand_one calls a) as [out calls'] eqn:Hone.
  intros Hr. apply in_app_or in Hr as [Hr|Hr].
  - exists a, calls. rewrite Hone. split; [now left|exact Hr].
  - destruct (IH _ _ Hr) as (b & n & Hb & Hr').
    exists b, n. split; [now right|exact Hr'].
Qed.

Lemma expand_from_complete artifacts : forall calls artifact,
  In artifact artifacts ->
  exists n, incl (fst (expand_one n artifact)) (expand_from calls artifacts).
Proof.
  induction artifacts as [|a l IH]; intros calls artifact; simpl; [tauto|].
  destruct (expand_one calls a) as [out calls'] eqn:Hone.
  intros [<-|Hin].
  - exists calls. rewrite Hone. apply incl_appl, incl_refl.
  - destruct (IH calls' _ Hin) as (n & Hn). exists n.
    now apply incl_appr.
Qed.

(** The expansion drops no record: every record that goes in has a
    record in the output that carries its fields, the code apart. *)
Theorem no_record_is_lost artifacts artifact :
  In artifact artifacts ->
  exists r, In r (_expand_artifact_ranges artifacts)
            /\ variant_of artifact r.
Proof.
  intros Hin. unfold _expand_artifact_ranges.
  destruct (expand_from_complete artifacts 0 artifact Hin) as (n & Hn).
  destruct (expand_one_some n artifact) as (r & Hr).
  exists r. split; [now apply Hn|]. exact (expand_one_sound n artifact r Hr).
Qed.

(** The expansion invents no record: every record that comes out has
    the fields of a record that went in, the code apart. *)
Theorem expansion_changes_only_the_code artifacts r :
  In r (_expand_artifact_ranges artifacts) ->
  exists artifact, In artifact artifacts /\ variant_of artifact r.
Proof.
  intros Hr. apply expand_from_sound in Hr as (a & n & Ha & Hr).
  exists a. split; [exact Ha|]. exact (expand_one_sound n a r Hr).
Qed.

(** A code without range sign and without list sign. *)
Definition plain (artifact : dict) : bool :=
  negb (existsb (fun ind => contains ind (code_of artifact))
                complex_indicators
        || contains [TILDE] (code_of artifact)).

Lemma expand_one_plain calls artifact :
  plain artifact = true -> expand_one calls artifact = ([artifact], calls).
Proof.
  unfold plain, expand_one, rule_codes, parse_range. intros Hp.
  apply negb_true_iff in Hp. rewrite Hp.
  apply orb_false_iff in Hp as [_ Ht]. now rewrite Ht.
Qed.

(** Records whose codes hold neither [~] nor one of the list signs
    pass through unchanged, and the model is not asked. *)
Theorem plain_codes_are_left_alone artifacts :
  forallb plain artifacts = true ->
  _expand_artifact_ranges artifacts = artifacts
  /\ forall artifact calls, In artifact artifacts ->
                            snd (expand_one calls artifact) = calls.
Proof.
  intros Hp. split.
  - unfold _expand_artifact_ranges. generalize 0%nat as calls.
    induction artifacts as [|a l IH]; intros calls; [reflexivity|].
    simpl in Hp. apply andb_true_iff in Hp as [Ha Hl].
    simpl. rewrite (expand_one_plain calls a Ha). simpl.
    now rewrite IH.
  - intros a calls Ha. rewrite forallb_forall in Hp.
    now rewrite (expand_one_plain calls a (Hp a Ha)).
Qed.

(** ** A well-formed range *)

Lemma decimal_digit_char d :
  (d < 10)%nat -> decimal (digit_char d) = Some (N.of_nat d).
Proof.
  intros Hd. unfold decimal, digit_char, is_ascii.
  destruct (N.ltb_spec (48 + N.of_nat d) 128); [|lia].
  destruct (N.leb_spec 48 (48 + N.of_nat d)); [|lia].
  destruct (N.leb_spec (48 + N.of_nat d) 57); [|lia].
  cbn [andb]. f_equal. lia.
Qed.

Lemma digit_char_nonspace d : (d < 10)%nat -> isspace (digit_char d) = false.
Proof. intros Hd. do 10 (destruct d as [|d]; [reflexivity|]). lia. Qed.

Lemma digits_fuel_acc fuel : forall n acc,
  digits_fuel fuel n acc = digits_fuel fuel n [] ++ acc.
Proof.
  induction fuel as [|fuel IH]; intros n acc; [reflexivity|].
  cbn [digits_fuel]. destruct (n / 10 =? 0)%nat; [reflexivity|].
  rewrite IH, (IH _ [_]), <- app_assoc. reflexivity.
Qed.

Lemma digits_fuel_all (P : char -> Prop) fuel : forall n,
  (forall d, (d < 10)%nat -> P (digit_char d)) ->
  Forall P (digits_fuel fuel n []).
Proof.
  intros n HP. revert n.
  induction fuel as [|fuel IH]; intros n; [constructor|].
  cbn [digits_fuel]. assert (Hd : P (digit_char (n mod 10))).
  { apply HP. apply Nat.mod_upper_bound. lia. }
  destruct (n / 10 =? 0)%nat; [now constructor|].
  rewrite digits_fuel_acc. apply Forall_app; split; [apply IH|].
  now constructor.
Qed.

Lemma int_of_digits_snoc s c d :
  decimal c = Some d ->
  int_of_digits (s ++ [c]) = (int_of_digits s * 10 + d)%N.
Proof.
  intros Hc. unfold int_of_digits. rewrite fold_left_app. simpl.
  now rewrite Hc.
Qed.

Lemma digits_fuel_value fuel : forall n,
  (n < fuel)%nat ->
  int_of_digits (digits_fuel fuel n []) = N.of_nat n
  /\ digits_fuel fuel n [] <> [].
Proof.
  induction fuel as [|fuel IH]; intros n Hn; [lia|].
  cbn [digits_fuel].
  assert (Hd : decimal (digit_char (n mod 10)) = Some (N.of_nat (n mod 10))).
  { apply decimal_digit_char. apply Nat.mod_upper_bound. lia. }
  pose proof (Nat.div_mod_eq n 10) as Hdm.
  destruct (Nat.eqb_spec (n / 10) 0) as [Hz|Hnz].
  - split; [|discriminate].
    change [digit_char (n mod 10)] with ([] ++ [digit_char (n mod 10)]).
    rewrite (int_of_digits_snoc [] _ _ Hd).
    unfold int_of_digits. cbn [fold_left]. lia.
  - rewrite digits_fuel_acc.
    destruct (IH (n / 10)%nat) as [Hv _]; [lia|]. split.
    + rewrite (int_of_digits_snoc _ _ _ Hd), Hv. lia.
    + intros H. now apply app_eq_nil in H as [_ H].
Qed.

Lemma str_of_nat_value n :
  int_of_digits (str_of_nat n) = N.of_nat n /\ str_of_nat n <> [].
Proof. apply digits_fuel_value. lia. Qed.

Lemma str_of_nat_decimal n :
  Forall (fun c => isdecimal c = true) (str_of_nat n).
Proof.
  apply digits_fuel_all. intros d Hd. unfold isdecimal.
  now rewrite (decimal_digit_char d Hd).
Qed.

Lemma str_of_nat_nonspace n :
  Forall (fun c => isspace c = false) (str_of_nat n).
Proof. apply digits_fuel_all, digit_char_nonspace. Qed.

Lemma str_of_nat_no_tilde n : ~ In TILDE (str_of_nat n).
Proof.
  assert (H : Forall (fun c => c <> TILDE) (str_of_nat n)).
  { apply digits_fuel_all. intros d Hd. unfold digit_char, TILDE. lia. }
  rewrite Forall_forall in H. intros Hin. now apply (H _ Hin).
Qed.

Lemma span_app_all (f : char -> bool) a b :
  Forall (fun c => f c = true) a ->
  (forall c t, b = c :: t -> f c = false) ->
  span f (a ++ b) = (a, b).
Proof.
  intros Ha Hb. induction Ha as [|x a Hx _ IH]; simpl.
  - destruct b as [|c t]; [reflexivity|]. simpl.
    now rewrite (Hb c t eq_refl).
  - now rewrite Hx, IH.
Qed.

(** A prefix the rule layer reads as it stands: no white space, no
    [~], and no decimal digit at its end. *)
Definition clean (p : str) : bool :=
  forallb (fun c => negb (isspace c) && negb (c =? TILDE)%N) p
  && match rev p with
     | c :: _ => negb (isdecimal c)
     | [] => true
     end.

(** [int(s)] accepts a digit string as long as [s]. *)
Definition fits (s : str) : Prop :=
  match int_max_str_digits with
  | Some limit => (List.length s <= limit)%nat
  | None => True
  end.

Lemma clean_chars p :
  clean p = true ->
  Forall (fun c => isspace c = false) p /\ ~ In TILDE p.
Proof.
  unfold clean. intros H. apply andb_true_iff in H as [H _].
  rewrite forallb_forall in H. split.
  - apply Forall_forall. intros c Hc. specialize (H c Hc).
    apply andb_true_iff in H as [H _]. now apply negb_true_iff in H.
  - intros Hin. specialize (H _ Hin).
    apply andb_true_iff in H as [_ H]. now rewrite N.eqb_refl in H.
Qed.

Lemma trailing_digits_app p n :
  clean p = true -> trailing_digits (p ++ str_of_nat n) = (p, str_of_nat n).
Proof.
  intros Hp. unfold trailing_digits. rewrite rev_app_distr.
  rewrite (span_app_all isdecimal (rev (str_of_nat n)) (rev p)).
  - now rewrite !rev_involutive.
  - apply Forall_rev, str_of_nat_decimal.
  - intros c t Hrev. unfold clean in Hp.
    apply andb_true_iff in Hp as [_ Hp]. rewrite Hrev in Hp.
    now apply negb_true_iff in Hp.
Qed.

Lemma py_int_str n :
  fits (str_of_nat n) -> py_int (str_of_nat n) = Some (N.of_nat n).
Proof.
  unfold fits, py_int. destruct (str_of_nat_value n) as [-> _].
  destruct int_max_str_digits as [limit|]; [|reflexivity].
  intros Hfit. destruct (Nat.ltb_spec limit (List.length (str_of_nat n)));
    [lia|reflexivity].
Qed.

Lemma strip_nonspace s : Forall (fun c => isspace c = false) s -> strip s = s.
Proof.
  intros Hs. rewrite Forall_forall in Hs.
  apply strip_fixed. split; intros c t ->; apply Hs.
  - now left.
  - apply in_or_app. right; now left.
Qed.

Lemma contains_single c s : contains [c] s = true -> In c s.
Proof.
  induction s as [|x s IH]; simpl; [discriminate|].
  destruct (N.eqb_spec c x) as [->|_]; [now left|].
  simpl. intros H. right. now apply IH.
Qed.

Lemma split_go_none s : forall cur,
  ~ In TILDE s -> split_go [TILDE] s cur 0 = [rev cur ++ s].
Proof.
  induction s as [|c s IH]; intros cur Hs.
  - simpl. now rewrite app_nil_r.
  - cbn [split_go startswith].
    destruct (N.eqb_spec TILDE c) as [<-|_];
      [exfalso; apply Hs; now left|].
    cbn [andb]. rewrite IH by (intros Hin; apply Hs; now right).
    simpl rev. now rewrite <- app_assoc.
Qed.

Lemma split_go_tilde s y : forall cur,
  ~ In TILDE s ->
  split_go [TILDE] (s ++ TILDE :: y) cur 0
  = (rev cur ++ s) :: split_go [TILDE] y [] 0.
Proof.
  induction s as [|c s IH]; intros cur Hs.
  - cbn [app split_go startswith]. rewrite N.eqb_refl. cbn [andb].
    now rewrite app_nil_r.
  - change ((c :: s) ++ TILDE :: y) with (c :: (s ++ TILDE :: y)).
    cbn [split_go startswith].
    destruct (N.eqb_spec TILDE c) as [<-|_];
      [exfalso; apply Hs; now left|].
    cbn [andb]. rewrite IH by (intros Hin; apply Hs; now right).
    simpl rev. now rewrite <- app_assoc.
Qed.

Lemma parse_range_well_formed p q a b :
  clean p = true -> clean q = true ->
  fits (str_of_nat a) -> fits (str_of_nat b) ->
  parse_range (p ++ str_of_nat a ++ [TILDE] ++ q ++ str_of_nat b)
  = Some (p, Z.of_nat a, Z.of_nat b).
Proof.
  intros Hp Hq Ha Hb.
  destruct (clean_chars p Hp) as [Hps Hpt].
  destruct (clean_chars q Hq) as [Hqs Hqt].
  unfold parse_range.
  replace (p ++ str_of_nat a ++ [TILDE] ++ q ++ str_of_nat b)
    with ((p ++ str_of_nat a) ++ [TILDE] ++ (q ++ str_of_nat b))
    by now rewrite <- app_assoc.
  rewrite (contains_app [TILDE] (p ++ str_of_nat a) (q ++ str_of_nat b)).
  unfold split. cbn [app].
  rewrite split_go_tilde, split_go_none.
  - cbn [rev app].
    rewrite !strip_nonspace
      by (apply Forall_app; split;
          [assumption|apply str_of_nat_nonspace]).
    unfold start_match, end_match. rewrite !trailing_digits_app by assumption.
    cbn [snd].
    destruct (str_of_nat_value a) as [_ Hna].
    destruct (str_of_nat_value b) as [_ Hnb].
    destruct (str_of_nat a) as [|ca sa] eqn:Hsa; [congruence|].
    destruct (str_of_nat b) as [|cb sb] eqn:Hsb; [congruence|].
    rewrite <- Hsa, <- Hsb. rewrite <- Hsa in Ha. rewrite <- Hsb in Hb.
    destruct (contains [NL] p) eqn:Hnl.
    + apply contains_single in Hnl. rewrite Forall_forall in Hps.
      now specialize (Hps _ Hnl).
    + rewrite !py_int_str by assumption. rewrite !nat_N_Z. reflexivity.
  - intros Hin. apply in_app_or in Hin as [Hin|Hin];
      [contradiction|now apply str_of_nat_no_tilde in Hin].
  - intros Hin. apply in_app_or in Hin as [Hin|Hin];
      [contradiction|now apply str_of_nat_no_tilde in Hin].
Qed.

Lemma str_of_Z_nat n : str_of_Z (Z.of_nat n) = str_of_nat n.
Proof.
  unfold str_of_Z. destruct (Z.ltb_spec (Z.of_nat n) 0); [lia|].
  now rewrite Nat2Z.id.
Qed.

(** A range written [<prefix><a>~<q><b>] with [a < b < a + 100] is
    expanded by the rule layer into the codes [<prefix><a>],
    [<prefix><a+1>], ... [<prefix><b>], one copy of the record for
    each, without the model being asked. *)
Theorem well_formed_range_is_expanded calls artifact p q a b :
  get artifact ARTIFACT_CODE
  = Some (VStr (p ++ str_of_nat a ++ [TILDE] ++ q ++ str_of_nat b)) ->
  clean p = true -> clean q = true ->
  fits (str_of_nat a) -> fits (str_of_nat b) ->
  (a < b < a + 100)%nat ->
  expand_one calls artifact
  = (map (fun i => with_code artifact (p ++ str_of_nat (a + i)))
         (seq 0 (b + 1 - a)), calls).
Proof.
  intros Hcode Hp Hq Ha Hb Hab.
  destruct (clean_chars p Hp) as [Hps _].
  destruct (clean_chars q Hq) as [Hqs _].
  unfold expand_one, code_of. rewrite Hcode. cbn [py_str].
  rewrite strip_nonspace.
  - unfold rule_codes. rewrite parse_range_well_formed by assumption.
    destruct (Z.ltb_spec (Z.of_nat a) (Z.of_nat b)); [|lia].
    destruct (Z.ltb_spec (Z.of_nat b - Z.of_nat a) 100); [|lia].
    cbn [andb]. f_equal. unfold range_incl. rewrite !map_map.
    replace (Z.to_nat (Z.of_nat b + 1 - Z.of_nat a)) with (b + 1 - a)%nat
      by lia.
    apply map_ext. intros i. now rewrite <- Nat2Z.inj_add, str_of_Z_nat.
  - repeat (apply Forall_app; split);
      try assumption; try apply str_of_nat_nonspace.
    now constructor.
Qed.

End Expander.

(** A record whose range runs backwards. *)
Definition reversed_range : dict :=
  [(ARTIFACT_CODE, VStr (u "M7:5~3")); (u "subtype", VStr (u "罐"))].

(** A model that is out of reach. *)
Definition silent_llm : LLM :=
  {| call_llm_api := fun _ _ => Raise (OtherError (u "connection refused")) |}.

Lemma rejected_range_is_left_to_the_model_witness :
  @expand_one example_interp silent_llm 0 reversed_range
  = ([reversed_range], 1%nat).
Proof.
  refine (proj1 (proj2 (@rejected_range_is_left_to_the_model
                          example_interp silent_llm 0 reversed_range
                          (u "M7:") 5 3 _ _)) _).
  - reflexivity.
  - left. lia.
  - reflexivity.
Defined.

(** A model that answers with a list of codes, and the parse of its
    answer. *)
Definition answer : str :=
  u "[" ++ quoted (u "M7:3") ++ u ", " ++ quoted (u "M7:4") ++ u ", "
    ++ quoted (u "M7:5") ++ u "]".

Definition answering_llm : LLM :=
  {| call_llm_api := fun _ _ => Ok answer |}.

Definition answer_interp : Interp :=
  with_json example_interp
    (fun s => if str_eqb s answer
              then Some (VList [VStr (u "M7:3"); VStr (u "M7:4");
                                VStr (u "M7:5")])
              else None).

(** C8 as stated fails: the range 5~3 has end <= start, and the output
    holds three expanded variants and not the original record. *)
Lemma rejected_range_expanded_by_the_model :
  @parse_range answer_interp (code_of reversed_range)
  = Some (u "M7:", 5%Z, 3%Z)
  /\ @_expand_artifact_ranges answer_interp answering_llm [reversed_range]
     = [ [(ARTIFACT_CODE, VStr (u "M7:3")); (u "subtype", VStr (u "罐"))];
         [(ARTIFACT_CODE, VStr (u "M7:4")); (u "subtype", VStr (u "罐"))];
         [(ARTIFACT_CODE, VStr (u "M7:5")); (u "subtype", VStr (u "罐"))] ].
Proof. split; vm_compute; reflexivity. Qed.

(** A model that answers with the code it was given: the record is
    replaced by one copy under the same code, which is the record. *)
Definition echo : str := u "[" ++ quoted (u "M7:5~3") ++ u "]".

Definition echoing_llm : LLM := {| call_llm_api := fun _ _ => Ok echo |}.

Definition echo_interp : Interp :=
  with_json example_interp
    (fun s => if str_eqb s echo
              then Some (VList [VStr (u "M7:5~3")])
              else None).

Lemma echoed_code_leaves_the_record :
  @_expand_code_with_llm echo_interp echoing_llm 0 (u "M7:5~3")
  = [u "M7:5~3"]
  /\ @_expand_artifact_ranges echo_interp echoing_llm [reversed_range]
     = [reversed_range].
Proof. split; vm_compute; reflexivity. Qed.

(** A record with a plain code, and the record of the first example
    of the expansion prompt. *)
Definition plain_record : dict :=
  [(ARTIFACT_CODE, VStr (u "M12:1")); (u "subtype", VStr (u "罐"))].

Definition ranged_record : dict :=
  [(ARTIFACT_CODE, VStr (u "M7:63-1~3")); (u "subtype", VStr (u "玉管"))].

Lemma no_record_is_lost_witness :
  exists r, In r (@_expand_artifact_ranges example_interp silent_llm
                    [plain_record; reversed_range])
            /\ variant_of reversed_range r.
Proof.
  apply (@no_record_is_lost example_interp silent_llm).
  right; now left.
Defined.

Lemma expansion_changes_only_the_code_witness :
  exists artifact,
    In artifact [reversed_range]
    /\ variant_of artifact
         [(ARTIFACT_CODE, VStr (u "M7:4")); (u "subtype", VStr (u "罐"))].
Proof.
  apply (@expansion_changes_only_the_code answer_interp answering_llm).
  vm_compute. right; now left.
Defined.

Lemma plain_codes_are_left_alone_witness :
  @_expand_artifact_ranges example_interp silent_llm [plain_record]
  = [plain_record]
  /\ forall artifact calls,
       In artifact [plain_record] ->
       snd (@expand_one example_interp silent_llm calls artifact) = calls.
Proof.
  apply (@plain_codes_are_left_alone example_interp silent_llm).
  reflexivity.
Defined.

Lemma well_formed_range_is_expanded_witness :
  @expand_one example_interp silent_llm 0 ranged_record
  = ([ [(ARTIFACT_CODE, VStr (u "M7:63-1")); (u "subtype", VStr (u "玉管"))];
       [(ARTIFACT_CODE, VStr (u "M7:63-2")); (u "subtype", VStr (u "玉管"))];
       [(ARTIFACT_CODE, VStr (u "M7:63-3")); (u "subtype", VStr (u "玉管"))] ],
     0%nat).
Proof.
  apply (@well_formed_range_is_expanded example_interp silent_llm
           0 ranged_record (u "M7:63-") [] 1 3).
  - reflexivity.
  - reflexivity.
  - reflexivity.
  - unfold fits. simpl. lia.
  - unfold fits. simpl. lia.
  - lia.
Defined.

End ExpandRanges.

(* ================================================================== *)
(** * [src/workflow.py]: ExtractionWorkflow._generate_triples          *)
(* ================================================================== *)

Module GenerateTriples.
Section Triples.
Context {I : Interp}.

(** A row of [sys_template_mappings] as the query returns it:
    [(field_name_cn, field_name_en, id, cidoc_property)]; a NULL
    column is [None]. *)
Record mapping := {
  field_name_cn : option str;
  field_name_en : option str;
  id : Z;
  cidoc_property : option str
}.

(** An element of [triples]. *)
Record triple := {
  artifact_type : str;
  artifact_id : Z;
  mapping_id : Z;
  predicate : str;
  object_value : str;
  confidence : value
}.

(** [clean_string(s)]: [re.sub(r'\s+', '', str(s)).lower()] *)
Definition clean_string (s : str) : str :=
  lower (filter (fun c => negb (isspace c)) s).

(** [if name:] on a nullable text column *)
Definition nonempty (name : option str) : option str :=
  match name with
  | Some (c :: s) => Some (c :: s)
  | _ => None
  end.

Definition lookup := list (str * (Z * option str)).

(** [map_lookup], filled row by row. *)
Definition add_row (map_lookup : lookup) (row : mapping) : lookup :=
  let map_lookup :=
    match nonempty (field_name_cn row) with
    | Some name_cn =>
        set map_lookup (clean_string name_cn) (id row, cidoc_property row)
    | None => map_lookup
    end in
  match nonempty (field_name_en row) with
  | Some name_en =>
      set map_lookup (clean_string name_en) (id row, cidoc_property row)
  | None => map_lookup
  end.

Definition build_lookup (mappings : list mapping) : lookup :=
  fold_left add_row mappings [].

Definition EXTRACTION_CONFIDENCE : str := u "extraction_confidence".

(** One iteration of [for key, value in data.items()]. *)
Definition visit (map_lookup : lookup) (data : dict) (type : str) (aid : Z)
           (triples : list triple) (item : str * value) : list triple :=
  let (key, value) := item in
  if negb (truthy value) then triples
  else
    match get map_lookup (clean_string key) with
    | Some (mid, prop) =>
        match nonempty prop with
        | Some p =>
            triples ++
            [{| artifact_type := type;
                artifact_id := aid;
                mapping_id := mid;
                predicate := p;
                object_value := py_str value;
                confidence :=
                  get_default data EXTRACTION_CONFIDENCE (VFloat 1%float) |}]
        | None => triples
        end
    | None => triples
    end.

(** [_generate_triples(data, artifact_type, artifact_id, task_id)]:
    the triples it hands to [insert_fact_triples], given the rows of
    the catalog for [artifact_type]. *)
Definition _generate_triples (mappings : list mapping) (data : dict)
           (type : str) (aid : Z) : list triple :=
  fold_left (visit (build_lookup mappings) data type aid) data [].

(** ** The catalog, read declaratively *)

(** A row answers to a key when one of its two names, cleaned, is the
    cleaned key. *)
Definition answers (ck : str) (row : mapping) : bool :=
  match nonempty (field_name_cn row) with
  | Some n => str_eqb (clean_string n) ck
  | None => false
  end ||
  match nonempty (field_name_en row) with
  | Some n => str_eqb (clean_string n) ck
  | None => false
  end.

(** The row that decides for a key: the last one that answers to it. *)
Definition deciding_row (mappings : list mapping) (key : str)
  : option mapping :=
  List.find (answers (clean_string key)) (rev mappings).

(** The triple a field gives rise to, if any. *)
Definition triple_of (mappings : list mapping) (data : dict) (type : str)
           (aid : Z) (item : str * value) : option triple :=
  if truthy (snd item) then
    match deciding_row mappings (fst item) with
    | Some row =>
        match nonempty (cidoc_property row) with
        | Some p =>
            Some {| artifact_type := type; artifact_id := aid;
                    mapping_id := id row; predicate := p;
                    object_value := py_str (snd item);
                    confidence := get_default data EXTRACTION_CONFIDENCE
                                              (VFloat 1%float) |}
        | None => None
        end
    | None => None
    end
  else None.

Definition yields (mappings : list mapping) (item : str * value) : bool :=
  truthy (snd item) &&
  match deciding_row mappings (fst item) with
  | Some row => match nonempty (cidoc_property row) with
                | Some _ => true | None => false end
  | None => false
  end.

(** What the specification counts: a field whose value is not null
    and whose key has a non-empty relation in the catalog. *)
Definition non_null_mapped (mappings : list mapping) (item : str * value)
  : bool :=
  negb (is_none (snd item)) &&
  match deciding_row mappings (fst item) with
  | Some row => match nonempty (cidoc_property row) with
                | Some _ => true | None => false end
  | None => false
  end.

(** ** Properties *)

Lemma get_add_row map_lookup row ck :
  get (add_row map_lookup row) ck
  = if answers ck row then Some (id row, cidoc_property row)
    else get map_lookup ck.
Proof.
  unfold add_row, answers.
  destruct (nonempty (field_name_cn row)) as [cn|];
    destruct (nonempty (field_name_en row)) as [en|];
    rewrite ?get_set; simpl;
    repeat match goal with
           | |- context [str_eqb ?a ?b] => destruct (str_eqb a b); simpl
           end; reflexivity.
Qed.

Lemma find_snoc {A} (f : A -> bool) l x :
  List.find f (l ++ [x])
  = match List.find f l with
    | Some y => Some y
    | None => if f x then Some x else None
    end.
Proof.
  induction l as [|a l IH]; simpl; [reflexivity|].
  destruct (f a); [reflexivity|exact IH].
Qed.

Lemma get_fold_add_row mappings : forall map_lookup ck,
  get (fold_left add_row mappings map_lookup) ck
  = match List.find (answers ck) (rev mappings) with
    | Some row => Some (id row, cidoc_property row)
    | None => get map_lookup ck
    end.
Proof.
  induction mappings as [|row mappings IH]; intros map_lookup ck; simpl.
  - reflexivity.
  - rewrite IH, find_snoc, get_add_row.
    destruct (List.find (answers ck) (rev mappings)); [reflexivity|].
    destruct (answers ck row); reflexivity.
Qed.

(** The lookup table answers with the last row that matches. *)
Lemma build_lookup_spec mappings key :
  get (build_lookup mappings) (clean_string key)
  = option_map (fun row => (id row, cidoc_property row))
               (deciding_row mappings key).
Proof.
  unfold build_lookup, deciding_row. rewrite get_fold_add_row.
  destruct (List.find _ _); reflexivity.
Qed.

Definition to_list {A} (o : option A) : list A :=
  match o with Some x => [x] | None => [] end.

Lemma visit_spec mappings data type aid triples item :
  visit (build_lookup mappings) data type aid triples item
  = triples ++ to_list (triple_of mappings data type aid item).
Proof.
  destruct item as [key value]. unfold visit, triple_of; simpl.
  rewrite build_lookup_spec.
  destruct (truthy value); simpl; [|now rewrite app_nil_r].
  destruct (deciding_row mappings key) as [row|]; simpl;
    [|now rewrite app_nil_r].
  destruct (nonempty (cidoc_property row)); simpl;
    [reflexivity|now rewrite app_nil_r].
Qed.

Lemma fold_visit mappings data type aid items : forall triples,
  fold_left (visit (build_lookup mappings) data type aid) items triples
  = triples
    ++ flat_map (fun item => to_list (triple_of mappings data type aid item))
                items.
Proof.
  induction items as [|item items IH]; intros triples; simpl.
  - now rewrite app_nil_r.
  - now rewrite IH, visit_spec, <- app_assoc.
Qed.

Lemma length_flat_map_filter {A B} (f : A -> option B) (p : A -> bool) l :
  (forall x, p x = match f x with Some _ => true | None => false end) ->
  List.length (flat_map (fun x => to_list (f x)) l)
  = List.length (filter p l).
Proof.
  intros Hp. induction l as [|x l IH]; simpl; [reflexivity|].
  rewrite length_app, IH, Hp. destruct (f x); reflexivity.
Qed.

(** C7 (amended). [_generate_triples] emits, in the order of the
    record, exactly one triple for every field whose value is truthy
    (not null, not False, not a numeric zero, not an empty string,
    list or object), whose cleaned key is a cleaned display name or
    storage key of the catalog, and whose relation, taken from the
    last catalog row that answers to the key, is non-empty; it emits
    nothing else. *)
Theorem one_triple_per_truthy_mapped_field mappings data type aid :
  _generate_triples mappings data type aid
  = flat_map (fun item => to_list (triple_of mappings data type aid item))
             data
  /\ List.length (_generate_triples mappings data type aid)
     = List.length (filter (yields mappings) data)
  /\ (forall item, yields mappings item = true ->
                   non_null_mapped mappings item = true).
Proof.
  assert (E : _generate_triples mappings data type aid
              = flat_map (fun item =>
                            to_list (triple_of mappings data type aid item))
                         data).
  { unfold _generate_triples. now rewrite fold_visit. }
  split; [exact E|]. split.
  - rewrite E. apply length_flat_map_filter.
    intros [key value]. unfold yields, triple_of; simpl.
    destruct (truthy value); simpl; [|reflexivity].
    destruct (deciding_row mappings key) as [row|]; [|reflexivity].
    destruct (nonempty (cidoc_property row)); reflexivity.
  - intros [key value] H. unfold yields, non_null_mapped in *; simpl in *.
    apply andb_true_iff in H as [Ht Hm]. rewrite Hm.
    destruct value; simpl in *; try discriminate; reflexivity.
Qed.

End Triples.

(** A catalog of two fields, each with a relation, and a record whose
    height is 0 and whose colour is the empty string. *)
Definition catalog : list mapping :=
  [ {| field_name_cn := Some (u "高度"); field_name_en := Some (u "height");
       id := 1; cidoc_property := Some (u "P43_has_dimension") |};
    {| field_name_cn := Some (u "颜色"); field_name_en := Some (u "color");
       id := 2; cidoc_property := Some (u "P56_bears_feature") |} ].

Definition zero_and_empty : dict :=
  [ (u "artifact_code", VNone); (u "高度", VInt 0); (u "Color ", VStr []) ].

(** C7 as stated fails: two fields are non-null and mapped with a
    relation, and no triple is emitted. *)
Lemma zero_and_empty_yield_no_triple :
  filter (non_null_mapped catalog) zero_and_empty
  = [ (u "高度", VInt 0); (u "Color ", VStr []) ]
  /\ _generate_triples catalog zero_and_empty (u "pottery") 7 = [].
Proof. split; vm_compute; reflexivity. Qed.

(** The same record with a height of 15 and the colour 红. *)
Lemma filled_fields_yield_triples :
  _generate_triples catalog
    [ (u "artifact_code", VNone); (u "高度", VInt 15);
      (u "Color ", VStr (u "红")) ] (u "pottery") 7
  = [ {| artifact_type := u "pottery"; artifact_id := 7; mapping_id := 1;
         predicate := u "P43_has_dimension"; object_value := u "15";
         confidence := VFloat 1%float |};
      {| artifact_type := u "pottery"; artifact_id := 7; mapping_id := 2;
         predicate := u "P56_bears_feature"; object_value := u "红";
         confidence := VFloat 1%float |} ].
Proof. vm_compute. reflexivity. Qed.

End GenerateTriples.

(* ================================================================== *)
(** * [src/image_manager.py]: the content list                         *)
(* ================================================================== *)

Module ImageManager.
Section Manager.
Context {I : Interp}.

(** An item of [content_list.json], as the layout tool writes it: its
    [type] and [text] are strings when present.  [ids] holds the
    fields [image_hash], [hash], [id] and [path] the item has, with
    whatever values they have. *)
Record item := {
  type : option str;
  text : option str;
  page_idx : value;             (* [item.get('page_idx')] *)
  bbox : value;                 (* [item.get('bbox', [])] *)
  ids : dict
}.

(** [self.content_list]: [None] when the report has no content list. *)
Definition content_list := option (list item).

(** [if not self.content_list] *)
Definition items_of (cl : content_list) : list item :=
  match cl with Some l => l | None => [] end.

Definition opt_str_eqb (a b : option str) : bool :=
  match a, b with
  | Some x, Some y => str_eqb x y
  | None, None => true
  | _, _ => false
  end.

(** [item.get('type') == 'image'], [... == 'text'] *)
Definition is_image (it : item) : bool := opt_str_eqb (type it) (Some (u "image")).
Definition is_text (it : item) : bool := opt_str_eqb (type it) (Some (u "text")).

(** [item.get('text', '')] *)
Definition text_of (it : item) : str :=
  match text it with Some s => s | None => [] end.

(** [a == b] on items *)
Definition item_eqb (a b : item) : bool :=
  opt_str_eqb (type a) (type b) && opt_str_eqb (text a) (text b)
  && py_eq (page_idx a) (page_idx b) && py_eq (bbox a) (bbox b)
  && py_eq (VDict (ids a)) (VDict (ids b)).

Definition SLASH : char := 47%N.
Definition DOT : char := 46%N.

(** [os.path.basename(p)] (POSIX): what follows the last slash. *)
Definition basename (p : str) : str :=
  rev (fst (span (fun c => negb (c =? SLASH)%N) (rev p))).

(** [os.path.splitext(p)[0]] for a [p] without slash: [p] without its
    last extension; leading dots do not start an extension. *)
Definition splitext_root (p : str) : str :=
  let (ext_rev, before_rev) := span (fun c => negb (c =? DOT)%N) (rev p) in
  match before_rev with
  | [] => p                                     (* no dot *)
  | _ :: root_rev =>
      if forallb (N.eqb DOT) root_rev then p     (* only dots before it *)
      else rev root_rev
  end.

(** [_extract_hash_from_item(item)] *)
Definition _extract_hash_from_item (it : item) : option str :=
  first_some
    (fun field =>
       match get (ids it) field with
       | Some (VStr v) =>
           if contains [SLASH] v || contains [92%N] v
           then Some (splitext_root (basename v))
           else Some v
       | _ => None
       end)
    [u "image_hash"; u "hash"; u "id"; u "path"].

(** [range(max(0, idx - distance), min(len(l), idx + distance + 1))],
    with the items at these indices. *)
Definition window {A} (l : list A) (idx distance : nat) : list (nat * A) :=
  let lo := idx - distance in
  let hi := Nat.min (List.length l) (idx + distance + 1) in
  combine (seq lo (hi - lo)) (firstn (hi - lo) (skipn lo l)).

(** [l.index(x)] *)
Fixpoint index_of (eqb : item -> item -> bool) (x : item) (l : list item)
  : option nat :=
  match l with
  | [] => None
  | y :: l' =>
      if eqb y x then Some 0
      else option_map S (index_of eqb x l')
  end.

(** [_extract_nearby_text(image_item, distance)] *)
Definition _extract_nearby_text (cl : content_list) (image_item : item)
           (distance : nat) : str :=
  match index_of item_eqb image_item (items_of cl) with
  | Some idx =>
      let nearby_texts :=
        flat_map (fun p : nat * item =>
                    let it := snd p in
                    if is_text it then
                      match text it with
                      | Some (c :: s) => [c :: s]
                      | _ => []
                      end
                    else [])
                 (window (items_of cl) idx distance) in
      firstn 500 (join (u " ") nearby_texts)
  | None => []
  end.

(** The caption that follows the image at index [i], if one of the
    next four items is a text starting with 图 or Fig. *)
Definition caption_after (l : list item) (i : nat) : option str :=
  first_some
    (fun next_item : item =>
       if is_text next_item then
         let t := strip (text_of next_item) in
         match t with
         | [] => None
         | _ => if startswith (u "图") t || startswith (u "Fig") t
                   || startswith (u "图版") t
                then Some t else None
         end
       else None)
    (firstn 4 (skipn (S i) l)).

(** [extract_image_caption(image_hash)] *)
Definition extract_image_caption (cl : content_list)
           (image_hash : option str) : str :=
  let l := items_of cl in
  match List.find (fun p : nat * item =>
                     is_image (snd p)
                     && opt_str_eqb (_extract_hash_from_item (snd p))
                                    image_hash)
                  (combine (seq 0 (List.length l)) l) with
  | Some (i, it) =>
      match caption_after l i with
      | Some t => t
      | None => _extract_nearby_text cl it 2
      end
  | None => []
  end.

End Manager.
(** ** The name of an image *)

Section ManagerProperties.
Context {I : Interp}.

Lemma basename_no_slash p : ~ In SLASH (basename p).
Proof.
  unfold basename. intros Hin. apply in_rev in Hin.
  pose proof (span_fst_all (fun c => negb (c =? SLASH)%N) (rev p)) as Hall.
  rewrite Forall_forall in Hall. specialize (Hall _ Hin).
  now rewrite N.eqb_refl in Hall.
Qed.

Lemma splitext_root_incl p c : In c (splitext_root p) -> In c p.
Proof.
  unfold splitext_root.
  pose proof (span_app (fun c => negb (c =? DOT)%N) (rev p)) as Happ.
  destruct (span (fun c => negb (c =? DOT)%N) (rev p))
    as [ext_rev before_rev].
  simpl in Happ. destruct before_rev as [|dot root_rev]; [tauto|].
  destruct (forallb (N.eqb DOT) root_rev); [tauto|].
  intros Hin. apply in_rev. rewrite <- Happ.
  apply in_or_app. right. right. now apply in_rev.
Qed.

(** The name [_extract_hash_from_item] gives an image holds no slash:
    of a path, only the file name without its extension is kept. *)
Theorem hash_is_never_a_path it h :
  _extract_hash_from_item it = Some h -> ~ In SLASH h.
Proof.
  unfold _extract_hash_from_item. intros H.
  apply first_some_In in H as (field & _ & H).
  destruct (get (ids it) field) as [[| | | | v | |]|]; try discriminate.
  destruct (contains [SLASH] v) eqn:Hs; simpl in H.
  - injection H as <-. intros Hin.
    apply splitext_root_incl in Hin. now apply basename_no_slash in Hin.
  - destruct (contains [92%N] v); injection H as <-.
    + intros Hin. apply splitext_root_incl in Hin.
      now apply basename_no_slash in Hin.
    + intros Hin. apply in_contains_single in Hin. congruence.
Qed.

End ManagerProperties.

Definition image_with_path : item :=
  {| type := Some (u "image"); text := None; page_idx := VInt 3;
     bbox := VList [];
     ids := [(u "path", VStr (u "images/a1b2c3.jpg"))] |}.

Lemma hash_is_never_a_path_witness :
  _extract_hash_from_item image_with_path = Some (u "a1b2c3")
  /\ ~ In SLASH (u "a1b2c3").
Proof.
  split; [reflexivity|].
  apply (hash_is_never_a_path image_with_path). reflexivity.
Defined.

End ImageManager.

(* ================================================================== *)
(** * [src/image_linker.py]: ImageLinker                               *)
(* ================================================================== *)

Module ImageLinker.
Import ImageManager.
Section Linker.
Context {I : Interp}.

(** A candidate image, as the strategies build it. *)
Record candidate := {
  image_hash : option str;
  page_idx : value;
  bbox : value;
  caption : str;
  confidence : option float;
  match_method : option str;
  distance_from_text : option nat
}.

(** [img['confidence'] = c; img['match_method'] = m] *)
Definition tagged (c : float) (m : str) (img : candidate) : candidate :=
  {| image_hash := image_hash img; page_idx := page_idx img;
     bbox := bbox img; caption := caption img;
     confidence := Some c; match_method := Some m;
     distance_from_text := distance_from_text img |}.

(** [if s:] on an optional string *)
Definition truthy_str (s : option str) : bool :=
  match s with Some (_ :: _) => true | _ => false end.

Definition abs_diff (a b : nat) : nat := (a - b) + (b - a).

(** [_find_nearby_images(text_index, distance)] *)
Definition _find_nearby_images (cl : content_list) (text_index distance : nat)
  : list candidate :=
  flat_map (fun p : nat * item =>
              let (i, it) := p in
              if is_image it then
                let h := _extract_hash_from_item it in
                if truthy_str h then
                  [{| image_hash := h;
                      page_idx := ImageManager.page_idx it;
                      bbox := ImageManager.bbox it;
                      caption := extract_image_caption cl h;
                      confidence := None;
                      match_method := None;
                      distance_from_text := Some (abs_diff i text_index) |}]
                else []
              else [])
           (window (items_of cl) text_index distance).

Definition indexed (cl : content_list) : list (nat * item) :=
  combine (seq 0 (List.length (items_of cl))) (items_of cl).

(** [_normalize_code(text)]: [re.sub(r'[\s\-_]', '', text)], then the
    full-width colon replaced by the ASCII one. *)
Definition _normalize_code (text : str) : str :=
  replace1 65306%N 58%N
    (filter (fun c => negb (isspace c || (c =? 45)%N || (c =? 95)%N)) text).

(** [_find_images_by_artifact_code(artifact_code)] *)
Definition _find_images_by_artifact_code (cl : content_list)
           (artifact_code : str) : list candidate :=
  flat_map (fun p : nat * item =>
              let (i, it) := p in
              if is_text it then
                let text := text_of it in
                if contains artifact_code text
                   || contains (_normalize_code artifact_code)
                               (_normalize_code text)
                then map (tagged 0.9%float (u "artifact_code"))
                         (_find_nearby_images cl i 5)
                else []
              else [])
           (indexed cl).

Definition key_fields : list str :=
  [u "subtype"; u "category_level1"; u "category_level2";
   u "jade_type"; u "clay_type"; u "shape_unit"; u "decoration_unit"].

(** [_extract_keywords(artifact)], for an artifact whose code is a
    string (the only ones that reach it without a TypeError). *)
Definition _extract_keywords (artifact : dict) : list str :=
  flat_map (fun field =>
              match get artifact field with
              | Some (VStr (c1 :: c2 :: s)) => [c1 :: c2 :: s]
              | _ => []
              end) key_fields
  ++ match get_default artifact (u "artifact_code") (VStr []) with
     | VStr (c :: s) => [c :: s]
     | _ => []
     end.

(** [float(n)] *)
Definition float_of_nat (n : nat) : float :=
  PrimFloat.of_uint63 (Uint63.of_Z (Z.of_nat n)).

(** [0.6 + (match_count * 0.1)] *)
Definition text_confidence (match_count : nat) : float :=
  (0.6 + float_of_nat match_count * 0.1)%float.

(** [sum(1 for kw in keywords if kw in text)] *)
Definition match_count (keywords : list str) (text : str) : nat :=
  List.length (filter (fun kw => contains kw text) keywords).

(** [_find_images_by_text_content(artifact)] *)
Definition _find_images_by_text_content (cl : content_list)
           (artifact : dict) : list candidate :=
  let keywords := _extract_keywords artifact in
  flat_map (fun p : nat * item =>
              let (i, it) := p in
              if is_text it then
                let n := match_count keywords (text_of it) in
                if (2 <=? n)%nat
                then map (tagged (text_confidence n) (u "text_content"))
                         (_find_nearby_images cl i 3)
                else []
              else [])
           (indexed cl).

(** [_extract_tomb_code(artifact_code)]: [re.match(r'(M\d+)', code)] *)
Definition _extract_tomb_code (artifact_code : str) : option str :=
  match artifact_code with
  | c :: rest =>
      if (c =? 77)%N then
        match fst (span isdecimal rest) with
        | [] => None
        | digits => Some (c :: digits)
        end
      else None
  | [] => None
  end.

(** [_find_images_by_tomb(artifact_code)] *)
Definition _find_images_by_tomb (cl : content_list) (artifact_code : str)
  : list candidate :=
  match _extract_tomb_code artifact_code with
  | Some tomb_code =>
      flat_map (fun p : nat * item =>
                  let (i, it) := p in
                  if is_text it then
                    let text := text_of it in
                    if contains tomb_code text
                       && existsb (fun keyword => contains keyword text)
                                  [u "墓"; u "墓葬"; u "M"]
                    then map (tagged 0.4%float (u "tomb_context"))
                             (_find_nearby_images cl i 10)
                    else []
                  else [])
               (indexed cl)
  | None => []
  end.

(** The class [[一二三四五六七八九十\d]]. *)
Definition is_ref_number (c : char) : bool :=
  existsb (N.eqb c) (u "一二三四五六七八九十") || isdecimal c.

(** The alternatives of [(图|图版|Fig\.?|Figure)] that match at the
    start of [s], in the order the pattern tries them, each with what
    follows it. *)
Definition ref_prefixes (s : str) : list (str * str) :=
  flat_map (fun prefix =>
              if startswith prefix s
              then [(prefix, skipn (List.length prefix) s)] else [])
           [u "图"; u "图版"; u "Fig."; u "Fig"; u "Figure"].

(** One match of [(图|图版|Fig\.?|Figure)\s*([一二三四五六七八九十\d]+)]
    at the start of [s]: its two groups and its length. *)
Definition match_ref (s : str) : option (str * str * nat) :=
  first_some (fun pr : str * str =>
                let (prefix, rest) := pr in
                let (ws, rest1) := span isspace rest in
                let (num, _) := span is_ref_number rest1 in
                match num with
                | [] => None
                | _ => Some (prefix, num,
                             (List.length prefix + List.length ws
                              + List.length num)%nat)
                end)
             (ref_prefixes s).

(** [re.findall(pattern, text)]: the matches from left to right,
    without overlap; [skip] counts the characters of the last match
    still to be passed. *)
Fixpoint findall_refs (s : str) (skip : nat) : list (str * str) :=
  match s with
  | [] => []
  | _ :: t =>
      match skip with
      | S k => findall_refs t k
      | O =>
          match match_ref s with
          | Some (prefix, num, n) => (prefix, num) :: findall_refs t (n - 1)
          | None => findall_refs t 0
          end
      end
  end.

(** Does an image with this name and caption answer to the reference? *)
Definition ref_matches (h : option str) (cap ref : str) : bool :=
  match h with
  | Some (c :: hs) => contains ref (c :: hs)
  | _ => false
  end
  || match cap with
     | [] => false
     | _ => startswith ref cap || contains (u " " ++ ref ++ u " ") cap
     end.

(** The images of the content list that answer to one of [refs], each
    as a candidate of confidence [c] found by method [m]. *)
Definition images_for (cl : content_list) (refs : list str) (c : float)
           (m : str) : list candidate :=
  flat_map (fun it : item =>
              if is_image it then
                let h := _extract_hash_from_item it in
                let cap := extract_image_caption cl h in
                if existsb (ref_matches h cap) refs
                then [{| image_hash := h;
                         page_idx := ImageManager.page_idx it;
                         bbox := ImageManager.bbox it;
                         caption := cap;
                         confidence := Some c;
                         match_method := Some m;
                         distance_from_text := None |}]
                else []
              else [])
           (items_of cl).

(** [_find_images_by_explicit_reference(artifact_code)] *)
Definition _find_images_by_explicit_reference (cl : content_list)
           (artifact_code : str) : list candidate :=
  let found_refs :=
    flat_map (fun it : item =>
                if is_text it && contains artifact_code (text_of it)
                then flat_map (fun pn : str * str =>
                                 [fst pn ++ snd pn; snd pn])
                              (findall_refs (text_of it) 0)
                else [])
             (items_of cl) in
  match found_refs with
  | [] => []
  | _ => images_for cl found_refs 0.95%float (u "explicit_reference")
  end.

(** [_find_images_by_llm_references(artifact)] *)
Definition _find_images_by_llm_references (cl : content_list)
           (artifact : dict) : list candidate :=
  match get artifact (u "image_references") with
  | Some (VList (r :: refs)) =>
      flat_map (fun ref =>
                  let ref_str := strip (py_str ref) in
                  match ref_str with
                  | [] => []
                  | _ => images_for cl [ref_str] 0.98%float
                                    (u "llm_reference")
                  end)
               (r :: refs)
  | _ => []
  end.

(** The key of the final sort: [(-confidence, distance_from_text)]. *)
Definition sort_key (img : candidate) : float * nat :=
  (PrimFloat.opp (match confidence img with Some c => c | None => 0%float end),
   match distance_from_text img with Some d => d | None => 999%nat end).

Definition key_lt (a b : float * nat) : bool :=
  PrimFloat.ltb (fst a) (fst b)
  || (PrimFloat.eqb (fst a) (fst b) && (snd a <? snd b)%nat).

(** [list.sort(key=...)]: a stable sort. *)
Fixpoint insert_sorted (x : candidate) (l : list candidate) : list candidate :=
  match l with
  | [] => [x]
  | y :: l' =>
      if key_lt (sort_key x) (sort_key y) then x :: l
      else y :: insert_sorted x l'
  end.

Definition sort (l : list candidate) : list candidate :=
  fold_left (fun acc x => insert_sorted x acc) l [].

(** The loop of [_merge_and_deduplicate]: the first candidate of each
    image name, names that are empty or missing left out. *)
Fixpoint dedup_images (seen : list str) (l : list candidate)
  : list candidate :=
  match l with
  | [] => []
  | img :: l' =>
      match image_hash img with
      | Some (c :: h) =>
          if existsb (str_eqb (c :: h)) seen then dedup_images seen l'
          else img :: dedup_images ((c :: h) :: seen) l'
      | _ => dedup_images seen l'
      end
  end.

(** [_merge_and_deduplicate(image_lists)] *)
Definition _merge_and_deduplicate (image_lists : list (list candidate))
  : list candidate :=
  sort (dedup_images [] (List.concat image_lists)).

(** [_determine_image_role(image, artifact_code, index)] *)
Definition _determine_image_role (image : candidate) (artifact_code : str)
           (index : nat) : str :=
  let cap := lower (caption image) in
  let has k := contains k cap in
  if has (u "照片") || has (u "photo") then u "photo"
  else if has (u "图") || has (u "线图") || has (u "drawing")
  then u "drawing"
  else if has (u "示意") || has (u "diagram") then u "diagram"
  else if has (u "位置") || has (u "context") || has (u "墓")
  then u "context"
  else
    let m := match match_method image with Some m => m | None => [] end in
    if str_eqb m (u "llm_reference") || str_eqb m (u "explicit_reference")
    then u "photo"
    else if str_eqb m (u "artifact_code")
    then (if (index =? 0)%nat then u "photo" else u "drawing")
    else if str_eqb m (u "tomb_context") then u "context"
    else (if (index =? 0)%nat then u "photo" else u "related").

(** An element of the list [link_artifact_to_images] returns. *)
Record linked_image := {
  linked_hash : str;
  linked_path : str;
  image_role : str;
  linked_confidence : float;
  display_order : nat;
  linked_page_idx : value;
  linked_caption : str
}.

Definition linked (artifact_code : str) (p : nat * candidate)
  : linked_image :=
  let (i, img) := p in
  {| linked_hash := match image_hash img with Some h => h | None => [] end;
     linked_path := [];
     image_role := _determine_image_role img artifact_code i;
     linked_confidence :=
       match confidence img with Some c => c | None => 0.5%float end;
     display_order := i;
     linked_page_idx := page_idx img;
     linked_caption := caption img |}.

(** [link_artifact_to_images(artifact, artifact_type)].  A code that
    is neither empty nor a string raises a TypeError, in
    [_extract_tomb_code] at the latest. *)
Definition link_artifact_to_images (cl : content_list) (artifact : dict)
           (artifact_type : str) : result (list linked_image) :=
  let artifact_code := get_default artifact (u "artifact_code") (VStr []) in
  if negb (truthy artifact_code) then Ok []
  else
    match artifact_code with
    | VStr code =>
        let images_by_code := _find_images_by_artifact_code cl code in
        let images_by_text := _find_images_by_text_content cl artifact in
        let images_by_tomb := _find_images_by_tomb cl code in
        let images_by_ref := _find_images_by_explicit_reference cl code in
        let images_by_llm := _find_images_by_llm_references cl artifact in
        let all_images :=
          _merge_and_deduplicate
            [images_by_llm; images_by_ref; images_by_code;
             images_by_text; images_by_tomb] in
        Ok (map (linked code)
                (combine (seq 0 (List.length all_images)) all_images))
    | _ => Raise (TypeError (u "expected string or bytes-like object"))
    end.

(** ** Properties *)

(** C10. An artifact whose [artifact_code] is missing, null or the
    empty string is linked to no image: the function returns the empty
    list before any strategy runs, whatever the content list and
    whatever the artifact's [image_references]. *)
Theorem no_code_no_images cl artifact artifact_type :
  get artifact (u "artifact_code") = None
  \/ get artifact (u "artifact_code") = Some VNone
  \/ get artifact (u "artifact_code") = Some (VStr []) ->
  link_artifact_to_images cl artifact artifact_type = Ok [].
Proof.
  intros H. unfold link_artifact_to_images, get_default.
  destruct H as [-> | [-> | ->]]; reflexivity.
Qed.

(** The confidences the five strategies give: four constants, and
    [0.6 + 0.1 * k] for the [k] keywords, 2 to 8, a paragraph matches. *)
Definition known_confidence (c : float) : Prop :=
  c = 0.98%float \/ c = 0.95%float \/ c = 0.9%float \/ c = 0.4%float
  \/ exists k, (2 <= k <= 8)%nat /\ c = text_confidence k.

Definition candidate_ok (img : candidate) : Prop :=
  exists c, confidence img = Some c /\ known_confidence c.

Lemma tagged_ok c m img : known_confidence c -> candidate_ok (tagged c m img).
Proof. intros Hc. exists c. now split. Qed.

Lemma Forall_tagged c m l :
  known_confidence c -> Forall candidate_ok (map (tagged c m) l).
Proof.
  intros Hc. apply Forall_map, Forall_forall. intros img _.
  now apply tagged_ok.
Qed.

Lemma flat_map_length_le {A B} (f : A -> list B) (l : list A) :
  (forall x, List.length (f x) <= 1)%nat ->
  (List.length (flat_map f l) <= List.length l)%nat.
Proof.
  intros Hf. induction l as [|x l IH]; simpl; [lia|].
  rewrite length_app. specialize (Hf x). lia.
Qed.

Lemma extract_keywords_length artifact :
  (List.length (_extract_keywords artifact) <= 8)%nat.
Proof.
  unfold _extract_keywords. rewrite length_app.
  assert (H1 : (List.length
                  (flat_map (fun field =>
                               match get artifact field with
                               | Some (VStr (c1 :: c2 :: s)) => [c1 :: c2 :: s]
                               | _ => []
                               end) key_fields) <= 7)%nat).
  { change 7%nat with (List.length key_fields).
    apply flat_map_length_le. intros field.
    destruct (get artifact field) as [[| | | | [|? [|? ?]] | |]|]; simpl; lia. }
  assert (H2 : (List.length
                  match get_default artifact (u "artifact_code") (VStr []) with
                  | VStr (c :: s) => [c :: s]
                  | _ => []
                  end <= 1)%nat).
  { destruct (get_default artifact (u "artifact_code") (VStr []))
      as [| | | | [|? ?] | |]; simpl; lia. }
  lia.
Qed.

Lemma match_count_le keywords text :
  (match_count keywords text <= List.length keywords)%nat.
Proof. unfold match_count. apply filter_length_le. Qed.

Lemma by_code_ok cl code :
  Forall candidate_ok (_find_images_by_artifact_code cl code).
Proof.
  unfold _find_images_by_artifact_code. apply Forall_flat_map, Forall_forall.
  intros [i it] _. destruct (is_text it); [|constructor].
  destruct (_ || _); [|constructor].
  apply Forall_tagged. right; right; now left.
Qed.

Lemma by_text_ok cl artifact :
  Forall candidate_ok (_find_images_by_text_content cl artifact).
Proof.
  unfold _find_images_by_text_content. apply Forall_flat_map, Forall_forall.
  intros [i it] _. destruct (is_text it); [|constructor].
  destruct (Nat.leb_spec 2 (match_count (_extract_keywords artifact)
                                        (text_of it))) as [Hle|]; [|constructor].
  apply Forall_tagged. do 4 right. eexists. split; [|reflexivity].
  split; [exact Hle|].
  etransitivity; [apply match_count_le | apply extract_keywords_length].
Qed.

Lemma by_tomb_ok cl code : Forall candidate_ok (_find_images_by_tomb cl code).
Proof.
  unfold _find_images_by_tomb.
  destruct (_extract_tomb_code code); [|constructor].
  apply Forall_flat_map, Forall_forall.
  intros [i it] _. destruct (is_text it); [|constructor].
  destruct (_ && _); [|constructor].
  apply Forall_tagged. right; right; right; now left.
Qed.

Lemma images_for_ok cl refs c m :
  known_confidence c -> Forall candidate_ok (images_for cl refs c m).
Proof.
  intros Hc. unfold images_for. apply Forall_flat_map, Forall_forall.
  intros it _. destruct (is_image it); [|constructor].
  destruct (existsb _ refs); [|constructor].
  constructor; [|constructor]. exists c. now split.
Qed.

Lemma by_ref_ok cl code :
  Forall candidate_ok (_find_images_by_explicit_reference cl code).
Proof.
  unfold _find_images_by_explicit_reference.
  destruct (flat_map _ (items_of cl)); [constructor|].
  apply images_for_ok. right; now left.
Qed.

Lemma by_llm_ok cl artifact :
  Forall candidate_ok (_find_images_by_llm_references cl artifact).
Proof.
  unfold _find_images_by_llm_references.
  destruct (get artifact (u "image_references")) as [[| | | | | [|r refs] |]|];
    try constructor.
  apply Forall_flat_map, Forall_forall. intros ref _.
  destruct (strip (py_str ref)); [constructor|].
  apply images_for_ok. now left.
Qed.

Lemma dedup_images_ok l : forall seen,
  Forall candidate_ok l -> Forall candidate_ok (dedup_images seen l).
Proof.
  induction l as [|img l IH]; intros seen Hl; simpl; [constructor|].
  inversion Hl as [|? ? Himg Hl']; subst.
  destruct (image_hash img) as [[|c h]|]; try (apply IH; assumption).
  destruct (existsb _ seen); [apply IH; assumption|].
  constructor; [assumption | apply IH; assumption].
Qed.

Lemma insert_sorted_ok x l :
  candidate_ok x -> Forall candidate_ok l ->
  Forall candidate_ok (insert_sorted x l).
Proof.
  intros Hx. induction 1 as [|y l Hy Hl IH]; simpl.
  - constructor; [assumption|constructor].
  - destruct (key_lt (sort_key x) (sort_key y)).
    + constructor; [assumption|]. constructor; assumption.
    + constructor; assumption.
Qed.

Lemma sort_ok l : Forall candidate_ok l -> Forall candidate_ok (sort l).
Proof.
  unfold sort. intros Hl.
  assert (H : forall acc, Forall candidate_ok acc ->
                          Forall candidate_ok
                            (fold_left (fun acc x => insert_sorted x acc) l acc)).
  { induction Hl as [|x l Hx Hl IH]; intros acc Hacc; simpl; [assumption|].
    apply IH. now apply insert_sorted_ok. }
  apply H. constructor.
Qed.

Lemma known_confidence_bounds c :
  known_confidence c ->
  PrimFloat.leb 0.4%float c = true
  /\ PrimFloat.leb c (text_confidence 8) = true.
Proof.
  intros [-> | [-> | [-> | [-> | (k & [Hlo Hhi] & ->)]]]];
    try (split; vm_compute; reflexivity).
  do 9 (destruct k as [|k]; [try lia; split; vm_compute; reflexivity|]).
  lia.
Qed.

(** Every confidence [link_artifact_to_images] returns is one of the
    four constants 0.98, 0.95, 0.9, 0.4 or [0.6 + 0.1 * k] for some
    [k] from 2 to 8; it lies between 0.4 and [0.6 + 0.1 * 8]. *)
Theorem linked_confidence_is_known cl artifact artifact_type :
  match link_artifact_to_images cl artifact artifact_type with
  | Ok images =>
      Forall (fun img =>
                known_confidence (linked_confidence img)
                /\ PrimFloat.leb 0.4%float (linked_confidence img) = true
                /\ PrimFloat.leb (linked_confidence img) (text_confidence 8)
                   = true) images
  | Raise _ => True
  end.
Proof.
  unfold link_artifact_to_images.
  destruct (get_default artifact (u "artifact_code") (VStr []))
    as [| b | z | f | code | l | d];
    match goal with
    | |- context [negb (truthy ?v)] => destruct (negb (truthy v))
    end; try exact I; try (now constructor).
  apply Forall_map.
  match goal with
  | |- Forall _ (combine _ ?all) =>
      assert (Hall : Forall candidate_ok all)
  end.
  { unfold _merge_and_deduplicate. apply sort_ok, dedup_images_ok.
    apply Forall_concat.
    repeat constructor;
      auto using by_llm_ok, by_ref_ok, by_code_ok, by_text_ok, by_tomb_ok. }
  apply Forall_forall. intros [i img] Hin.
  apply in_combine_r in Hin.
  rewrite Forall_forall in Hall. destruct (Hall img Hin) as (c & Hc & Hk).
  unfold linked; simpl. rewrite Hc.
  split; [exact Hk | now apply known_confidence_bounds].
Qed.

(** ** What the merged list holds *)

(** A candidate with a name. *)
Definition named (img : candidate) : Prop :=
  exists c h, image_hash img = Some (c :: h).

Lemma existsb_str_eqb h seen :
  existsb (str_eqb h) seen = true <-> In h seen.
Proof.
  rewrite existsb_exists. split.
  - intros (x & Hx & Heq). now destruct (str_eqb_spec h x) as [->|].
  - intros Hin. exists h. split; [exact Hin|apply str_eqb_refl].
Qed.

Lemma dedup_images_spec l : forall seen,
  Forall (fun img => named img /\
                     forall h, image_hash img = Some h -> ~ In h seen)
         (dedup_images seen l)
  /\ NoDup (map image_hash (dedup_images seen l)).
Proof.
  induction l as [|img l IH]; intros seen; [split; constructor|].
  cbn [dedup_images].
  destruct (image_hash img) as [[|c h]|] eqn:Hh; try apply IH.
  cbn [dedup_images].
  destruct (existsb (str_eqb (c :: h)) seen) eqn:Hseen; [apply IH|].
  destruct (IH ((c :: h) :: seen)) as [Hall Hnd]. split.
  - constructor.
    + split; [now exists c, h|]. intros h' Hh'. rewrite Hh in Hh'.
      injection Hh' as <-. intros Hin.
      apply existsb_str_eqb in Hin. congruence.
    + eapply Forall_impl; [|exact Hall].
      intros x [Hx Hfresh]. split; [exact Hx|].
      intros h' Hh' Hin. apply (Hfresh h' Hh'). now right.
  - simpl. constructor; [|exact Hnd]. rewrite Hh. intros Hin.
    apply in_map_iff in Hin as (x & Hx & Hin).
    rewrite Forall_forall in Hall. destruct (Hall x Hin) as [_ Hfresh].
    apply (Hfresh (c :: h) Hx). now left.
Qed.

Lemma insert_sorted_perm x l : Permutation (insert_sorted x l) (x :: l).
Proof.
  induction l as [|y l IH]; simpl; [apply Permutation_refl|].
  destruct (key_lt (sort_key x) (sort_key y)); [apply Permutation_refl|].
  etransitivity; [apply perm_skip, IH|apply perm_swap].
Qed.

(** The sort keeps the candidates, each as often as it was there. *)
Lemma sort_perm l : Permutation (sort l) l.
Proof.
  unfold sort.
  assert (H : forall acc,
             Permutation (fold_left (fun acc x => insert_sorted x acc) l acc)
                         (acc ++ l)).
  { induction l as [|x l IH]; intros acc; simpl.
    - rewrite app_nil_r. apply Permutation_refl.
    - etransitivity; [apply IH|].
      etransitivity; [apply Permutation_app_tail, insert_sorted_perm|].
      simpl. apply Permutation_middle. }
  apply (H []).
Qed.

Lemma merged_named image_lists :
  Forall named (_merge_and_deduplicate image_lists)
  /\ NoDup (map image_hash (_merge_and_deduplicate image_lists)).
Proof.
  unfold _merge_and_deduplicate.
  destruct (dedup_images_spec (List.concat image_lists) []) as [Hall Hnd].
  split.
  - eapply Permutation_Forall; [apply Permutation_sym, sort_perm|].
    eapply Forall_impl; [|exact Hall]. now intros x [Hx _].
  - eapply Permutation_NoDup; [|exact Hnd].
    apply Permutation_map, Permutation_sym, sort_perm.
Qed.

Lemma map_fst_combine_seq {A} (l : list A) : forall s,
  map fst (combine (seq s (List.length l)) l) = seq s (List.length l).
Proof.
  induction l as [|x l IH]; intros s; simpl; [reflexivity|].
  now rewrite IH.
Qed.

Lemma map_snd_combine_seq {A} (l : list A) : forall s,
  map snd (combine (seq s (List.length l)) l) = l.
Proof.
  induction l as [|x l IH]; intros s; simpl; [reflexivity|].
  now rewrite IH.
Qed.

(** [img['image_hash']] of a candidate with a name. *)
Definition hash_of (img : candidate) : str :=
  match image_hash img with Some h => h | None => [] end.

Lemma NoDup_hash_of l :
  Forall named l -> NoDup (map image_hash l) -> NoDup (map hash_of l).
Proof.
  induction 1 as [|x l (c & h & Hx) Hl IH]; simpl; intros Hnd;
    [constructor|].
  inversion Hnd as [|? ? Hnin Hnd']; subst.
  constructor; [|now apply IH].
  intros Hin. apply Hnin. apply in_map_iff in Hin as (y & Hy & Hin).
  apply in_map_iff. exists y. split; [|exact Hin].
  rewrite Forall_forall in Hl. destruct (Hl y Hin) as (c' & h' & Hy').
  unfold hash_of in Hy. rewrite Hx, Hy' in Hy. rewrite Hx, Hy'.
  now f_equal.
Qed.

Lemma linked_hashes code l : forall s,
  map linked_hash (map (linked code) (combine (seq s (List.length l)) l))
  = map hash_of l.
Proof.
  induction l as [|x l IH]; intros s; simpl; [reflexivity|].
  now rewrite IH.
Qed.

Lemma linked_orders code l : forall s,
  map display_order (map (linked code) (combine (seq s (List.length l)) l))
  = seq s (List.length l).
Proof.
  induction l as [|x l IH]; intros s; simpl; [reflexivity|].
  now rewrite IH.
Qed.

(** The images linked to an artifact are distinct: no name occurs
    twice, no name is empty, and [display_order] numbers the images
    from 0 in the order of the list. *)
Theorem linked_images_are_distinct cl artifact artifact_type images :
  link_artifact_to_images cl artifact artifact_type = Ok images ->
  NoDup (map linked_hash images)
  /\ Forall (fun img => linked_hash img <> []) images
  /\ map display_order images = seq 0 (List.length images).
Proof.
  unfold link_artifact_to_images.
  destruct (negb (truthy _)).
  { intros [= <-]. repeat split; constructor. }
  destruct (get_default artifact (u "artifact_code") (VStr []))
    as [| | | | code | |]; try discriminate.
  intros [= <-].
  match goal with
  | |- context [combine _ ?all] => set (merged := all)
  end.
  destruct (merged_named
              [_find_images_by_llm_references cl artifact;
               _find_images_by_explicit_reference cl code;
               _find_images_by_artifact_code cl code;
               _find_images_by_text_content cl artifact;
               _find_images_by_tomb cl code]) as [Hnamed Hnd].
  fold merged in Hnamed, Hnd.
  split; [|split].
  - rewrite linked_hashes. now apply NoDup_hash_of.
  - apply Forall_forall. intros img Hin.
    apply (in_map linked_hash) in Hin. rewrite linked_hashes in Hin.
    apply in_map_iff in Hin as (x & <- & Hx).
    rewrite Forall_forall in Hnamed.
    destruct (Hnamed x Hx) as (c & h & Hc).
    unfold hash_of. rewrite Hc. discriminate.
  - rewrite length_map, length_combine, length_seq, Nat.min_id.
    apply linked_orders.
Qed.

(** The first list of [image_lists] has the first word: an image
    found there is kept as that list describes it. *)
Lemma dedup_images_first (P : candidate -> Prop) l2 : forall l1 seen cand h,
  Forall P l1 ->
  In cand l1 -> image_hash cand = Some h -> h <> [] -> ~ In h seen ->
  exists c', In c' (dedup_images seen (l1 ++ l2))
             /\ image_hash c' = Some h /\ P c'.
Proof.
  induction l1 as [|img l1 IH]; intros seen cand h Hall Hin Hh Hne Hseen;
    [destruct Hin|].
  inversion Hall as [|? ? Himg Hall']; subst.
  change ((img :: l1) ++ l2) with (img :: (l1 ++ l2)). cbn [dedup_images].
  destruct (image_hash img) as [[|c hh]|] eqn:Himh.
  - destruct Hin as [<-|Hin]; [congruence|]. now apply (IH seen cand h).
  - cbn [dedup_images].
    destruct (existsb (str_eqb (c :: hh)) seen) eqn:Hex.
    + apply existsb_str_eqb in Hex.
      destruct Hin as [<-|Hin]; [congruence|]. now apply (IH seen cand h).
    + destruct (str_eq_dec (c :: hh) h) as [Heq|Hdiff].
      * exists img. split; [now left|]. split; [congruence|exact Himg].
      * destruct Hin as [<-|Hin]; [congruence|].
        destruct (IH ((c :: hh) :: seen) cand h Hall' Hin Hh Hne)
          as (c' & Hc' & Hhc' & HP).
        { intros [Heq|Hin']; [contradiction|contradiction]. }
        exists c'. split; [now right|]. now split.
  - destruct Hin as [<-|Hin]; [congruence|]. now apply (IH seen cand h).
Qed.

Lemma llm_candidates cl artifact :
  Forall (fun img => confidence img = Some 0.98%float)
         (_find_images_by_llm_references cl artifact).
Proof.
  unfold _find_images_by_llm_references.
  destruct (get artifact (u "image_references")) as [[| | | | | [|r refs] |]|];
    try constructor.
  apply Forall_flat_map, Forall_forall. intros ref _.
  destruct (strip (py_str ref)); [constructor|].
  unfold images_for. apply Forall_flat_map, Forall_forall.
  intros it _. destruct (is_image it); [|constructor].
  destruct (existsb _ _); [|constructor].
  constructor; [reflexivity|constructor].
Qed.

Lemma in_combine_seq {A} (l : list A) x : forall s,
  In x l -> exists i, In (i, x) (combine (seq s (List.length l)) l).
Proof.
  induction l as [|y l IH]; intros s; simpl; [tauto|].
  intros [->|Hin].
  - exists s. now left.
  - destruct (IH (S s) Hin) as (i & Hi). exists i. now right.
Qed.

(** An image that answers to one of the record's [image_references]
    is linked with the confidence 0.98 of a declared reference,
    whatever the other strategies find for it. *)
Theorem declared_reference_keeps_confidence
        cl artifact artifact_type code cand h :
  get artifact (u "artifact_code") = Some (VStr code) -> code <> [] ->
  In cand (_find_images_by_llm_references cl artifact) ->
  image_hash cand = Some h -> h <> [] ->
  exists images img,
    link_artifact_to_images cl artifact artifact_type = Ok images
    /\ In img images
    /\ linked_hash img = h
    /\ linked_confidence img = 0.98%float.
Proof.
  intros Hcode Hne Hcand Hh Hhne.
  unfold link_artifact_to_images, get_default. rewrite Hcode.
  destruct code as [|c0 code0]; [congruence|]. cbn [truthy negb].
  set (code := c0 :: code0) in *.
  destruct (dedup_images_first
              (fun img => confidence img = Some 0.98%float)
              (List.concat [_find_images_by_explicit_reference cl code;
                            _find_images_by_artifact_code cl code;
                            _find_images_by_text_content cl artifact;
                            _find_images_by_tomb cl code])
              (_find_images_by_llm_references cl artifact) [] cand h
              (llm_candidates cl artifact) Hcand Hh Hhne)
    as (c' & Hc' & Hhc' & Hconf); [tauto|].
  assert (Hin : In c' (_merge_and_deduplicate
                         [_find_images_by_llm_references cl artifact;
                          _find_images_by_explicit_reference cl code;
                          _find_images_by_artifact_code cl code;
                          _find_images_by_text_content cl artifact;
                          _find_images_by_tomb cl code])).
  { unfold _merge_and_deduplicate.
    eapply Permutation_in; [apply Permutation_sym, sort_perm|].
    exact Hc'. }
  destruct (in_combine_seq _ c' 0 Hin) as (i & Hi).
  eexists. exists (linked code (i, c')). split; [reflexivity|]. split.
  - apply in_map. exact Hi.
  - unfold linked. cbn [linked_hash linked_confidence].
    now rewrite Hhc', Hconf.
Qed.

(** ** The order of the merged list *)

(** The confidences a candidate can have, and the place of each among
    them: the number of those that are greater. *)
Definition known_values : list float :=
  [0.98; 0.95; 0.9; 0.4]%float ++ map text_confidence [2; 3; 4; 5; 6; 7; 8].

Definition rank (c : float) : nat :=
  List.length (filter (fun v => PrimFloat.ltb c v) known_values).

Lemma known_in_values c : known_confidence c -> In c known_values.
Proof.
  intros [-> | [-> | [-> | [-> | (k & [Hlo Hhi] & ->)]]]].
  - now left.
  - right; now left.
  - right; right; now left.
  - right; right; right; now left.
  - do 4 right. apply in_map.
    do 9 (destruct k as [|k]; [simpl; lia || tauto|]). lia.
Qed.

(** On these values the comparisons of the sort key, which holds the
    negated confidence, are the comparisons of the places. *)
Definition pair_ok (a b : float) : bool :=
  Bool.eqb (PrimFloat.ltb (PrimFloat.opp a) (PrimFloat.opp b))
           (rank a <? rank b)%nat
  && Bool.eqb (PrimFloat.eqb (PrimFloat.opp a) (PrimFloat.opp b))
              (rank a =? rank b)%nat
  && (negb (rank a <=? rank b)%nat || PrimFloat.leb b a).

Lemma pairs_ok :
  forallb (fun a => forallb (pair_ok a) known_values) known_values = true.
Proof. vm_compute. reflexivity. Qed.

Lemma pair_ok_known a b :
  known_confidence a -> known_confidence b -> pair_ok a b = true.
Proof.
  intros Ha Hb. pose proof pairs_ok as H.
  rewrite forallb_forall in H.
  specialize (H a (known_in_values a Ha)).
  rewrite forallb_forall in H. exact (H b (known_in_values b Hb)).
Qed.

(** The sort key, with the place of the confidence for the negated
    confidence. *)
Definition place_key (img : candidate) : nat * nat :=
  (rank (match confidence img with Some c => c | None => 0%float end),
   match distance_from_text img with Some d => d | None => 999%nat end).

Definition before (a b : nat * nat) : Prop :=
  (fst a < fst b)%nat \/ (fst a = fst b /\ (snd a < snd b)%nat).

Lemma key_lt_before x y :
  candidate_ok x -> candidate_ok y ->
  key_lt (sort_key x) (sort_key y) = true <-> before (place_key x) (place_key y).
Proof.
  intros (a & Ha & Hka) (b & Hb & Hkb).
  pose proof (pair_ok_known a b Hka Hkb) as Hp.
  unfold pair_ok in Hp. apply andb_true_iff in Hp as [Hp _].
  apply andb_true_iff in Hp as [Hlt Heq].
  apply Bool.eqb_prop in Hlt, Heq.
  unfold key_lt, sort_key, place_key, before. rewrite Ha, Hb.
  cbn [fst snd]. rewrite Hlt, Heq.
  rewrite orb_true_iff, andb_true_iff, !Nat.ltb_lt, Nat.eqb_eq. tauto.
Qed.

(** No candidate of the list comes after one that the key puts behind
    it. *)
Fixpoint ordered (l : list candidate) : Prop :=
  match l with
  | [] => True
  | x :: l' =>
      Forall (fun y => ~ before (place_key y) (place_key x)) l' /\ ordered l'
  end.

Lemma insert_sorted_ordered x l :
  candidate_ok x -> Forall candidate_ok l -> ordered l ->
  ordered (insert_sorted x l).
Proof.
  intros Hx Hl. induction Hl as [|y l Hy Hl IH]; intros Hord.
  - simpl. split; constructor.
  - destruct Hord as [Hy_l Hord]. cbn [insert_sorted].
    destruct (key_lt (sort_key x) (sort_key y)) eqn:Hlt.
    + apply (key_lt_before x y Hx Hy) in Hlt.
      split; [|split; assumption].
      constructor.
      * unfold before in *. lia.
      * eapply Forall_impl; [|exact Hy_l].
        intros z Hz. unfold before in *. lia.
    + assert (Hnb : ~ before (place_key x) (place_key y)).
      { intros Hb. apply (key_lt_before x y Hx Hy) in Hb. congruence. }
      split; [|now apply IH].
      eapply Permutation_Forall;
        [apply Permutation_sym, insert_sorted_perm|].
      now constructor.
Qed.

Lemma sort_ordered l : Forall candidate_ok l -> ordered (sort l).
Proof.
  unfold sort. intros Hl.
  assert (H : forall acc, Forall candidate_ok acc -> ordered acc ->
              ordered (fold_left (fun acc x => insert_sorted x acc) l acc)).
  { induction Hl as [|x l Hx Hl IH]; intros acc Hacc Hord; [exact Hord|].
    simpl. apply IH.
    - now apply insert_sorted_ok.
    - now apply insert_sorted_ordered. }
  apply H; constructor.
Qed.

(** A list of confidences that never goes up. *)
Fixpoint descending (l : list float) : Prop :=
  match l with
  | [] => True
  | a :: l' => Forall (fun b => PrimFloat.leb b a = true) l' /\ descending l'
  end.

Lemma ordered_descending l :
  Forall candidate_ok l -> ordered l ->
  descending (map (fun img => match confidence img with
                              | Some c => c
                              | None => 0.5%float
                              end) l).
Proof.
  induction 1 as [|x l Hx Hl IH]; intros Hord; [constructor|].
  destruct Hord as [Hx_l Hord]. simpl. split; [|now apply IH].
  apply Forall_map, Forall_forall. intros y Hy.
  rewrite Forall_forall in Hx_l, Hl. specialize (Hx_l y Hy).
  destruct Hx as (a & Ha & Hka). destruct (Hl y Hy) as (b & Hb & Hkb).
  rewrite Ha, Hb.
  pose proof (pair_ok_known a b Hka Hkb) as Hp.
  unfold pair_ok in Hp. apply andb_true_iff in Hp as [_ Hp].
  apply orb_true_iff in Hp as [Hp|Hp]; [|exact Hp].
  exfalso. apply negb_true_iff, Nat.leb_gt in Hp.
  apply Hx_l. unfold before, place_key. rewrite Ha, Hb. left. exact Hp.
Qed.

Lemma linked_confidences code l : forall s,
  map linked_confidence (map (linked code) (combine (seq s (List.length l)) l))
  = map (fun img => match confidence img with
                    | Some c => c
                    | None => 0.5%float
                    end) l.
Proof.
  induction l as [|x l IH]; intros s; simpl; [reflexivity|].
  now rewrite IH.
Qed.

(** The images linked to an artifact come in the order of their
    confidence, the highest first: no image has a higher confidence
    than an image before it. *)
Theorem linked_images_are_ordered cl artifact artifact_type images :
  link_artifact_to_images cl artifact artifact_type = Ok images ->
  descending (map linked_confidence images).
Proof.
  unfold link_artifact_to_images.
  destruct (negb (truthy _)); [now intros [= <-]|].
  destruct (get_default artifact (u "artifact_code") (VStr []))
    as [| | | | code | |]; try discriminate.
  intros [= <-]. rewrite linked_confidences.
  assert (Hall : Forall candidate_ok
                   (List.concat
                      [_find_images_by_llm_references cl artifact;
                       _find_images_by_explicit_reference cl code;
                       _find_images_by_artifact_code cl code;
                       _find_images_by_text_content cl artifact;
                       _find_images_by_tomb cl code])).
  { apply Forall_concat.
    repeat constructor;
      auto using by_llm_ok, by_ref_ok, by_code_ok, by_text_ok, by_tomb_ok. }
  unfold _merge_and_deduplicate. apply ordered_descending.
  - now apply sort_ok, dedup_images_ok.
  - now apply sort_ordered, dedup_images_ok.
Qed.

End Linker.

(** A content list with one image, followed by its caption. *)
Definition figure_one : content_list :=
  Some [ {| type := Some (u "image"); text := None; ImageManager.page_idx := VInt 3;
            ImageManager.bbox := VList [];
            ids := [(u "image_hash", VStr (u "h1"))] |};
         {| type := Some (u "text"); text := Some (u "图一 玉琮线图");
            ImageManager.page_idx := VInt 3; ImageManager.bbox := VList [];
            ids := [] |} ].

(** An artifact that cites the figure and has no code. *)
Definition uncoded : dict :=
  [ (u "artifact_code", VNone);
    (u "image_references", VList [VStr (u "图一")]) ].

Lemma no_code_no_images_witness :
  link_artifact_to_images figure_one uncoded (u "jade") = Ok [].
Proof.
  apply (no_code_no_images figure_one uncoded (u "jade")).
  right; left; reflexivity.
Defined.

(** The same artifact with a code is linked to the figure, with the
    confidence of a declared reference. *)
Lemma coded_reference_is_linked :
  link_artifact_to_images figure_one
    [ (u "artifact_code", VStr (u "M9:9"));
      (u "image_references", VList [VStr (u "图一")]) ] (u "jade")
  = Ok [ {| linked_hash := u "h1"; linked_path := [];
            image_role := u "drawing"; linked_confidence := 0.98%float;
            display_order := 0; linked_page_idx := VInt 3;
            linked_caption := u "图一 玉琮线图" |} ].
Proof. vm_compute. reflexivity. Qed.

(** A jade artifact with five descriptive fields, and a content list
    in which a paragraph names the five without the artifact's code,
    next to an image. *)
Definition described : dict :=
  [ (u "artifact_code", VStr (u "M1:1"));
    (u "subtype", VStr (u "玉琮"));
    (u "category_level1", VStr (u "玉礼器"));
    (u "category_level2", VStr (u "琮类"));
    (u "jade_type", VStr (u "透闪石玉"));
    (u "shape_unit", VStr (u "方柱体")) ].

Definition described_page : content_list :=
  Some [ {| type := Some (u "image"); text := None;
            ImageManager.page_idx := VInt 7; ImageManager.bbox := VList [];
            ids := [(u "image_hash", VStr (u "img_001"))] |};
         {| type := Some (u "text");
            text := Some (u "玉琮 玉礼器 琮类 透闪石玉 方柱体");
            ImageManager.page_idx := VInt 7; ImageManager.bbox := VList [];
            ids := [] |} ].

(** C9 at the failing input: the only linked image is a keyword
    candidate with five matched keywords; its confidence is
    0.6 + 5 * 0.1 = 1.1, above 1. *)
Theorem five_keywords_exceed_one :
  link_artifact_to_images described_page described (u "jade")
  = Ok [ {| linked_hash := u "img_001"; linked_path := [];
            image_role := u "photo";
            linked_confidence := text_confidence 5;
            display_order := 0; linked_page_idx := VInt 7;
            linked_caption := u "玉琮 玉礼器 琮类 透闪石玉 方柱体" |} ]
  /\ text_confidence 5 = 1.1%float
  /\ PrimFloat.leb (text_confidence 5) 1%float = false.
Proof. repeat split; vm_compute; reflexivity. Qed.

(** An artifact with a code that cites the figure. *)
Definition cited : dict :=
  [ (u "artifact_code", VStr (u "M9:9"));
    (u "image_references", VList [VStr (u "图一")]) ].

Definition figure_one_linked : list linked_image :=
  [ {| linked_hash := u "h1"; linked_path := [];
       image_role := u "drawing"; linked_confidence := 0.98%float;
       display_order := 0; linked_page_idx := VInt 3;
       linked_caption := u "图一 玉琮线图" |} ].

Lemma linked_images_are_distinct_witness :
  NoDup (map linked_hash figure_one_linked)
  /\ Forall (fun img => linked_hash img <> []) figure_one_linked
  /\ map display_order figure_one_linked
     = seq 0 (List.length figure_one_linked).
Proof.
  apply (linked_images_are_distinct figure_one cited (u "jade")).
  vm_compute. reflexivity.
Defined.

Lemma declared_reference_keeps_confidence_witness :
  exists images img,
    link_artifact_to_images figure_one cited (u "jade") = Ok images
    /\ In img images
    /\ linked_hash img = u "h1"
    /\ linked_confidence img = 0.98%float.
Proof.
  apply (declared_reference_keeps_confidence figure_one cited (u "jade")
           (u "M9:9")
           {| image_hash := Some (u "h1"); page_idx := VInt 3;
              bbox := VList []; caption := u "图一 玉琮线图";
              confidence := Some 0.98%float;
              match_method := Some (u "llm_reference");
              distance_from_text := None |}).
  - reflexivity.
  - discriminate.
  - vm_compute. now left.
  - reflexivity.
  - discriminate.
Defined.

(** A content list with two images: the first is the figure the
    artifact cites, the second stands next to a paragraph that names
    the artifact's code. *)
Definition text_item (s : str) (p : Z) : item :=
  {| type := Some (u "text"); text := Some s;
     ImageManager.page_idx := VInt p; ImageManager.bbox := VList [];
     ids := [] |}.

Definition image_item (h : str) (p : Z) : item :=
  {| type := Some (u "image"); text := None;
     ImageManager.page_idx := VInt p; ImageManager.bbox := VList [];
     ids := [(u "image_hash", VStr h)] |}.

Definition two_figures : content_list :=
  Some [ image_item (u "h1") 3; text_item (u "图一 玉琮线图") 3;
         text_item (u "墓室北部") 4; text_item (u "随葬品") 4;
         text_item (u "M9:9 出土于此") 4; image_item (u "h2") 4 ].

Definition two_linked : list linked_image :=
  [ {| linked_hash := u "h1"; linked_path := [];
       image_role := u "drawing"; linked_confidence := 0.98%float;
       display_order := 0; linked_page_idx := VInt 3;
       linked_caption := u "图一 玉琮线图" |};
    {| linked_hash := u "h2"; linked_path := [];
       image_role := u "drawing"; linked_confidence := 0.9%float;
       display_order := 1; linked_page_idx := VInt 4;
       linked_caption := u "随葬品 M9:9 出土于此" |} ].

Lemma linked_images_are_ordered_witness :
  descending (map linked_confidence two_linked).
Proof.
  apply (linked_images_are_ordered two_figures cited (u "jade") two_linked).
  vm_compute. reflexivity.
Defined.

End ImageLinker.

(* ================================================================== *)
(** * The interpreter's hash of a string                               *)
(* ================================================================== *)

(** [hash(s)] for a [str], as CPython 3.11 and later compute it on a
    64-bit little-endian machine: SipHash-1-3 of the string's
    in-memory bytes, under a key the process draws when it starts
    (at random, or from [PYTHONHASHSEED]). *)
Module PyHash.

Local Open Scope Z_scope.

Definition w64 (x : Z) : Z := x mod 2 ^ 64.

Definition rotl (x b : Z) : Z :=
  w64 (Z.lor (Z.shiftl x b) (Z.shiftr x (64 - b))).

Definition lanes := (Z * Z * Z * Z)%type.

Definition half_round (a b c d s t : Z) : lanes :=
  let a := w64 (a + b) in
  let c := w64 (c + d) in
  let b := Z.lxor (rotl b s) a in
  let d := Z.lxor (rotl d t) c in
  let a := rotl a 32 in
  (a, b, c, d).

Definition single_round (v : lanes) : lanes :=
  let '(v0, v1, v2, v3) := v in
  let '(v0, v1, v2, v3) := half_round v0 v1 v2 v3 13 16 in
  let '(v2, v1, v0, v3) := half_round v2 v1 v0 v3 17 21 in
  (v0, v1, v2, v3).

(** A little-endian word. *)
Definition le64 (bs : list Z) : Z :=
  fold_right (fun b acc => b + 256 * acc) 0 bs.

Definition absorb (v : lanes) (m : Z) : lanes :=
  let '(v0, v1, v2, v3) := v in
  let '(v0, v1, v2, v3) := single_round (v0, v1, v2, Z.lxor v3 m) in
  (Z.lxor v0 m, v1, v2, v3).

Fixpoint compress (v : lanes) (bs : list Z) : lanes * list Z :=
  match bs with
  | b0 :: b1 :: b2 :: b3 :: b4 :: b5 :: b6 :: b7 :: rest =>
      compress (absorb v (le64 [b0; b1; b2; b3; b4; b5; b6; b7])) rest
  | _ => (v, bs)
  end.

Definition siphash13 (k0 k1 : Z) (src : list Z) : Z :=
  let b := w64 (Z.shiftl (Z.of_nat (List.length src)) 56) in
  let v := (Z.lxor k0 0x736f6d6570736575, Z.lxor k1 0x646f72616e646f6d,
            Z.lxor k0 0x6c7967656e657261, Z.lxor k1 0x7465646279746573) in
  let (v, tail) := compress v src in
  let b := Z.lor b (le64 tail) in
  let '(v0, v1, v2, v3) := absorb v b in
  let v2 := Z.lxor v2 0xff in
  let '(v0, v1, v2, v3) :=
    single_round (single_round (single_round (v0, v1, v2, v3))) in
  Z.lxor (Z.lxor v0 v1) (Z.lxor v2 v3).

(** The key of a process: the two words [k0], [k1] of its hash
    secret. *)
Definition secret := (Z * Z)%type.

(** The secret a process derives from [PYTHONHASHSEED=seed]: zero for
    the seed 0, else the first bytes of a linear congruential
    generator. *)
Fixpoint lcg_urandom (n : nat) (x : Z) : list Z :=
  match n with
  | O => []
  | S n' =>
      let x := (x * 214013 + 2531011) mod 2 ^ 32 in
      (Z.shiftr x 16) mod 256 :: lcg_urandom n' x
  end.

Definition secret_of_seed (seed : Z) : secret :=
  if seed =? 0 then (0, 0)
  else
    let bs := lcg_urandom 24 seed in
    (le64 (firstn 8 bs), le64 (firstn 8 (skipn 8 bs))).

(** The bytes of a string in memory: 1, 2 or 4 bytes per character,
    by its greatest code point. *)
Definition data (s : str) : list Z :=
  let kind := if forallb (fun c => (c <? 256)%N) s then 1%nat
              else if forallb (fun c => (c <? 65536)%N) s then 2%nat
                   else 4%nat in
  flat_map (fun c =>
              map (fun i => (Z.shiftr (Z.of_N c) (8 * Z.of_nat i)) mod 256)
                  (seq 0 kind)) s.

(** [hash(s)] in a process with this secret. *)
Definition hash (k : secret) (s : str) : Z :=
  match s with
  | [] => 0
  | _ =>
      let x := siphash13 (fst k) (snd k) (data s) in
      let x := if 2 ^ 63 <=? x then x - 2 ^ 64 else x in
      if x =? -1 then -2 else x
  end.

End PyHash.

(* ================================================================== *)
(** * [src/template_analyzer.py]: TemplateAnalyzer.to_db_field_name    *)
(* ================================================================== *)

Module TemplateAnalyzer.

(** A dictionary display: a key written twice keeps its last value. *)
Definition dict_display {V : Type} (l : list (str * V)) : list (str * V) :=
  fold_left (fun d kv => set d (fst kv) (snd kv)) l [].

(** The entries of [mapping], as the source lists them. *)
Definition mapping_entries : list (str * str) :=
  [
    (u "陶土种类", u "clay_type");
    (u "陶土纯洁程度", u "clay_purity");
    (u "陶土纯洁程度 ", u "clay_purity");
    (u "陶土细腻程度", u "clay_fineness");
    (u "陶土细腻程度 ", u "clay_fineness");
    (u "掺杂物", u "mixed_materials"); (u "硬度", u "hardness");
    (u "颜色", u "color"); (u "表面处理", u "surface_treatment");
    (u "基本器型", u "basic_shape");
    (u "器型部位特征", u "shape_features");
    (u "器物组合", u "vessel_combination");
    (u "基本尺寸", u "dimensions"); (u "器物功能", u "function");
    (u "成型工艺", u "forming_technique");
    (u "修整技术", u "finishing_technique");
    (u "装饰手法", u "decoration_method");
    (u "纹饰类型", u "decoration_type");
    (u "烧成温度", u "firing_temperature");
    (u "人工物品编号", u "artifact_code");
    (u "制作活动", u "production_activity"); (u "制作者", u "maker");
    (u "制作年代", u "production_date");
    (u "制作地点", u "production_location");
    (u "原始出土地点", u "excavation_location");
    (u "发掘活动", u "excavation_activity");
    (u "出土墓葬", u "found_in_tomb");
    (u "保存状况", u "preservation_status");
    (u "完整程度", u "completeness"); (u "高度", u "height");
    (u "器高", u "height"); (u "通高", u "height");
    (u "口径", u "diameter"); (u "直径", u "diameter");
    (u "腹径", u "diameter"); (u "底径", u "diameter");
    (u "厚度", u "thickness"); (u "壁厚", u "thickness");
    (u "器壁厚度", u "thickness"); (u "量度信息", u "measurements");
    (u "所在墓地", u "location_site");
    (u "所在遗址", u "location_site");
    (u "墓葬编号", u "found_in_tomb"); (u "层位", u "location_layer");
    (u "层位信息", u "location_layer");
    (u "其他单位", u "location_unit");
    (u "灰坑编号", u "location_unit"); (u "出土区域", u "ex_region");
    (u "出土单位", u "ex_unit"); (u "出土层位", u "ex_layer");
    (u "人工物品编号", u "artifact_code");
    (u "一级分类", u "category_level1");
    (u "二级分类", u "category_level2");
    (u "三级分类", u "category_level3"); (u "器型单元", u "shape_unit");
    (u "形状描述", u "shape_description");
    (u "整体形态描述", u "overall_description");
    (u "纹饰单元", u "decoration_unit");
    (u "纹饰单元(按图案题材分类)", u "decoration_unit");
    (u "纹饰主题", u "decoration_theme");
    (u "纹饰描述", u "decoration_description");
    (u "工艺特征单元", u "craft_unit");
    (u "工艺特征单元(按制作痕迹分类)", u "craft_unit");
    (u "切割工艺", u "cutting_technique");
    (u "钻孔工艺", u "drilling_technique");
    (u "雕刻工艺", u "carving_technique");
    (u "装饰工艺", u "decoration_craft"); (u "材质单元", u "jade_type");
    (u "玉料类型", u "jade_type"); (u "玉料质地", u "jade_quality");
    (u "玉料颜色", u "jade_color"); (u "透明度", u "transparency");
    (u "沁色单元", u "surface_condition");
    (u "量度信息", u "measurements"); (u "尺寸", u "dimensions");
    (u "长度", u "length"); (u "长", u "length"); (u "通长", u "length");
    (u "宽度", u "width"); (u "宽", u "width"); (u "厚度", u "thickness");
    (u "厚", u "thickness"); (u "孔径", u "hole_diameter");
    (u "重量", u "weight"); (u "器物功能", u "function");
    (u "使用方式", u "usage"); (u "制作工艺", u "production_technique");
    (u "制作年代", u "production_period");
    (u "原始出土地点", u "excavation_location");
    (u "出土墓葬", u "found_in_tomb");
    (u "保存状况", u "preservation_status");
    (u "完整程度", u "completeness");
    (u "表面状况", u "surface_condition");
    (u "出土区域", u "ex_region"); (u "出土单位", u "ex_unit");
    (u "出土层位", u "ex_layer"); (u "遗址编号", u "site_code");
    (u "遗址名称", u "site_name"); (u "遗址别名", u "site_alias");
    (u "遗址类型", u "site_type"); (u "地理位置", u "current_location");
    (u "现存地点", u "current_location");
    (u "遗址位置", u "current_location");
    (u "遗址当前位置", u "current_location");
    (u "所在地", u "current_location");
    (u "地理坐标", u "geographic_coordinates");
    (u "位置地理数据", u "geographic_coordinates");
    (u "遗址空间数据", u "spatial_data"); (u "海拔", u "elevation");
    (u "遗址面积", u "total_area"); (u "总面积", u "total_area");
    (u "发掘面积", u "excavated_area");
    (u "文化属性", u "culture_name"); (u "所属文化", u "culture_name");
    (u "所属年代", u "absolute_dating");
    (u "绝对年代", u "absolute_dating");
    (u "保护级别", u "protection_level");
    (u "保存状况", u "preservation_status");
    (u "自然环境", u "description"); (u "遗址描述", u "description");
    (u "遗址内子区域", u "site_sub_zone");
    (u "子区域编号或名称", u "sub_zone_name");
    (u "子区域位置描述", u "sub_zone_location");
    (u "子区域内具体单位", u "sub_zone_unit");
    (u "所属子区域", u "parent_sub_zone");
    (u "时期编号", u "period_code"); (u "时期名称", u "period_name");
    (u "时期/期别", u "period_name"); (u "时期别名", u "period_alias");
    (u "起始时间", u "time_span_start");
    (u "结束时间", u "time_span_end");
    (u "绝对年代", u "absolute_dating");
    (u "相对年代", u "relative_dating");
    (u "发展阶段", u "development_stage");
    (u "阶段序列", u "phase_sequence");
    (u "时期顺序", u "phase_sequence");
    (u "时期特征", u "characteristics");
    (u "代表性文物", u "representative_artifacts");
    (u "历史背景朝代", u "historical_era");
    (u "细分时期划分", u "sub_period");
    (u "物理地层归属", u "stratigraphic_layer")
  ].

Definition mapping : list (str * str) :=
  Eval vm_compute in dict_display mapping_entries.

Section Analyzer.
Context {I : Interp}.

(** [re.sub(r'[^\w\s]', '', chinese_name)], stripped, lowered, its
    spaces replaced by underscores. *)
Definition slug (chinese_name : str) : str :=
  let field_name := filter (fun c => isword c || isspace c) chinese_name in
  replace1 32%N 95%N (lower (strip field_name)).

(** Does the slug call for the fallback?
    [not field_name or field_name.isdigit()] *)
Definition needs_fallback (field_name : str) : bool :=
  match field_name with
  | [] => true
  | _ => isdigit field_name
  end.

(** [to_db_field_name(chinese_name)], in a process whose hash secret
    is [k]. *)
Definition to_db_field_name (k : PyHash.secret) (chinese_name : str) : str :=
  match get mapping chinese_name with
  | Some name => name
  | None =>
      let field_name := slug chinese_name in
      if needs_fallback field_name
      then u "field_"
           ++ str_of_Z (Z.abs (PyHash.hash k chinese_name) mod 10000)
      else field_name
  end.

(** ** Properties *)

(** A name of the table, or one whose slug is neither empty nor all
    digits, gets the same storage key in every process: the hash of
    the interpreter is not consulted. *)
Lemma stable_without_fallback k1 k2 chinese_name :
  get mapping chinese_name <> None
  \/ needs_fallback (slug chinese_name) = false ->
  to_db_field_name k1 chinese_name = to_db_field_name k2 chinese_name.
Proof.
  unfold to_db_field_name. intros [Hin | Hslug].
  - destruct (get mapping chinese_name); [reflexivity|congruence].
  - rewrite Hslug. reflexivity.
Qed.

(** A key that starts with an ASCII character other than a digit and
    holds no space. *)
Definition plain_key (name : str) : bool :=
  match name with
  | c :: _ => is_ascii c && negb ((48 <=? c) && (c <=? 57))%N
  | [] => false
  end
  && forallb (fun c => negb (c =? 32)%N) name.

Lemma plain_key_usable name :
  plain_key name = true ->
  needs_fallback name = false
  /\ forallb (fun c => negb (c =? 32)%N) name = true.
Proof.
  unfold plain_key. intros H. apply andb_true_iff in H as [Hc Hs].
  split; [|exact Hs]. destruct name as [|c name]; [discriminate|].
  apply andb_true_iff in Hc as [Ha Hd]. apply negb_true_iff in Hd.
  unfold needs_fallback, isdigit. cbn [forallb].
  unfold isdigit_char at 1. now rewrite Ha, Hd.
Qed.

Lemma get_In {V} (d : list (str * V)) k v : get d k = Some v -> In (k, v) d.
Proof.
  induction d as [|[k' v'] d IH]; simpl; [discriminate|].
  destruct (str_eqb_spec k' k) as [->|_].
  - intros [= ->]. now left.
  - intros H. right. now apply IH.
Qed.

Lemma mapping_plain : forallb (fun kv => plain_key (snd kv)) mapping = true.
Proof. vm_compute. reflexivity. Qed.

Lemma replace1_absent old new s :
  old <> new ->
  forallb (fun c => negb (c =? old)%N) (replace1 old new s) = true.
Proof.
  intros Hne. unfold replace1. apply forallb_forall. intros c Hc.
  apply in_map_iff in Hc as (x & <- & _).
  destruct (N.eqb_spec x old) as [->|Hx].
  - apply negb_true_iff. now apply N.eqb_neq.
  - apply negb_true_iff. now apply N.eqb_neq.
Qed.

(** Whatever the name and whatever the process, the storage key is
    not empty, is not made of digits only, and holds no space. *)
Theorem storage_key_is_usable k chinese_name :
  needs_fallback (to_db_field_name k chinese_name) = false
  /\ forallb (fun c => negb (c =? 32)%N) (to_db_field_name k chinese_name)
     = true.
Proof.
  unfold to_db_field_name.
  destruct (get mapping chinese_name) as [name|] eqn:Hget.
  - apply plain_key_usable. apply get_In in Hget.
    pose proof mapping_plain as Hall. rewrite forallb_forall in Hall.
    exact (Hall _ Hget).
  - destruct (needs_fallback (slug chinese_name)) eqn:Hslug.
    + apply plain_key_usable. unfold plain_key.
      change (u "field_") with ([102; 105; 101; 108; 100; 95]%N).
      cbn [app is_ascii andb negb forallb N.ltb N.leb N.eqb N.compare
           Pos.compare Pos.compare_cont Pos.eqb].
      apply forallb_forall. intros c Hc. apply negb_true_iff, N.eqb_neq.
      intros ->. unfold str_of_Z in Hc.
      destruct (Z.ltb_spec (Z.abs (PyHash.hash k chinese_name) mod 10000) 0)
        as [Hneg|_].
      * pose proof (Z.mod_pos_bound (Z.abs (PyHash.hash k chinese_name))
                      10000 eq_refl). lia.
      * pose proof (ExpandRanges.str_of_nat_nonspace
                      (Z.to_nat (Z.abs (PyHash.hash k chinese_name)
                                 mod 10000))) as Hns.
        rewrite Forall_forall in Hns. now specialize (Hns _ Hc).
    + split; [exact Hslug|]. unfold slug. now apply replace1_absent.
Qed.

End Analyzer.

(** C3 at two failing inputs: a numeric name and a name made of
    punctuation take the fallback, and the storage key differs
    between a process started with [PYTHONHASHSEED=1] and one started
    with [PYTHONHASHSEED=2]. *)
Theorem fallback_name_depends_on_the_process :
  to_db_field_name (PyHash.secret_of_seed 1) (u "123") = u "field_5022"
  /\ to_db_field_name (PyHash.secret_of_seed 2) (u "123") = u "field_1857"
  /\ to_db_field_name (PyHash.secret_of_seed 1) (u "——") = u "field_1554"
  /\ to_db_field_name (PyHash.secret_of_seed 2) (u "——") = u "field_3541".
Proof. repeat split; vm_compute; reflexivity. Qed.

Lemma stable_without_fallback_witness :
  to_db_field_name (PyHash.secret_of_seed 1) (u "出土 深度(cm)")
  = to_db_field_name (PyHash.secret_of_seed 2) (u "出土 深度(cm)").
Proof.
  apply stable_without_fallback. right. vm_compute. reflexivity.
Defined.

(** Names of the table and names with a proper slug, for comparison. *)
Lemma known_and_slugged_names :
  to_db_field_name (PyHash.secret_of_seed 1) (u "制作年代")
  = u "production_period"
  /\ to_db_field_name (PyHash.secret_of_seed 2) (u "制作年代")
     = u "production_period"
  /\ to_db_field_name (PyHash.secret_of_seed 1) (u "出土 深度(cm)")
     = u "出土_深度cm"
  /\ to_db_field_name (PyHash.secret_of_seed 2) (u "出土 深度(cm)")
     = u "出土_深度cm".
Proof. repeat split; vm_compute; reflexivity. Qed.

End TemplateAnalyzer.

(* ================================================================== *)
(** * [src/workflow.py]: the orchestrator                              *)
(* ================================================================== *)

(** What surrounds a running task: the operator who may press "abort"
    (the GUI then writes the status [aborted]), the disk on which the
    recovery files are written, the clock.  Each is asked at a tick,
    the count of the task's dealings with its surroundings so far. *)
Class Environment := {
  (* has [aborted] been written to the task's status before this tick? *)
  abort_pressed : nat -> bool;
  (* the message of the error with which a write at this tick fails *)
  disk_error : nat -> option str;
  (* [datetime.now().strftime('%Y%m%d_%H%M%S')] at this tick *)
  timestamp : nat -> str;
  (* [traceback.format_exc()] *)
  format_exc : exn -> str
}.

Module Workflow.
Import AutomatedExtractor.

Section Flow.
Context {I : Interp} {L : LLM} {Env : Environment}.

(** The rest of the world: the tables of the database other than the
    task's status and the log, the report folders, the templates. *)
Variable E : Type.

Definition log_entry := (str * str)%type.        (* (log_level, message) *)

(** The state a task runs in. *)
Record world := {
  status : str;                 (* [extraction_tasks.status] of the task *)
  logs : list log_entry;        (* [extraction_logs], oldest first *)
  files : list (str * str);     (* [logs/failed_responses]: name, content *)
  printed : list str;           (* what was printed *)
  llm_calls : nat;              (* calls of the model so far *)
  ticks : nat;
  observed : nat;               (* checkpoints that have seen [aborted] *)
  ext : E
}.

(** A step of the task: it returns or raises, and leaves a state. *)
Definition M (A : Type) := world -> result A * world.

Definition ret {A} (a : A) : M A := fun w => (Ok a, w).

Definition raise {A} (e : exn) : M A := fun w => (Raise e, w).

Definition mbind {A B} (c : M A) (k : A -> M B) : M B :=
  fun w => match c w with
           | (Ok a, w') => k a w'
           | (Raise e, w') => (Raise e, w')
           end.

(** [try: c  except Exception as e: h(e)] *)
Definition try_except {A} (c : M A) (h : exn -> M A) : M A :=
  fun w => match c w with
           | (Ok a, w') => (Ok a, w')
           | (Raise e, w') => h e w'
           end.

Notation "x <-- c ;; k" := (mbind c (fun x => k))
  (at level 61, c at next level, right associativity).
Notation "c ;;; k" := (mbind c (fun _ => k))
  (at level 61, right associativity).

(** [for x in l: body(x)] *)
Fixpoint for_each {A} (l : list A) (body : A -> M unit) : M unit :=
  match l with
  | [] => ret tt
  | x :: l' => body x ;;; for_each l' body
  end.

(** A collaborator that is not modelled further: it works on the rest
    of the world, may write log entries, and returns or raises. *)
Definition op (A : Type) := E -> result A * E * list log_entry.

Definition call {A} (o : op A) : M A :=
  fun w =>
    let '(r, e', entries) := o (ext w) in
    (r, {| status := status w; logs := logs w ++ entries;
           files := files w; printed := printed w;
           llm_calls := llm_calls w; ticks := ticks w;
           observed := observed w; ext := e' |}).

(** [self.db.add_log(task_id, level, message)] *)
Definition add_log (level message : str) : M unit :=
  fun w =>
    (Ok tt, {| status := status w; logs := logs w ++ [(level, message)];
               files := files w; printed := printed w;
               llm_calls := llm_calls w; ticks := ticks w;
               observed := observed w; ext := ext w |}).

(** [self.db.update_task_status(task_id, s)] *)
Definition update_task_status (s : str) : M unit :=
  fun w =>
    (Ok tt, {| status := s; logs := logs w;
               files := files w; printed := printed w;
               llm_calls := llm_calls w; ticks := ticks w;
               observed := observed w; ext := ext w |}).

Definition INFO : str := u "INFO".
Definition WARNING : str := u "WARNING".
Definition ERROR : str := u "ERROR".
Definition ABORTED : str := u "aborted".

(** The exception a checkpoint raises. *)
Definition cancelled : exn := OtherError (u "任务已由用户手动中止").

Definition abort_notice : log_entry :=
  (WARNING, u "检测到中止信号，正在停止任务...").

(** [_check_cancellation(task_id)].  The status read is the one the
    task wrote last, unless the operator has pressed "abort" since. *)
Definition _check_cancellation : M unit :=
  fun w =>
    let s := if abort_pressed (ticks w) then ABORTED else status w in
    if str_eqb s ABORTED then
      (Raise cancelled,
       {| status := s; logs := logs w ++ [abort_notice];
          files := files w; printed := printed w;
          llm_calls := llm_calls w; ticks := S (ticks w);
          observed := S (observed w); ext := ext w |})
    else
      (Ok tt,
       {| status := s; logs := logs w;
          files := files w; printed := printed w;
          llm_calls := llm_calls w; ticks := S (ticks w);
          observed := observed w; ext := ext w |}).

(** [call_llm_api(prompt, self.llm_config)] *)
Definition ask_llm (prompt : str) : M str :=
  fun w =>
    (call_llm_api (llm_calls w) prompt,
     {| status := status w; logs := logs w;
        files := files w; printed := printed w;
        llm_calls := S (llm_calls w); ticks := ticks w;
        observed := observed w; ext := ext w |}).

(** A [result] computed without the world. *)
Definition pure {A} (r : result A) : M A := fun w => (r, w).

(** ** The chunk loop of [_extract_artifacts] *)

(** The arguments of [_extract_artifacts]. *)
Record job := {
  task_id : str;
  site_id : value;               (* an integer or [None] *)
  report_folder : str;
  template_path : str;
  artifact_type : str
}.

(** [for artifact in artifacts: artifact[...] = ...], after a lone
    dictionary was wrapped in a list: the records, or the TypeError of
    a value that cannot be iterated or of an element that takes no
    item assignment.  (The empty string iterates over nothing.  The
    messages stand for the interpreter's, whose wording depends on
    the type at hand.) *)
Definition as_records (artifacts : value) : result (list dict) :=
  match artifacts with
  | VDict d => Ok [d]
  | VList l =>
      fold_right (fun v acc =>
                    match v with
                    | VDict d => rest <- acc ;; Ok (d :: rest)
                    | _ => Raise (TypeError
                             (u "object does not support item assignment"))
                    end) (Ok []) l
  | VStr [] => Ok []
  | VStr _ => Raise (TypeError
                (u "'str' object does not support item assignment"))
  | _ => Raise (TypeError (u "object is not iterable"))
  end.

(** The metadata every record of a chunk receives. *)
Definition with_metadata (j : job) (i : nat) (tomb_name : str)
           (artifact : dict) : dict :=
  let artifact := set artifact (u "task_id") (VStr (task_id j)) in
  let artifact := set artifact (u "site_id") (site_id j) in
  let artifact := set artifact (u "source_text_blocks")
                      (VStr (u "[" ++ str_of_nat i ++ u "]")) in
  let artifact := set artifact (u "extraction_confidence")
                      (VFloat 0.8%float) in
  set artifact (u "found_in_tomb") (VStr tomb_name).

(** The local variables the chunk loop carries from one iteration to
    the next: [all_artifacts], and [response], unbound until the model
    first answers. *)
Record locals := {
  all_artifacts : list dict;
  response : option str
}.

(** [f"failed_{task_id}_{timestamp}_{i}_{chunk_idx}.txt"] *)
Definition recovery_name (j : job) (stamp : str) (i chunk_idx : nat) : str :=
  u "failed_" ++ task_id j ++ u "_" ++ stamp ++ u "_" ++ str_of_nat i
    ++ u "_" ++ str_of_nat chunk_idx ++ u ".txt".

(** What is written to the recovery file. *)
Definition recovery_text (j : job) (tomb_name : str) (chunk_idx : nat)
           (e : exn) (raw : str) : str :=
  u "Task ID: " ++ task_id j ++ [NL]
  ++ u "Artifact Type: " ++ artifact_type j ++ [NL]
  ++ u "Context: " ++ tomb_name ++ u " (Chunk " ++ str_of_nat (chunk_idx + 1)
  ++ u ")" ++ [NL]
  ++ u "Error: " ++ exn_str e ++ [NL]
  ++ repeat (chr "-") 50 ++ [NL]
  ++ raw.

Definition saved_notice (filename : str) : log_entry :=
  (WARNING, u "已保存失败的响应片段至: " ++ filename
            ++ u "，可在任务管理中查看并恢复").

(** The inner [try] of the handler: the recovery file is written, or
    the error of the write is printed. *)
Definition save_response (j : job) (i chunk_idx : nat) (tomb_name : str)
           (e : exn) (raw : str) : M unit :=
  fun w =>
    let filename := recovery_name j (timestamp (ticks w)) i chunk_idx in
    match disk_error (ticks w) with
    | None =>
        (Ok tt,
         {| status := status w; logs := logs w ++ [saved_notice filename];
            files := set (files w) filename
                         (recovery_text j tomb_name chunk_idx e raw);
            printed := printed w;
            llm_calls := llm_calls w; ticks := S (ticks w);
            observed := observed w; ext := ext w |})
    | Some save_err =>
        (Ok tt,
         {| status := status w; logs := logs w;
            files := files w;
            printed := printed w ++ [u "保存失败响应时出错: " ++ save_err];
            llm_calls := llm_calls w; ticks := S (ticks w);
            observed := observed w; ext := ext w |})
    end.

Definition chunk_label (tomb_name : str) (chunk_idx : nat) : str :=
  tomb_name ++ u " (片段" ++ str_of_nat (chunk_idx + 1) ++ u ")".

(** The [except Exception as e:] of a chunk. *)
Definition chunk_failed (j : job) (i chunk_idx : nat) (tomb_name : str)
           (st : locals) (e : exn) : M locals :=
  add_log ERROR (chunk_label tomb_name chunk_idx ++ u " 抽取失败: "
                 ++ exn_str e) ;;;
  match response st with
  | Some (c :: raw) => save_response j i chunk_idx tomb_name e (c :: raw)
  | _ => ret tt
  end ;;;
  ret st.

(** The [try:] of a chunk, and its handler.  [response] is bound as
    soon as the model has answered, whatever follows. *)
Definition try_chunk (j : job) (i chunk_idx : nat) (tomb_name prompt : str)
           (st : locals) : M locals :=
  fun w =>
    match ask_llm prompt w with
    | (Raise e, w1) => chunk_failed j i chunk_idx tomb_name st e w1
    | (Ok answer, w1) =>
        let st1 := {| all_artifacts := all_artifacts st;
                      response := Some answer |} in
        match (artifacts <- extract_json_from_response answer ;;
               as_records artifacts) with
        | Raise e => chunk_failed j i chunk_idx tomb_name st1 e w1
        | Ok records =>
            (add_log INFO (chunk_label tomb_name chunk_idx ++ u " 抽取到 "
                           ++ str_of_nat (List.length records) ++ u " 件") ;;;
             ret {| all_artifacts :=
                      all_artifacts st1
                      ++ map (with_metadata j i tomb_name) records;
                    response := Some answer |}) w1
        end
    end.

(** [self.prompt_generator.generate_prompt(artifact_type,
    template_path, chunk_text, context)], the context being the tomb
    name and the name of the site, read from the database. *)
Variable generate_prompt : job -> str -> str -> op str.

(** One iteration of [for chunk_idx, chunk_text in enumerate(text_chunks)]. *)
Definition chunk_step (j : job) (i n_chunks : nat) (tomb_name : str)
           (st : locals) (chunk : nat * str) : M locals :=
  let (chunk_idx, chunk_text) := chunk in
  _check_cancellation ;;;
  (if (1 <? n_chunks)%nat
   then add_log INFO (u "  -> 正在抽取片段 " ++ str_of_nat (chunk_idx + 1)
                      ++ u "/" ++ str_of_nat n_chunks ++ u "...")
   else ret tt) ;;;
  prompt <-- call (generate_prompt j tomb_name chunk_text) ;;
  try_chunk j i chunk_idx tomb_name prompt st.

(** A loop that carries local variables. *)
Fixpoint fold_m {A S} (body : S -> A -> M S) (l : list A) (st : S) : M S :=
  match l with
  | [] => ret st
  | x :: l' => st' <-- body st x ;; fold_m body l' st'
  end.

Definition enumerate {A} (l : list A) : list (nat * A) :=
  combine (seq 0 (List.length l)) l.

(** One iteration of [for i, tomb_block in enumerate(tomb_blocks)]. *)
Definition tomb_step (j : job) (n_blocks : nat) (st : locals)
           (block : nat * (str * str)) : M locals :=
  let '(i, (tomb_name, tomb_text)) := block in
  _check_cancellation ;;;
  add_log INFO (u "处理 " ++ tomb_name ++ u " (" ++ str_of_nat (i + 1)
                ++ u "/" ++ str_of_nat n_blocks ++ u ")") ;;;
  match SplitLargeText._split_large_text tomb_text 3000 300 with
  | None => ret st        (* not reached: [_split_large_text_total] *)
  | Some text_chunks =>
      (if (1 <? List.length text_chunks)%nat
       then add_log INFO (u "文本过长，已切分为 "
                          ++ str_of_nat (List.length text_chunks)
                          ++ u " 个片段进行抽取")
       else ret tt) ;;;
      fold_m (chunk_step j i (List.length text_chunks) tomb_name)
             (enumerate text_chunks) st
  end.

(** Reading [full.md] of the report folder. *)
Variable read_report : str -> op str.

(** What follows the chunk loop in [_extract_artifacts]: expansion of
    code ranges, tomb names, merging, field mapping, insertion, image
    linking; it returns [len(merged_artifacts)]. *)
Variable store_artifacts : job -> list dict -> op nat.

(** [_extract_artifacts(task_id, site_id, report_folder,
    template_path, artifact_type)] *)
Definition _extract_artifacts (j : job) : M nat :=
  full_text <-- call (read_report (report_folder j)) ;;
  let tomb_dict := ContentExtractor.split_by_tomb full_text in
  tomb_blocks <--
    match tomb_dict with
    | [] => add_log WARNING (u "未找到墓葬分块，使用整体文本") ;;;
            ret [(u "全文", full_text)]
    | _ => ret tomb_dict
    end ;;
  add_log INFO (u "文本分为" ++ str_of_nat (List.length tomb_blocks)
                ++ u "个墓葬块") ;;;
  st <-- fold_m (tomb_step j (List.length tomb_blocks))
                (enumerate tomb_blocks)
                {| all_artifacts := []; response := None |} ;;
  call (store_artifacts j (all_artifacts st)).

(** ** [execute_full_extraction] *)

(** [TemplateAnalyzer(template_path).get_template_definitions(type_key)]
    and [self.db.register_template_mappings(mappings)]. *)
Variable register_template : str -> str -> op unit.

(** [_index_images(task_id, report_folder)]: the number of images. *)
Variable _index_images : str -> str -> op nat.

(** Step 3, the site: reuse, update, merge or insertion of the site
    record; it returns [site_id], an integer or [None]. *)
Variable site_phase : str -> str -> list (str * str) -> op value.

(** [_extract_periods(task_id, site_id, report_folder, template)] *)
Variable _extract_periods : str -> value -> str -> str -> op nat.

(** [self.db.update_task_statistics(task_id, {...})]: pottery, jade,
    periods, images. *)
Variable update_task_statistics : str -> nat -> nat -> nat -> nat -> op unit.

(** [self.create_task(report_folder, report_name)] *)
Variable create_task : str -> option str -> op str.

Definition template_of (templates : list (str * str)) (k : str) : str :=
  match get templates k with Some t => t | None => [] end.

(** The registration of one template, failures logged and passed
    over. *)
Definition register_step (kv : str * str) : M unit :=
  let (type_key, template_path) := kv in
  _check_cancellation ;;;
  try_except
    (call (register_template type_key template_path) ;;;
     add_log INFO (u "已注册 " ++ type_key ++ u " 模版映射"))
    (fun e => add_log WARNING (type_key ++ u " 模版注册失败: " ++ exn_str e)).

Definition artifacts_phase (tid : str) (sid : value) (folder : str)
           (templates : list (str * str)) (kind : str)
           (starting finished : str) : M nat :=
  if has_key templates kind then
    _check_cancellation ;;;
    add_log INFO starting ;;;
    n <-- _extract_artifacts
            {| task_id := tid; site_id := sid; report_folder := folder;
               template_path := template_of templates kind;
               artifact_type := kind |} ;;
    add_log INFO (finished ++ str_of_nat n ++ u "件") ;;;
    ret n
  else ret 0%nat.

(** The [try:] of [execute_full_extraction]. *)
Definition extraction (tid folder : str) (templates : list (str * str))
  : M str :=
  update_task_status (u "running") ;;;
  _check_cancellation ;;;
  add_log INFO (u "注册模版映射...") ;;;
  for_each templates register_step ;;;
  _check_cancellation ;;;
  add_log INFO (u "索引图片...") ;;;
  total <-- call (_index_images tid folder) ;;
  add_log INFO (u "图片索引完成: " ++ str_of_nat total ++ u "张") ;;;
  _check_cancellation ;;;
  sid <-- call (site_phase tid folder templates) ;;
  period_count <--
    (if has_key templates (u "period") && truthy sid then
       _check_cancellation ;;;
       add_log INFO (u "抽取时期信息...") ;;;
       n <-- call (_extract_periods tid sid folder
                                    (template_of templates (u "period"))) ;;
       add_log INFO (u "时期信息抽取完成: " ++ str_of_nat n ++ u "个") ;;;
       ret n
     else ret 0%nat) ;;
  pottery_count <--
    artifacts_phase tid sid folder templates (u "pottery")
                    (u "抽取陶器信息...") (u "陶器信息抽取完成: ") ;;
  jade_count <--
    artifacts_phase tid sid folder templates (u "jade")
                    (u "抽取玉器信息...") (u "玉器信息抽取完成: ") ;;
  call (update_task_statistics tid pottery_count jade_count
                               period_count total) ;;;
  update_task_status (u "completed") ;;;
  add_log INFO (u "抽取流程完成") ;;;
  ret tid.

(** The [except Exception as e:] of [execute_full_extraction]. *)
Definition extraction_failed (e : exn) : M str :=
  add_log ERROR (u "抽取失败: " ++ exn_str e) ;;;
  update_task_status (u "failed") ;;;
  add_log ERROR (u "错误详情: " ++ firstn 500 (format_exc e)) ;;;
  raise e.

(** [execute_full_extraction(report_folder, templates, report_name,
    bot_id, api_key, task_id)].  The two credentials only select the
    model that answers, which is [L] here. *)
Definition execute_full_extraction (folder : str)
           (templates : list (str * str)) (report_name task_id : option str)
  : M str :=
  tid <-- match task_id with
          | Some (c :: t) => ret (c :: t)
          | _ => call (create_task folder report_name)
          end ;;
  add_log INFO (u "开始抽取流程") ;;;
  try_except (extraction tid folder templates) extraction_failed.

(** ** Properties *)

(** A step without checkpoint: no abort is observed in it. *)
Definition quiet {A} (c : M A) : Prop :=
  forall w r w', c w = (r, w') -> observed w' = observed w.

(** The state a checkpoint leaves when it raises: the status read is
    [aborted], and the last log entry is the warning. *)
Definition just_cancelled (w : world) : Prop :=
  status w = ABORTED /\ exists before, logs w = before ++ [abort_notice].

(** A step whose checkpoints are heeded: either none of them observes
    an abort, or one does and the step raises [cancelled] from there,
    nothing else being done after the checkpoint. *)
Definition checked {A} (c : M A) : Prop :=
  forall w r w', c w = (r, w') ->
    observed w' = observed w
    \/ (r = Raise cancelled /\ observed w' = S (observed w)
        /\ just_cancelled w').

Lemma quiet_checked {A} (c : M A) : quiet c -> checked c.
Proof. intros Hq w r w' H. left. exact (Hq w r w' H). Qed.

Lemma quiet_ret {A} (a : A) : quiet (ret a).
Proof. intros w r w' [= <- <-]. reflexivity. Qed.

Lemma quiet_raise {A} (e : exn) : quiet (@raise A e).
Proof. intros w r w' [= <- <-]. reflexivity. Qed.

Lemma quiet_add_log level message : quiet (add_log level message).
Proof. intros w r w' [= <- <-]. reflexivity. Qed.

Lemma quiet_update_task_status s : quiet (update_task_status s).
Proof. intros w r w' [= <- <-]. reflexivity. Qed.

Lemma quiet_call {A} (o : op A) : quiet (call o).
Proof.
  intros w r w'. unfold call.
  destruct (o (ext w)) as [[r0 e0] entries]. intros [= <- <-]. reflexivity.
Qed.

Lemma quiet_ask_llm prompt : quiet (ask_llm prompt).
Proof. intros w r w' [= <- <-]. reflexivity. Qed.

Lemma quiet_save_response j i chunk_idx tomb_name e raw :
  quiet (save_response j i chunk_idx tomb_name e raw).
Proof.
  intros w r w'. unfold save_response.
  destruct (disk_error (ticks w)); intros [= <- <-]; reflexivity.
Qed.

Lemma quiet_bind {A B} (c : M A) (k : A -> M B) :
  quiet c -> (forall a, quiet (k a)) -> quiet (mbind c k).
Proof.
  intros Hc Hk w r w'. unfold mbind.
  destruct (c w) as [[a|e] w1] eqn:Ec.
  - intros H. rewrite (Hk a w1 r w' H). exact (Hc w _ w1 Ec).
  - intros [= <- <-]. exact (Hc w _ w1 Ec).
Qed.

Lemma quiet_try_except {A} (c : M A) (h : exn -> M A) :
  quiet c -> (forall e, quiet (h e)) -> quiet (try_except c h).
Proof.
  intros Hc Hh w r w'. unfold try_except.
  destruct (c w) as [[a|e] w1] eqn:Ec.
  - intros [= <- <-]. exact (Hc w _ w1 Ec).
  - intros H. rewrite (Hh e w1 r w' H). exact (Hc w _ w1 Ec).
Qed.

Ltac quiet_step :=
  match goal with
  | |- quiet (ret _) => apply quiet_ret
  | |- quiet (raise _) => apply quiet_raise
  | |- quiet (add_log _ _) => apply quiet_add_log
  | |- quiet (update_task_status _) => apply quiet_update_task_status
  | |- quiet (call _) => apply quiet_call
  | |- quiet (ask_llm _) => apply quiet_ask_llm
  | |- quiet (save_response _ _ _ _ _ _) => apply quiet_save_response
  | |- quiet (mbind _ _) => apply quiet_bind; [|intros]
  | |- quiet (try_except _ _) => apply quiet_try_except; [|intros]
  | |- quiet (if ?b then _ else _) => destruct b
  | |- quiet (match ?x with _ => _ end) => destruct x
  end.

Lemma quiet_chunk_failed j i chunk_idx tomb_name st e :
  quiet (chunk_failed j i chunk_idx tomb_name st e).
Proof. unfold chunk_failed. repeat quiet_step. Qed.

Lemma quiet_try_chunk j i chunk_idx tomb_name prompt st :
  quiet (try_chunk j i chunk_idx tomb_name prompt st).
Proof.
  intros w r w'. unfold try_chunk, ask_llm.
  destruct (call_llm_api (llm_calls w) prompt) as [answer|e].
  - destruct (artifacts <- extract_json_from_response answer ;;
              as_records artifacts) as [records|e].
    + intros H.
      assert (Hq : quiet (add_log INFO
                    (chunk_label tomb_name chunk_idx ++ u " 抽取到 "
                     ++ str_of_nat (List.length records) ++ u " 件") ;;;
                  ret {| all_artifacts :=
                           all_artifacts
                             {| all_artifacts := all_artifacts st;
                                response := Some answer |}
                           ++ map (with_metadata j i tomb_name) records;
                         response := Some answer |}))
        by repeat quiet_step.
      exact (Hq _ _ _ H).
    + intros H. exact (quiet_chunk_failed _ _ _ _ _ _ _ _ _ H).
  - intros H. exact (quiet_chunk_failed _ _ _ _ _ _ _ _ _ H).
Qed.

Lemma checked_check : checked _check_cancellation.
Proof.
  intros w r w'. unfold _check_cancellation.
  destruct (str_eqb_spec (if abort_pressed (ticks w) then ABORTED
                          else status w) ABORTED) as [Hs|Hs];
    intros [= <- <-]; simpl.
  - right. repeat split; [exact Hs|]. now exists (logs w).
  - now left.
Qed.

Lemma checked_bind {A B} (c : M A) (k : A -> M B) :
  checked c -> (forall a, checked (k a)) -> checked (mbind c k).
Proof.
  intros Hc Hk w r w'. unfold mbind.
  destruct (c w) as [[a|e] w1] eqn:Ec.
  - intros H. destruct (Hc w _ w1 Ec) as [Hq | [Habs _]]; [|discriminate].
    destruct (Hk a w1 r w' H) as [Hq' | (Hr & Ho & Hj)].
    + left. congruence.
    + right. repeat split; [exact Hr | congruence | apply Hj | apply Hj].
  - intros [= <- <-].
    destruct (Hc w _ w1 Ec) as [Hq | (Hr & Ho & Hj)]; [now left|].
    right. injection Hr as ->. repeat split; [exact Ho | apply Hj | apply Hj].
Qed.

Lemma checked_for_each {A} (l : list A) (body : A -> M unit) :
  (forall x, checked (body x)) -> checked (for_each l body).
Proof.
  intros Hb. induction l as [|x l IH]; simpl.
  - apply quiet_checked, quiet_ret.
  - apply checked_bind; [apply Hb | intros _; exact IH].
Qed.

Lemma checked_fold_m {A S} (body : S -> A -> M S) (l : list A) :
  (forall st x, checked (body st x)) -> forall st, checked (fold_m body l st).
Proof.
  intros Hb. induction l as [|x l IH]; intros st; simpl.
  - apply quiet_checked, quiet_ret.
  - apply checked_bind; [apply Hb | intros st'; apply IH].
Qed.

Ltac checked_step :=
  match goal with
  | |- checked _check_cancellation => apply checked_check
  | |- checked (mbind _ _) => apply checked_bind; [|intros]
  | |- checked (for_each _ _) => apply checked_for_each; intros
  | |- checked (fold_m _ _ _) => apply checked_fold_m; intros
  | |- checked (try_chunk _ _ _ _ _ _) =>
      apply quiet_checked, quiet_try_chunk
  | |- checked (if ?b then _ else _) => destruct b
  | |- checked (match ?x with _ => _ end) => destruct x
  | |- checked (let (_, _) := ?x in _) => destruct x
  | |- checked _ => apply quiet_checked; repeat quiet_step
  end.

Lemma checked_chunk_step j i n tomb_name st chunk :
  checked (chunk_step j i n tomb_name st chunk).
Proof. unfold chunk_step. destruct chunk. repeat checked_step. Qed.

Lemma checked_tomb_step j n st block :
  checked (tomb_step j n st block).
Proof.
  unfold tomb_step. destruct block as [i [tomb_name tomb_text]].
  apply checked_bind; [apply checked_check | intros _].
  apply checked_bind; [apply quiet_checked, quiet_add_log | intros _].
  destruct (SplitLargeText._split_large_text tomb_text 3000 300).
  - apply checked_bind.
    + destruct (1 <? List.length l)%nat; apply quiet_checked;
        repeat quiet_step.
    + intros _. apply checked_fold_m. intros. apply checked_chunk_step.
  - apply quiet_checked, quiet_ret.
Qed.

Lemma checked_extract_artifacts j : checked (_extract_artifacts j).
Proof.
  unfold _extract_artifacts.
  apply checked_bind; [apply quiet_checked, quiet_call | intros full_text].
  apply checked_bind.
  { destruct (ContentExtractor.split_by_tomb full_text);
      apply quiet_checked; repeat quiet_step. }
  intros tomb_blocks.
  apply checked_bind; [apply quiet_checked, quiet_add_log | intros _].
  apply checked_bind.
  { apply checked_fold_m. intros. apply checked_tomb_step. }
  intros st. apply quiet_checked, quiet_call.
Qed.

Lemma checked_artifacts_phase tid sid folder templates kind s f :
  checked (artifacts_phase tid sid folder templates kind s f).
Proof.
  unfold artifacts_phase. destruct (has_key templates kind).
  - apply checked_bind; [apply checked_check | intros _].
    apply checked_bind; [apply quiet_checked, quiet_add_log | intros _].
    apply checked_bind; [apply checked_extract_artifacts | intros n].
    apply quiet_checked. repeat quiet_step.
  - apply quiet_checked, quiet_ret.
Qed.

Lemma checked_register_step kv : checked (register_step kv).
Proof.
  unfold register_step. destruct kv as [type_key template_path].
  apply checked_bind; [apply checked_check | intros _].
  apply quiet_checked. repeat quiet_step.
Qed.

Lemma checked_extraction tid folder templates :
  checked (extraction tid folder templates).
Proof.
  unfold extraction.
  apply checked_bind; [apply quiet_checked, quiet_update_task_status|intros _].
  apply checked_bind; [apply checked_check | intros _].
  apply checked_bind; [apply quiet_checked, quiet_add_log | intros _].
  apply checked_bind;
    [apply checked_for_each; intros; apply checked_register_step | intros _].
  apply checked_bind; [apply checked_check | intros _].
  apply checked_bind; [apply quiet_checked, quiet_add_log | intros _].
  apply checked_bind; [apply quiet_checked, quiet_call | intros total].
  apply checked_bind; [apply quiet_checked, quiet_add_log | intros _].
  apply checked_bind; [apply checked_check | intros _].
  apply checked_bind; [apply quiet_checked, quiet_call | intros sid].
  apply checked_bind.
  { destruct (has_key templates (u "period") && truthy sid).
    - apply checked_bind; [apply checked_check | intros _].
      apply quiet_checked. repeat quiet_step.
    - apply quiet_checked, quiet_ret. }
  intros period_count.
  apply checked_bind; [apply checked_artifacts_phase | intros pottery_count].
  apply checked_bind; [apply checked_artifacts_phase | intros jade_count].
  apply quiet_checked. repeat quiet_step.
Qed.

Lemma extraction_failed_eq e w :
  extraction_failed e w
  = (Raise e,
     {| status := u "failed";
        logs := (logs w ++ [(ERROR, u "抽取失败: " ++ exn_str e)])
                ++ [(ERROR, u "错误详情: " ++ firstn 500 (format_exc e))];
        files := files w; printed := printed w;
        llm_calls := llm_calls w; ticks := ticks w;
        observed := observed w; ext := ext w |}).
Proof. reflexivity. Qed.

Lemma cancelled_message :
  u "抽取失败: " ++ exn_str cancelled = u "抽取失败: 任务已由用户手动中止".
Proof. vm_compute. reflexivity. Qed.

(** C1, as the code has it.  Whenever a checkpoint of a running task
    observes the status [aborted], the checkpoint logs its WARNING and
    raises; the exception reaches the handler of
    [execute_full_extraction], which logs it twice as an ERROR and
    overwrites the status [aborted] with [failed] before raising it
    again.  The task ends in [failed], not in [aborted]. *)
Theorem cancellation_ends_in_failed
        folder templates report_name task_id w r w' :
  execute_full_extraction folder templates report_name task_id w = (r, w') ->
  observed w < observed w' ->
  r = Raise cancelled
  /\ status w' = u "failed"
  /\ exists before,
       logs w'
       = before
         ++ [ abort_notice;
              (ERROR, u "抽取失败: 任务已由用户手动中止");
              (ERROR, u "错误详情: " ++ firstn 500 (format_exc cancelled)) ].
Proof.
  unfold execute_full_extraction. intros H Hobs.
  unfold mbind at 1 in H.
  destruct (match task_id with
            | Some (c :: t) => ret (c :: t)
            | _ => call (create_task folder report_name)
            end w) as [[tid|e] w1] eqn:E1.
  2:{ injection H as <- <-.
      assert (Hq : quiet (match task_id with
                          | Some (c :: t) => ret (c :: t)
                          | _ => call (create_task folder report_name)
                          end)) by repeat quiet_step.
      rewrite (Hq _ _ _ E1) in Hobs. lia. }
  assert (Hq1 : observed w1 = observed w).
  { assert (Hq : quiet (match task_id with
                        | Some (c :: t) => ret (c :: t)
                        | _ => call (create_task folder report_name)
                        end)) by repeat quiet_step.
    exact (Hq _ _ _ E1). }
  unfold mbind at 1 in H. unfold try_except in H.
  cbv beta iota zeta delta [add_log] in H.
  match type of H with
  | context [extraction tid folder templates ?w2] =>
      destruct (extraction tid folder templates w2) as [[a|e] w3] eqn:E3;
      pose proof (checked_extraction tid folder templates w2 _ w3 E3) as Hc;
      simpl observed in Hc
  end.
  - injection H as <- <-. destruct Hc as [Hc | [Habs _]]; [|discriminate].
    rewrite Hc, Hq1 in Hobs. lia.
  - destruct Hc as [Hc | (Hr & Ho & Hs & before & Hl)].
    + assert (Hh : quiet (extraction_failed e))
        by (unfold extraction_failed; repeat quiet_step).
      rewrite (Hh _ _ _ H), Hc, Hq1 in Hobs. lia.
    + injection Hr as ->. rewrite extraction_failed_eq in H.
      apply pair_equal_spec in H. destruct H as [<- <-].
      split; [reflexivity|]. split; [reflexivity|].
      exists before. cbn [logs]. rewrite Hl, <- !app_assoc.
      rewrite cancelled_message. reflexivity.
Qed.

(** C2 (amended).  When the model has answered a chunk with a
    non-empty text from which no strategy recovers JSON, the
    exception does not leave the call site: the chunk contributes no
    record, the error is logged as an ERROR, and the raw text is
    written, with the task, the artifact type, the tomb and chunk and
    the error, to a recovery file named after the task and the chunk.
    Only when that write itself fails is the raw text not kept; the
    failure is then printed. *)
Theorem parse_failure_is_recorded
        j i chunk_idx tomb_name prompt st w answer e :
  call_llm_api (llm_calls w) prompt = Ok answer ->
  extract_json_from_response answer = Raise e ->
  answer <> [] ->
  let error_entry :=
    (ERROR, chunk_label tomb_name chunk_idx ++ u " 抽取失败: " ++ exn_str e) in
  let filename := recovery_name j (timestamp (ticks w)) i chunk_idx in
  exists w',
    try_chunk j i chunk_idx tomb_name prompt st w
    = (Ok {| all_artifacts := all_artifacts st; response := Some answer |},
       w')
    /\ status w' = status w
    /\ match disk_error (ticks w) with
       | None =>
           logs w' = logs w ++ [error_entry; saved_notice filename]
           /\ get (files w') filename
              = Some (recovery_text j tomb_name chunk_idx e answer)
       | Some save_err =>
           logs w' = logs w ++ [error_entry]
           /\ files w' = files w
           /\ printed w'
              = printed w ++ [u "保存失败响应时出错: " ++ save_err]
       end.
Proof.
  intros Hllm Hparse Hne error_entry filename.
  unfold try_chunk, ask_llm. rewrite Hllm, Hparse. simpl bind. cbv iota.
  destruct answer as [|c raw]; [congruence|].
  unfold chunk_failed, mbind, add_log, ret, save_response. simpl.
  destruct (disk_error (ticks w)) as [save_err|]; eexists;
    (split; [reflexivity|]); simpl; (split; [reflexivity|]).
  - repeat split.
  - split.
    + now rewrite <- app_assoc.
    + rewrite get_set. now rewrite str_eqb_refl.
Qed.

(** However a chunk goes, its [try] returns: no exception of the
    model, of the recovery of JSON or of the records leaves it. *)
Lemma try_chunk_returns j i chunk_idx tomb_name prompt st w :
  exists st' w', try_chunk j i chunk_idx tomb_name prompt st w = (Ok st', w').
Proof.
  unfold try_chunk, ask_llm.
  assert (Hf : forall st0 e0 w0,
             exists st' w',
               chunk_failed j i chunk_idx tomb_name st0 e0 w0 = (Ok st', w')).
  { intros st0 e0 w0. unfold chunk_failed, mbind, add_log, ret. simpl.
    destruct (response st0) as [[|c raw]|]; simpl; try (do 2 eexists; reflexivity).
    unfold save_response. simpl.
    destruct (disk_error (ticks w0)); do 2 eexists; reflexivity. }
  destruct (call_llm_api (llm_calls w) prompt) as [answer|e]; [|apply Hf].
  destruct (artifacts <- extract_json_from_response answer ;;
            as_records artifacts) as [records|e]; [|apply Hf].
  do 2 eexists. reflexivity.
Qed.

(** ** How a run ends *)

(** What holds of the result and the state whenever a step returns. *)
Definition ends_in {A} (c : M A) (Q : A -> world -> Prop) : Prop :=
  forall w a w', c w = (Ok a, w') -> Q a w'.

Lemma ends_bind {A B} (c : M A) (k : A -> M B) Q :
  (forall a, ends_in (k a) Q) -> ends_in (mbind c k) Q.
Proof.
  intros Hk w b w'. unfold mbind.
  destruct (c w) as [[a|e] w1]; [|discriminate]. apply Hk.
Qed.

Definition done_entry : log_entry := (INFO, u "抽取流程完成").

Lemma extraction_ends_completed tid folder templates :
  ends_in (extraction tid folder templates)
          (fun a w' => a = tid /\ status w' = u "completed"
                       /\ exists before, logs w' = before ++ [done_entry]).
Proof.
  unfold extraction.
  repeat lazymatch goal with
         | |- ends_in (mbind (update_task_status (u "completed")) _) _ => fail
         | |- ends_in (mbind _ _) _ => apply ends_bind; intros ?
         end.
  intros w0 r0 w0' H. injection H as <- <-.
  split; [reflexivity|]. split; [reflexivity|].
  now exists (logs w0).
Qed.

(** A run that returns has set the status [completed] and logged the
    end of the run last; a run that raises has logged the error twice
    and set the status [failed], unless the task itself could not be
    created. *)
Theorem run_ends_completed_or_failed
        folder templates report_name task_id w r w' :
  execute_full_extraction folder templates report_name task_id w = (r, w') ->
  match r with
  | Ok tid =>
      status w' = u "completed"
      /\ exists before, logs w' = before ++ [done_entry]
  | Raise e =>
      (status w' = u "failed"
       /\ exists before,
            logs w'
            = before
              ++ [ (ERROR, u "抽取失败: " ++ exn_str e);
                   (ERROR, u "错误详情: " ++ firstn 500 (format_exc e)) ])
      \/ match task_id with
         | Some (_ :: _) => False
         | _ => call (create_task folder report_name) w = (Raise e, w')
         end
  end.
Proof.
  unfold execute_full_extraction. intros H.
  unfold mbind at 1 in H.
  destruct (match task_id with
            | Some (c :: t) => ret (c :: t)
            | _ => call (create_task folder report_name)
            end w) as [[tid|e] w1] eqn:E1.
  2:{ injection H as <- <-. right.
      destruct task_id as [[|c t]|]; try exact E1. discriminate E1. }
  unfold mbind at 1 in H. unfold try_except in H.
  cbv beta iota zeta delta [add_log] in H.
  match type of H with
  | context [extraction tid folder templates ?w2] =>
      destruct (extraction tid folder templates w2) as [[a|e] w3] eqn:E3
  end.
  - injection H as <- <-.
    destruct (extraction_ends_completed tid folder templates _ _ _ E3)
      as (_ & Hs & Hl).
    now split.
  - rewrite extraction_failed_eq in H.
    apply pair_equal_spec in H. destruct H as [<- <-].
    left. split; [reflexivity|].
    exists (logs w3). cbn [logs]. now rewrite <- app_assoc.
Qed.

(** The registration of a template neither returns a value nor lets
    an error of the template through: it raises only when its
    checkpoint observes an abort. *)
Lemma register_step_tolerant kv w r w' :
  register_step kv w = (r, w') -> r = Ok tt \/ r = Raise cancelled.
Proof.
  destruct kv as [type_key path]. unfold register_step, mbind at 1.
  unfold _check_cancellation.
  destruct (str_eqb _ ABORTED).
  - intros [= <- _]. now right.
  - unfold try_except, mbind, call, add_log.
    destruct (register_template type_key path _) as [[[[]|e] e'] entries];
      intros [= <- _]; now left.
Qed.

(** A template that cannot be read or registered does not stop the
    run: the loop over the templates raises nothing but the
    cancellation of an operator. *)
Theorem registration_failure_is_tolerated templates w e w' :
  for_each templates register_step w = (Raise e, w') -> e = cancelled.
Proof.
  revert w. induction templates as [|kv templates IH]; intros w; simpl.
  - discriminate.
  - unfold mbind at 1.
    destruct (register_step kv w) as [[[]|e0] w1] eqn:Hstep.
    + apply IH.
    + intros [= <- _].
      destruct (register_step_tolerant kv w _ _ Hstep) as [H|H];
        [discriminate|now injection H].
Qed.

End Flow.
Arguments status {E} w.
Arguments logs {E} w.
Arguments files {E} w.
Arguments printed {E} w.
Arguments llm_calls {E} w.
Arguments ticks {E} w.
Arguments observed {E} w.
Arguments ext {E} w.

(** ** A task on a small report *)

(** Surroundings in which nothing happens, and surroundings in which
    the operator presses "abort" once two checkpoints have passed. *)
Definition calm : Environment := {|
  abort_pressed := fun _ => false;
  disk_error := fun _ => None;
  timestamp := fun _ => u "20250101_120000";
  format_exc := fun e => u "Traceback (most recent call last): " ++ exn_str e
|}.

Definition abort_after_two : Environment := {|
  abort_pressed := fun tick => (2 <=? tick)%nat;
  disk_error := fun _ => None;
  timestamp := fun _ => u "20250101_120000";
  format_exc := fun e => u "Traceback (most recent call last): " ++ exn_str e
|}.

(** A model that answers in prose, and one that answers nothing. *)
Definition apology : str := u "抱歉，这段文字中没有可以识别的文物。".

Definition prose_llm : LLM := {| call_llm_api := fun _ _ => Ok apology |}.
Definition mute_llm : LLM := {| call_llm_api := fun _ _ => Ok [] |}.

(** A task that was just created, in a world with nothing else. *)
Definition fresh : world unit := {|
  status := u "pending"; logs := []; files := []; printed := [];
  llm_calls := 0; ticks := 0; observed := 0; ext := tt
|}.

Definition pottery_job : job := {|
  task_id := u "task_1"; site_id := VInt 1; report_folder := u "reports/a";
  template_path := u "pottery.xlsx"; artifact_type := u "pottery"
|}.

Definition no_locals : locals := {| all_artifacts := []; response := None |}.

Definition done {A} (a : A) : op unit A := fun e => (Ok a, e, []).

(** The whole extraction of a one-tomb report with a pottery template,
    the operator pressing "abort" while the templates are registered. *)
Definition aborted_run : result str * world unit :=
  @execute_full_extraction example_interp prose_llm abort_after_two unit
    (fun _ _ chunk => done chunk)
    (fun _ => done (u "## M1" ++ [NL] ++ u "M1:1 陶罐"))
    (fun _ records => done (List.length records))
    (fun _ _ => done tt)
    (fun _ _ => done 0%nat)
    (fun _ _ _ => done (VInt 1))
    (fun _ _ _ _ => done 0%nat)
    (fun _ _ _ _ _ => done tt)
    (fun _ _ => done (u "task_1"))
    (u "reports/a") [(u "pottery", u "pottery.xlsx")] None
    (Some (u "task_1")) fresh.

Lemma cancellation_ends_in_failed_witness :
  fst aborted_run = Raise cancelled
  /\ status (snd aborted_run) = u "failed"
  /\ exists before,
       logs (snd aborted_run)
       = before
         ++ [ abort_notice;
              (ERROR, u "抽取失败: 任务已由用户手动中止");
              (ERROR, u "错误详情: "
                      ++ firstn 500 (@format_exc abort_after_two cancelled)) ].
Proof.
  refine (@cancellation_ends_in_failed
            example_interp prose_llm abort_after_two unit
            _ _ _ _ _ _ _ _ _ _ _ _ _ fresh
            (fst aborted_run) (snd aborted_run) _ _).
  - unfold aborted_run. apply surjective_pairing.
  - vm_compute. apply Nat.lt_0_succ.
Defined.

(** The run, in full: the status goes from [pending] to [running], is
    read as [aborted] at the third checkpoint, and ends as [failed]. *)
Lemma aborted_run_eq :
  fst aborted_run = Raise cancelled
  /\ status (snd aborted_run) = u "failed"
  /\ map fst (logs (snd aborted_run))
     = [INFO; INFO; INFO; WARNING; ERROR; ERROR]
  /\ observed (snd aborted_run) = 1%nat.
Proof. repeat split; vm_compute; reflexivity. Qed.

Lemma parse_failure_is_recorded_witness :
  exists w',
    @try_chunk example_interp prose_llm calm unit
               pottery_job 0 0 (u "M1") (u "prompt") no_locals fresh
    = (Ok {| all_artifacts := []; response := Some apology |}, w')
    /\ status w' = u "pending"
    /\ logs w'
       = [] ++ [ (ERROR, chunk_label (u "M1") 0 ++ u " 抽取失败: "
                         ++ exn_str (ValueError no_bracket_msg));
                 saved_notice (u "failed_task_1_20250101_120000_0_0.txt") ]
       /\ get (files w') (u "failed_task_1_20250101_120000_0_0.txt")
          = Some (recovery_text pottery_job (u "M1") 0
                                (ValueError no_bracket_msg) apology).
Proof.
  refine (@parse_failure_is_recorded
            example_interp prose_llm calm unit
            pottery_job 0 0 (u "M1") (u "prompt") no_locals fresh apology
            (ValueError no_bracket_msg) _ _ _).
  - reflexivity.
  - vm_compute. reflexivity.
  - discriminate.
Defined.

(** C2 as stated fails on an empty answer: no strategy recovers JSON
    from it, the error is logged, and no recovery file is written. *)
Lemma empty_response_leaves_no_recovery_file :
  @extract_json_from_response example_interp []
  = Raise (ValueError no_bracket_msg)
  /\ @try_chunk example_interp mute_llm calm unit
                pottery_job 0 0 (u "M1") (u "prompt") no_locals fresh
     = (Ok {| all_artifacts := []; response := Some [] |},
        {| status := u "pending";
           logs := [ (ERROR, u "M1 (片段1) 抽取失败: 无法从响应中提取有效的JSON。未找到 [ 或 {。") ];
           files := []; printed := [];
           llm_calls := 1; ticks := 0; observed := 0; ext := tt |}).
Proof. split; vm_compute; reflexivity. Qed.

(** The same extraction with an operator who leaves it alone: the
    model's prose is recorded as a failed chunk, and the run goes on
    to its end. *)
Definition calm_run : result str * world unit :=
  @execute_full_extraction example_interp prose_llm calm unit
    (fun _ _ chunk => done chunk)
    (fun _ => done (u "## M1" ++ [NL] ++ u "M1:1 陶罐"))
    (fun _ records => done (List.length records))
    (fun _ _ => done tt)
    (fun _ _ => done 0%nat)
    (fun _ _ _ => done (VInt 1))
    (fun _ _ _ _ => done 0%nat)
    (fun _ _ _ _ _ => done tt)
    (fun _ _ => done (u "task_1"))
    (u "reports/a") [(u "pottery", u "pottery.xlsx")] None
    (Some (u "task_1")) fresh.

Lemma calm_run_returns : fst calm_run = Ok (u "task_1").
Proof. vm_compute. reflexivity. Qed.

Lemma run_ends_completed_or_failed_witness :
  status (snd calm_run) = u "completed"
  /\ exists before, logs (snd calm_run) = before ++ [done_entry].
Proof.
  refine (@run_ends_completed_or_failed
            example_interp prose_llm calm unit
            (fun _ _ chunk => done chunk)
            (fun _ => done (u "## M1" ++ [NL] ++ u "M1:1 陶罐"))
            (fun _ records => done (List.length records))
            (fun _ _ => done tt)
            (fun _ _ => done 0%nat)
            (fun _ _ _ => done (VInt 1))
            (fun _ _ _ _ => done 0%nat)
            (fun _ _ _ _ _ => done tt)
            (fun _ _ => done (u "task_1"))
            (u "reports/a") [(u "pottery", u "pottery.xlsx")] None
            (Some (u "task_1")) fresh
            (Ok (u "task_1")) (snd calm_run) _).
  vm_compute. reflexivity.
Defined.

(** Three templates none of which can be registered, the operator
    pressing "abort" once two checkpoints have passed. *)
Definition broken_templates : result unit * world unit :=
  @for_each unit (str * str)
    [(u "site", u "site.xlsx"); (u "pottery", u "pottery.xlsx");
     (u "jade", u "jade.xlsx")]
    (@register_step abort_after_two unit
       (fun _ _ e => (Raise (OtherError (u "No such file")), e, [])))
    fresh.

Lemma registration_failure_is_tolerated_witness :
  exists e w', broken_templates = (Raise e, w')
               /\ e = cancelled
               /\ map fst (logs w') = [WARNING; WARNING; WARNING].
Proof.
  exists (OtherError (u "任务已由用户手动中止")), (snd broken_templates).
  split; [vm_compute; reflexivity|]. split.
  - refine (@registration_failure_is_tolerated
              abort_after_two unit
              (fun _ _ e => (Raise (OtherError (u "No such file")), e, []))
              [(u "site", u "site.xlsx"); (u "pottery", u "pottery.xlsx");
               (u "jade", u "jade.xlsx")]
              fresh (OtherError (u "任务已由用户手动中止"))
              (snd broken_templates) _).
    vm_compute. reflexivity.
  - vm_compute. reflexivity.
Defined.

End Workflow.
